(** * ngu-decoder: a decoder for the .NET BinaryFormatter wire format

    Shallow embedding of [src/index.js] and properties of its bit reader,
    record parser and member mapper.

    JavaScript numbers that the decoder manipulates are integers, modelled
    as [Z]; the 32-bit conversions performed by the operators [<<], [>>]
    and [&] are written out.  The additions of the reader (the cursor, the
    bytes of a read, the groups of a length) stay below 2^53 in magnitude,
    where double precision is exact; the sum of the dimensions of a
    BinaryArray can pass 2^53 and is rounded as an addition of doubles
    rounds.  Floating-point values are kept as their
    bit patterns.  Strings are sequences of UTF-16 code units.  The
    composites under construction, which the decoder mutates through
    several references (the stack, the object table, the member lists of
    their parents, the queued fix-ups), live in an explicit heap and are
    referred to by address.  Loops that need not terminate take a bound on
    the number of iterations. *)

From Stdlib Require Import ZArith List Lia String Ascii Bool.
From stdpp Require Import base list.
Import ListNotations.
Open Scope Z_scope.
Set Warnings "-register-all".

(** ** JavaScript integer operators *)

Module JS.

(** ToInt32 and ToUint32 of an integral number. *)
Definition ToInt32 (z : Z) : Z := (z + 2 ^ 31) mod 2 ^ 32 - 2 ^ 31.
Definition ToUint32 (z : Z) : Z := z mod 2 ^ 32.

(** [a << k], [a >> k] and [a & b]: operands are converted to 32 bits and
    the shift count is taken modulo 32. *)
Definition shl (a k : Z) : Z := ToInt32 (Z.shiftl (ToInt32 a) (ToUint32 k mod 32)).
Definition sar (a k : Z) : Z := Z.shiftr (ToInt32 a) (ToUint32 k mod 32).
Definition band (a b : Z) : Z := Z.land (ToInt32 a) (ToInt32 b).

(** The number [Math.pow(2, bits) - 1], up to its fractional part (which
    [&] discards).  The subtraction is exact up to 53 bits; from 54 bits on
    the double result is [2 ^ bits], and Infinity from 1024 bits on, which
    [&] reads as 0; for a negative exponent the result lies in (-1, 0). *)
Definition pow2_minus1 (bits : Z) : Z :=
  if bits <? 0 then 0
  else if bits <=? 53 then 2 ^ bits - 1
  else if bits <=? 1023 then 2 ^ bits
  else 0.

(** [array.slice(start, end)] for integral arguments. *)
Definition slice {A} (l : list A) (start_ end_ : Z) : list A :=
  let len := Z.of_nat (length l) in
  let k := if start_ <? 0 then Z.max (len + start_) 0 else Z.min start_ len in
  let final := if end_ <? 0 then Z.max (len + end_) 0 else Z.min end_ len in
  firstn (Z.to_nat (final - k)) (skipn (Z.to_nat k) l).

(** The double nearest to an integer, ties to even.  Integers of magnitude
    up to 2^53 are doubles; above, the doubles from 2^k to 2^(k+1) are the
    multiples of 2^(k-52).  (An integer from 2^1024 on would round to
    Infinity; the sums formed in this program stay far below.) *)
Definition round_double (z : Z) : Z :=
  let m := Z.abs z in
  if m <=? 2 ^ 53 then z
  else
    let ulp := 2 ^ (Z.log2 m - 52) in
    let q := m / ulp in
    let r := m mod ulp in
    let q := if 2 * r <? ulp then q
             else if ulp <? 2 * r then q + 1
             else if Z.even q then q else q + 1 in
    Z.sgn z * (q * ulp).

(** [x + y] on integral numbers: the exact sum, rounded to a double. *)
Definition add (x y : Z) : Z := round_double (x + y).

(** [String.fromCharCode(x)]: the code unit ToUint16(x). *)
Definition fromCharCode (x : Z) : Z := x mod 2 ^ 16.

End JS.

(** A JavaScript string, as its sequence of UTF-16 code units. *)
Definition jsstring := list Z.

Definition lit (s : string) : jsstring :=
  map (fun c => Z.of_N (N_of_ascii c)) (list_ascii_of_string s).

(** ** Exceptions and results *)

Inductive exn :=
| Unable_to_deserialize            (* throw "Unable to deserialize." *)
| Unmapped_primitive (code : Z)    (* throw "Unmapped primitive N." *)
| Unable_record (record : Z)       (* throw "unable to deserialize record of type N." *)
| TypeError (msg : string)
| RangeError (msg : string).

Inductive res (A : Type) :=
| Ok (a : A)
| Err (e : exn).
Arguments Ok {A} a.
Arguments Err {A} e.

(** ** The bit reader ([bitReader])

    The reader closes over the array [bytes] and the mutable cursor [bit].
    A reading operation is a function from the cursor to a result and the
    new cursor; none of the reader's own operations throws. *)

Module Reader.
Section WithBytes.

Variable bytes : list Z.

(** [reduce(array)]: [result += (b << (k * 8))] for each element. *)
Fixpoint reduce_from (k : Z) (array : list Z) (result : Z) : Z :=
  match array with
  | [] => result
  | b :: rest => reduce_from (k + 1) rest (result + JS.shl b (k * 8))
  end.

Definition reduce (array : list Z) : Z := reduce_from 0 array 0.

(** [read(bits)].  [Math.floor(bit / 8)] is [bit / 8] and
    [Math.ceil((bit + bits) / 8)] is [(bit + bits + 7) / 8]; [bit % 8] takes
    the sign of [bit], hence [Z.rem]. *)
Definition read (bits : Z) (bit : Z) : Z * Z :=
  let startByte := bit / 8 in
  let endByte := (bit + bits + 7) / 8 in
  let b := JS.slice bytes startByte endByte in
  let result := reduce b in
  let mask := JS.pow2_minus1 bits in
  let result := JS.sar result (Z.rem bit 8) in
  let f := JS.band result mask in
  (f, bit + bits).

Definition peek (bits : Z) (bit : Z) : Z * Z :=
  let '(result, bit) := read bits bit in
  (result, bit - bits).

(** [readByteArray(count)]: the slice bounds [bit / 8] and [bit / 8 + count]
    are truncated towards zero by [slice]. *)
Definition readByteArray (count : Z) (bit : Z) : list Z * Z :=
  let ret := JS.slice bytes (Z.quot bit 8) (Z.quot (bit + 8 * count) 8) in
  (ret, bit + count * 8).

Definition read8 := read 8.
Definition read16 := read 16.
Definition read32 := read 32.
Definition read64 := read 64.

(** The loop of [readLengthPrefixedString]; [j] counts the remaining
    iterations (five at the start). *)
Fixpoint readLength (j : nat) (multiplier len : Z) (bit : Z) : Z * Z :=
  match j with
  | O => (len, bit)
  | S j' =>
      let '(nextLength, bit) := read 7 bit in
      let len := len + JS.shl nextLength (multiplier * 7) in
      let multiplier := multiplier + 1 in
      let '(more, bit) := read 1 bit in
      if more =? 0 then (len, bit) else readLength j' multiplier len bit
  end.

Definition readLengthPrefixedString (bit : Z) : jsstring * Z :=
  let '(len, bit) := readLength 5 0 0 bit in
  let '(charArray, bit) := readByteArray len bit in
  (map JS.fromCharCode charArray, bit).

End WithBytes.
End Reader.

(** [bitReader(str)]: the bytes are the code units of [str]; a first code
    unit other than 0 (or none) is rejected.  The cursor starts at 0. *)
Definition bitReader (str : jsstring) : res (list Z) :=
  match str with
  | 0 :: _ => Ok str
  | _ => Err Unable_to_deserialize
  end.


(** ** Values, composites and the parser state *)

(** Address of a composite in the heap. *)
Definition addr := nat.

(** The values that occur as members, as entries of the object table and as
    results of a primitive decode.  [Vsingle] and [Vdouble] stand for the
    floating-point number whose IEEE-754 bit pattern is given (as one or two
    unsigned 32-bit words, low word first); [Vref id] is the placeholder
    object [{ref: id}]; [Vobj a] is a reference to the composite at [a]. *)
Inductive value :=
| Vundefined
| Vnull
| Vbool (b : bool)
| Vnum (n : Z)
| Vsingle (bits : Z)
| Vdouble (lo hi : Z)
| Vstr (s : jsstring)
| Varray (elems : list value)
| Vref (id : Z)
| Vobj (a : addr).

(** What [deserializeAdditionalTypeInfo] returns. *)
Inductive addinfo :=
| AIundefined
| AInull
| AInum (n : Z)
| AIstr (s : jsstring)
| AIclass (className : jsstring) (libraryId : Z).

(** A composite: a class instance (fields of
    [deserializeClassWithMembersAndTypes]), a binary array (fields of
    [binaryArrayObj]) or a clone made by ClassWithId.  A field that the
    object does not have is [None]; [libraryId] is also [None] when it is
    [null]. *)
Record object := {
  objectId : Z;
  name : option jsstring;
  memberNames : option (list jsstring);
  memberTypes : option (list Z);
  additionalInfos : option (list addinfo);
  libraryId : option Z;
  memberValues : list value;
  rank : option Z;
  lengths : option (list Z);
  lowerBounds : option (list Z);
  itemType : option Z
}.

Definition set_memberValues (o : object) (mv : list value) : object :=
  {| objectId := objectId o; name := name o; memberNames := memberNames o;
     memberTypes := memberTypes o; additionalInfos := additionalInfos o;
     libraryId := libraryId o; memberValues := mv; rank := rank o;
     lengths := lengths o; lowerBounds := lowerBounds o; itemType := itemType o |}.

Definition set_objectId (o : object) (id : Z) : object :=
  {| objectId := id; name := name o; memberNames := memberNames o;
     memberTypes := memberTypes o; additionalInfos := additionalInfos o;
     libraryId := libraryId o; memberValues := memberValues o; rank := rank o;
     lengths := lengths o; lowerBounds := lowerBounds o; itemType := itemType o |}.

(** The object [{}] (with the two fields that ClassWithId then assigns). *)
Definition empty_object : object :=
  {| objectId := 0; name := None; memberNames := None; memberTypes := None;
     additionalInfos := None; libraryId := None; memberValues := [];
     rank := None; lengths := None; lowerBounds := None; itemType := None |}.

(** A queued fix-up [() => currentObject.memberValues[idx] =
    state.objects[reference]]: the captured composite, index and id. *)
Record fixup := { fx_object : addr; fx_idx : nat; fx_reference : Z }.

(** The local state of [deserialize]: the reader's cursor, the heap of
    composites, [result.header] and the four fields of [state].  The table
    [objects] keeps its entries in order of creation; [objectStack] is kept
    with its top first. *)
Record state := {
  bit : Z;
  heap : list object;
  header : option (Z * Z * Z * Z);
  libraries : list (Z * jsstring);
  objects : list (Z * value);
  references : list fixup;
  objectStack : list addr
}.

Definition set_bit (st : state) (b : Z) : state :=
  {| bit := b; heap := heap st; header := header st; libraries := libraries st;
     objects := objects st; references := references st;
     objectStack := objectStack st |}.

Definition set_heap (st : state) (h : list object) : state :=
  {| bit := bit st; heap := h; header := header st; libraries := libraries st;
     objects := objects st; references := references st;
     objectStack := objectStack st |}.

Definition set_header (st : state) (hd : Z * Z * Z * Z) : state :=
  {| bit := bit st; heap := heap st; header := Some hd; libraries := libraries st;
     objects := objects st; references := references st;
     objectStack := objectStack st |}.

Definition set_libraries (st : state) (l : list (Z * jsstring)) : state :=
  {| bit := bit st; heap := heap st; header := header st; libraries := l;
     objects := objects st; references := references st;
     objectStack := objectStack st |}.

Definition set_objects (st : state) (o : list (Z * value)) : state :=
  {| bit := bit st; heap := heap st; header := header st; libraries := libraries st;
     objects := o; references := references st;
     objectStack := objectStack st |}.

Definition set_references (st : state) (r : list fixup) : state :=
  {| bit := bit st; heap := heap st; header := header st; libraries := libraries st;
     objects := objects st; references := r;
     objectStack := objectStack st |}.

Definition set_objectStack (st : state) (s : list addr) : state :=
  {| bit := bit st; heap := heap st; header := header st; libraries := libraries st;
     objects := objects st; references := references st;
     objectStack := s |}.

(** *** The object table, a JavaScript object keyed by object ids *)

Module Table.

(** [objects[k]]; a missing key reads as [undefined]. *)
Fixpoint get (k : Z) (t : list (Z * value)) : value :=
  match t with
  | [] => Vundefined
  | (k', v) :: rest => if k =? k' then v else get k rest
  end.

(** [objects[k] = v]: an existing property keeps its place, a new one is
    created last. *)
Fixpoint set (k : Z) (v : value) (t : list (Z * value)) : list (Z * value) :=
  match t with
  | [] => [(k, v)]
  | (k', v') :: rest => if k =? k' then (k, v) :: rest else (k', v') :: set k v rest
  end.

(** Insertion of an entry into a list sorted by key. *)
Fixpoint insert_sorted (e : Z * value) (l : list (Z * value)) : list (Z * value) :=
  match l with
  | [] => [e]
  | e' :: rest => if fst e <=? fst e' then e :: l else e' :: insert_sorted e rest
  end.

Definition sort_by_key (l : list (Z * value)) : list (Z * value) :=
  fold_right insert_sorted [] l.

(** Own property order: keys that are array indices (the non-negative ids;
    an id is below 2^31) in ascending numeric order, then the other keys
    (the negative ids) in order of creation. *)
Definition own_entries (t : list (Z * value)) : list (Z * value) :=
  sort_by_key (List.filter (fun e => 0 <=? fst e) t)
  ++ List.filter (fun e => fst e <? 0) t.

(** [Object.values(objects)]. *)
Definition values (t : list (Z * value)) : list value := map snd (own_entries t).

End Table.

(** [array[idx] = v] on an array without holes: within the array the
    element is replaced; beyond it the array grows, the skipped positions
    reading as [undefined]. *)
Definition array_set (l : list value) (idx : nat) (v : value) : list value :=
  if (idx <? length l)%nat then <[idx := v]> l
  else l ++ repeat Vundefined (idx - length l) ++ [v].

(** ** The record decoders

    A decoder run takes the cursor and yields a result and the new cursor,
    or an exception. *)

Definition M (A : Type) : Type := Z -> res (A * Z).

Definition ret {A} (a : A) : M A := fun bit => Ok (a, bit).
Definition throw {A} (e : exn) : M A := fun _ => Err e.
Definition bind {A B} (m : M A) (k : A -> M B) : M B :=
  fun bit => match m bit with
             | Ok (a, bit') => k a bit'
             | Err e => Err e
             end.
(** A reader operation, which never throws. *)
Definition rd {A} (f : Z -> A * Z) : M A := fun bit => Ok (f bit).

Notation "'let*' x ':=' m 'in' k" := (bind m (fun x => k))
  (at level 10, x name, m at level 100, k at level 200).

(** [for (let i = 0; i < n; i++) out.push(m)]. *)
Fixpoint times {A} (n : nat) (m : M A) : M (list A) :=
  match n with
  | O => ret []
  | S n' => let* x := m in let* xs := times n' m in ret (x :: xs)
  end.

(** [for (...) out.push(f(l[i]))] over the elements of [l]. *)
Fixpoint each {A B} (f : A -> M B) (l : list A) : M (list B) :=
  match l with
  | [] => ret []
  | a :: rest => let* x := f a in let* xs := each f rest in ret (x :: xs)
  end.

Section Decoders.

Variable bytes : list Z.

Definition read8 : M Z := rd (Reader.read8 bytes).
Definition read16 : M Z := rd (Reader.read16 bytes).
Definition read32 : M Z := rd (Reader.read32 bytes).
Definition read64 : M Z := rd (Reader.read64 bytes).
Definition readLengthPrefixedString : M jsstring :=
  rd (Reader.readLengthPrefixedString bytes).

(** [readSingle]: the 32 bits read are stored through a [Uint32Array] and
    read back through a [Float32Array] over the same buffer. *)
Definition readSingle : M value :=
  let* w := read32 in ret (Vsingle (JS.ToUint32 w)).

(** [readDouble]: two words stored through a [Uint32Array], read back
    through a [Float64Array]. *)
Definition readDouble : M value :=
  let* lo := read32 in
  let* hi := read32 in
  ret (Vdouble (JS.ToUint32 lo) (JS.ToUint32 hi)).

Definition deserializeHeader : M (Z * Z * Z * Z) :=
  let* rootId := read32 in
  let* headerId := read32 in
  let* majorVersion := read32 in
  let* minorVersion := read32 in
  ret (rootId, headerId, majorVersion, minorVersion).

Definition deserializeBinaryLibrary : M (Z * jsstring) :=
  let* id := read32 in
  let* nm := readLengthPrefixedString in
  ret (id, nm).

(** A [type] outside 0..7 matches no case: the function returns
    [undefined] without reading. *)
Definition deserializeAdditionalTypeInfo (type : Z) : M addinfo :=
  match type with
  | 1 | 2 | 5 | 6 => ret AInull
  | 0 => let* n := read8 in ret (AInum n)
  | 3 => let* s := readLengthPrefixedString in ret (AIstr s)
  | 4 => let* className := readLengthPrefixedString in
         let* libraryId := read32 in
         ret (AIclass className libraryId)
  | 7 => let* n := read8 in ret (AInum n)
  | _ => ret AIundefined
  end.

Definition deserializeClassWithMembersAndTypes (isSystem : bool) : M object :=
  let* objectId := read32 in
  let* name := readLengthPrefixedString in
  let* memberCount := read32 in
  let* memberNames := times (Z.to_nat memberCount) readLengthPrefixedString in
  let* memberTypes := times (Z.to_nat memberCount) read8 in
  let* additionalInfos := each deserializeAdditionalTypeInfo memberTypes in
  let* libraryId := (if isSystem then ret None
                     else let* l := read32 in ret (Some l)) in
  ret {| objectId := objectId; name := Some name;
         memberNames := Some memberNames; memberTypes := Some memberTypes;
         additionalInfos := Some additionalInfos; libraryId := libraryId;
         memberValues := []; rank := None; lengths := None;
         lowerBounds := None; itemType := None |}.

Definition deserializeBinaryObjectString : M (Z * jsstring) :=
  let* objectId := read32 in
  let* value := readLengthPrefixedString in
  ret (objectId, value).

Definition deserializeMemberReference : M Z := read32.

(** [deserializePrimitiveType(reader, type)].  The [switch] compares with
    [===], so only a number selects a case; anything else, and a number
    outside 0..18, falls out of the switch and the function returns
    [undefined].

    Case 10 calls [reader.read7()]; the object returned by [bitReader] has
    the properties [peek], [read], [read8], [read16], [read32], [read64],
    [readSingle], [readDouble], [readLengthPrefixedString] and [bytes]
    only, so the call is a call of [undefined] and throws a TypeError
    before anything is read. *)
Definition deserializePrimitiveType (type : addinfo) : M value :=
  match type with
  | AInum 0 => throw (Unmapped_primitive 0)
  | AInum 1 => let* b := read8 in ret (Vbool (negb (b =? 0)))
  | AInum 2 => let* b := read8 in ret (Vnum b)
  | AInum 3 => let* b := read8 in ret (Vnum b)
  | AInum 4 => throw (Unmapped_primitive 4)
  | AInum 5 => let* s := readLengthPrefixedString in ret (Vstr s)
  | AInum 6 => readDouble
  | AInum 7 => let* n := read16 in ret (Vnum n)
  | AInum 8 => let* n := read32 in ret (Vnum n)
  | AInum 9 => let* n := read64 in ret (Vnum n)
  | AInum 10 => throw (TypeError "reader.read7 is not a function")
  | AInum 11 => readSingle
  | AInum 12 => let* n := read64 in ret (Vnum n)
  | AInum 13 => let* n := read64 in ret (Vnum n)
  | AInum 14 => let* n := read16 in ret (Vnum n)
  | AInum 15 => let* n := read32 in ret (Vnum n)
  | AInum 16 => let* n := read64 in ret (Vnum n)
  | AInum 17 => ret Vnull
  | AInum 18 => let* s := readLengthPrefixedString in ret (Vstr s)
  | _ => ret Vundefined
  end.

End Decoders.

(** ** The main loop of [deserialize] *)

(** What one iteration of the [while (true)] loop does: go on with a new
    state, leave the loop at MessageEnd (with the heap as the fix-ups left
    it and the value [c] handed to [mapMembers]), or throw. *)
Inductive outcome :=
| Continue (st : state)
| Finish (h : list object) (c : value)
| Throw (e : exn).

(** Run a decoder on the state's cursor. *)
Definition with_reader {A} (m : M A) (st : state)
    (k : A -> state -> outcome) : outcome :=
  match m (bit st) with
  | Ok (a, b) => k a (set_bit st b)
  | Err e => Throw e
  end.

(** [o.memberValues.push(v1, ..., vn)] for the composite at [a]. *)
Definition push_members (h : list object) (a : addr) (vs : list value) : list object :=
  match h !! a with
  | Some o => <[a := set_memberValues o (memberValues o ++ vs)]> h
  | None => h
  end.

(** [if (currentObject) currentObject.memberValues.push(v)]. *)
Definition push_if_current (currentObject : option addr) (v : value)
    (h : list object) : list object :=
  match currentObject with
  | Some a => push_members h a [v]
  | None => h
  end.

(** [{...v}]: the own enumerable properties of [v].  Of the values held by
    the object table only a composite has any of the fields of [object];
    the spread of a string or an array has index properties only and the
    spread of [undefined] has none. *)
Definition spread (h : list object) (v : value) : object :=
  match v with
  | Vobj m => match h !! m with
              | Some o => o
              | None => empty_object
              end
  | _ => empty_object
  end.

(** One queued fix-up, run at MessageEnd. *)
Definition run_fixup (objs : list (Z * value)) (h : list object) (r : fixup) : list object :=
  match h !! fx_object r with
  | Some o =>
      <[fx_object r :=
          set_memberValues o
            (array_set (memberValues o) (fx_idx r) (Table.get (fx_reference r) objs))]> h
  | None => h
  end.

(** [for (const r of state.references) r()]. *)
Definition run_fixups (objs : list (Z * value)) (refs : list fixup)
    (h : list object) : list object :=
  fold_left (run_fixup objs) refs h.

(** [lengths.reduce((x, y) => x + y)]: the sum from left to right in
    JavaScript numbers, starting from the first element; [None] where
    [reduce] throws. *)
Definition reduce_sum (lengths : list Z) : option Z :=
  match lengths with
  | [] => None
  | x :: rest => Some (fold_left JS.add rest x)
  end.

Section Deserialize.

Variable bytes : list Z.

Definition decodeBinaryArray : M (Z * Z * Z * list Z * list Z * Z * addinfo) :=
  let* binaryArrayObjectId := read32 bytes in
  let* binaryArrayType := read8 bytes in
  let* rank := read32 bytes in
  let* lengths := times (Z.to_nat rank) (read32 bytes) in
  let* lowerBounds := (if 2 <? binaryArrayType
                       then times (Z.to_nat rank) (read32 bytes)
                       else ret []) in
  let* binaryArrayItemType := read8 bytes in
  let* additionalInfo := deserializeAdditionalTypeInfo bytes binaryArrayItemType in
  ret (binaryArrayObjectId, binaryArrayType, rank, lengths, lowerBounds,
       binaryArrayItemType, additionalInfo).

(** The [switch (record)] statement, entered after [reader.read8()]. *)
Definition dispatch (record : Z) (currentObject : option addr) (st : state) : outcome :=
  match record with
  | 0 (* SerializationHeaderRecord *) =>
      with_reader (deserializeHeader bytes) st (fun hd st =>
        Continue (set_header st hd))
  | 1 (* ClassWithId *) =>
      with_reader (let* objectId := read32 bytes in
                   let* metadataId := read32 bytes in
                   ret (objectId, metadataId)) st (fun ids st =>
        let '(objectId, metadataId) := ids in
        let cls1 := spread (heap st) (Table.get metadataId (objects st)) in
        let cls1 := set_memberValues cls1 [] in
        let cls1 := set_objectId cls1 objectId in
        let a1 := length (heap st) in
        let h := push_if_current currentObject (Vobj a1) (heap st ++ [cls1]) in
        Continue (set_objects (set_objectStack (set_heap st h) (a1 :: objectStack st))
                    (Table.set objectId (Vobj a1) (objects st))))
  | 4 | 5 (* (System)ClassWithMembersAndTypesRecord *) =>
      with_reader (deserializeClassWithMembersAndTypes bytes (record =? 4)) st (fun cls st =>
        let a := length (heap st) in
        let h := push_if_current currentObject (Vobj a) (heap st ++ [cls]) in
        Continue (set_objects (set_objectStack (set_heap st h) (a :: objectStack st))
                    (Table.set (objectId cls) (Vobj a) (objects st))))
  | 6 (* BinaryObjectString *) =>
      with_reader (deserializeBinaryObjectString bytes) st (fun bos st =>
        let st := set_objects st (Table.set (fst bos) (Vstr (snd bos)) (objects st)) in
        match currentObject with
        | Some a => Continue (set_heap st (push_members (heap st) a [Vstr (snd bos)]))
        | None => Throw (TypeError "currentObject is undefined")
        end)
  | 7 (* BinaryArray *) =>
      with_reader decodeBinaryArray st (fun r st =>
        let '(binaryArrayObjectId, binaryArrayType, rank, lengths, lowerBounds,
              binaryArrayItemType, additionalInfo) := r in
        match reduce_sum lengths with
        | None => Throw (TypeError "Reduce of empty array with no initial value")
        | Some totalLength =>
            if (totalLength <? 0) || (2 ^ 32 <=? totalLength)
            then Throw (RangeError "Invalid array length")
            else
              let binaryArrayObj :=
                {| objectId := binaryArrayObjectId; name := None;
                   memberNames := None;
                   memberTypes := Some (repeat binaryArrayItemType (Z.to_nat totalLength));
                   additionalInfos := Some (repeat additionalInfo (Z.to_nat totalLength));
                   libraryId := None; memberValues := [];
                   rank := Some rank; lengths := Some lengths;
                   lowerBounds := Some lowerBounds;
                   itemType := Some binaryArrayItemType |} in
              let a := length (heap st) in
              Continue (set_objectStack
                          (set_objects (set_heap st (heap st ++ [binaryArrayObj]))
                             (Table.set binaryArrayObjectId (Vobj a) (objects st)))
                          (a :: objectStack st))
        end)
  | 9 (* MemberReference *) =>
      with_reader (deserializeMemberReference bytes) st (fun reference st =>
        match currentObject with
        | Some a =>
            let idx := match heap st !! a with
                       | Some o => length (memberValues o)
                       | None => O
                       end in
            let st := set_references st
                        (references st ++
                           [{| fx_object := a; fx_idx := idx; fx_reference := reference |}]) in
            Continue (set_heap st (push_members (heap st) a [Vref reference]))
        | None => Throw (TypeError "currentObject is undefined")
        end)
  | 10 (* ObjectNull *) =>
      match currentObject with
      | Some a => Continue (set_heap st (push_members (heap st) a [Vnull]))
      | None => Throw (TypeError "currentObject is undefined")
      end
  | 11 (* MessageEnd *) =>
      Finish (run_fixups (objects st) (references st) (heap st))
             (hd Vundefined (Table.values (objects st)))
  | 12 (* BinaryLibraryRecord *) =>
      with_reader (deserializeBinaryLibrary bytes) st (fun lib st =>
        Continue (set_libraries st (libraries st ++ [lib])))
  | 13 (* ObjectNull256 *) =>
      with_reader (read8 bytes) st (fun nullCount st =>
        match currentObject with
        | Some a =>
            Continue (set_heap st
                        (push_members (heap st) a (repeat Vnull (Z.to_nat nullCount))))
        | None => Throw (TypeError "currentObject is undefined")
        end)
  | 15 (* ArraySinglePrimitive *) =>
      with_reader (let* arrayObjectId := read32 bytes in
                   let* length := read32 bytes in
                   let* type := read8 bytes in
                   let* array := times (Z.to_nat length)
                                   (deserializePrimitiveType bytes (AInum type)) in
                   ret (arrayObjectId, array)) st (fun r st =>
        Continue (set_objects st (Table.set (fst r) (Varray (snd r)) (objects st))))
  | _ => Throw (Unable_record record)
  end.

(** [const record = reader.read8(); switch (record) ...]. *)
Definition read_record (currentObject : option addr) (st : state) : outcome :=
  with_reader (read8 bytes) st (fun record st => dispatch record currentObject st).

(** One iteration of the loop.  The top of the stack is an address of the
    heap; an address outside it cannot be produced by [step] and is given
    the behaviour of a member access on [undefined]. *)
Definition step (st : state) : outcome :=
  match objectStack st with
  | a :: below =>
      match heap st !! a with
      | Some currentObject =>
          let currentMemberIdx := length (memberValues currentObject) in
          match memberTypes currentObject with
          | Some types =>
              if (currentMemberIdx <? length types)%nat then
                let memberType := nth currentMemberIdx types 0 in
                if memberType =? 0 then
                  match additionalInfos currentObject with
                  | Some infos =>
                      with_reader
                        (deserializePrimitiveType bytes
                           (nth currentMemberIdx infos AIundefined)) st (fun v st =>
                        Continue (set_heap st (push_members (heap st) a [v])))
                  | None => Throw (TypeError "currentObject.additionalInfos is undefined")
                  end
                else read_record (Some a) st
              else Continue (set_objectStack st below)
          | None => Throw (TypeError "currentObject.memberTypes is undefined")
          end
      | None => Throw (TypeError "currentObject is undefined")
      end
  | [] => read_record None st
  end.

(** The loop, for at most [fuel] iterations; [None] when they do not
    suffice. *)
Fixpoint loop (fuel : nat) (st : state) : option (res (list object * value)) :=
  match fuel with
  | O => None
  | S fuel' =>
      match step st with
      | Continue st' => loop fuel' st'
      | Finish h c => Some (Ok (h, c))
      | Throw e => Some (Err e)
      end
  end.

End Deserialize.

Definition initial_state : state :=
  {| bit := 0; heap := []; header := None; libraries := []; objects := [];
     references := []; objectStack := [] |}.

(** ** The member mapper ([mapMembers]) *)

(** The value tree handed out: a value returned as it is, the array built
    by [memberValues.map(mapMembers)], or the object [members].  For the
    latter [proto] is [None] while the prototype is [Object.prototype] and
    [Some p] once an assignment to [__proto__] has replaced it by [p];
    [props] are the own properties in order of creation. *)
Inductive pvalue :=
| Psimple (v : value)
| Parray (elems : list pvalue)
| Pobject (proto : option pvalue) (props : list (jsstring * pvalue)).

Module Props.

Fixpoint get (k : jsstring) (ps : list (jsstring * pvalue)) : option pvalue :=
  match ps with
  | [] => None
  | (k', v) :: rest => if bool_decide (k = k') then Some v else get k rest
  end.

Fixpoint set (k : jsstring) (v : pvalue) (ps : list (jsstring * pvalue))
    : list (jsstring * pvalue) :=
  match ps with
  | [] => [(k, v)]
  | (k', v') :: rest =>
      if bool_decide (k = k') then (k, v) :: rest else (k', v') :: set k v rest
  end.

Definition keys (ps : list (jsstring * pvalue)) : list jsstring := map fst ps.

End Props.

Definition proto_name : jsstring := lit "__proto__".

(** Whether a value is an object or [null], which is what the [__proto__]
    setter accepts as a prototype. *)
Definition object_or_null (p : pvalue) : bool :=
  match p with
  | Psimple Vnull | Psimple (Varray _) | Psimple (Vref _) | Psimple (Vobj _) => true
  | Psimple _ => false
  | Parray _ | Pobject _ _ => true
  end.

(** Whether looking up [__proto__] from an object with prototype [p] finds
    the accessor of [Object.prototype]: not when the chain ends in [null]
    first, nor when an object on it has an own property of that name. *)
Fixpoint reaches_accessor (p : pvalue) : bool :=
  match p with
  | Psimple Vnull => false
  | Pobject proto props =>
      match Props.get proto_name props with
      | Some _ => false
      | None => match proto with
                | Some p' => reaches_accessor p'
                | None => true
                end
      end
  | _ => true
  end.

(** [members[k] = v] on the object [members] with the given prototype and
    own properties.  The name [__proto__] is an accessor inherited from
    [Object.prototype]: assigning to it creates no own property; it
    replaces the prototype when [v] is an object or [null] and does nothing
    otherwise. *)
Definition assign (proto : option pvalue) (props : list (jsstring * pvalue))
    (k : jsstring) (v : pvalue) : option pvalue * list (jsstring * pvalue) :=
  if bool_decide (k = proto_name)
     && match Props.get proto_name props with Some _ => false | None => true end
     && match proto with Some p => reaches_accessor p | None => true end
  then (if object_or_null v then (Some v, props) else (proto, props))
  else (proto, Props.set k v props).

Definition collapses (nm : jsstring) : bool :=
  bool_decide (nm = lit "_items") || bool_decide (nm = lit "value__").

(** The [for (const idx in obj.memberNames)] loop, from index [idx] on. *)
Fixpoint mapMembers_loop (project : value -> option pvalue)
    (memberNames : list jsstring) (memberValues : list value) (idx : nat)
    (proto : option pvalue) (props : list (jsstring * pvalue)) : option pvalue :=
  match memberNames with
  | [] => Some (Pobject proto props)
  | nm :: rest =>
      if collapses nm then project (nth idx memberValues Vundefined)
      else
        match project (nth idx memberValues Vundefined) with
        | Some v =>
            let '(proto, props) := assign proto props nm v in
            mapMembers_loop project rest memberValues (S idx) proto props
        | None => None
        end
  end.

(** [array.map(f)] where [f] may fail. *)
Fixpoint map_option {A B} (f : A -> option B) (l : list A) : option (list B) :=
  match l with
  | [] => Some []
  | a :: rest =>
      match f a with
      | Some b => match map_option f rest with
                  | Some bs => Some (b :: bs)
                  | None => None
                  end
      | None => None
      end
  end.

(** [mapMembers(obj)] over the heap [h], with nested calls at most [depth]
    deep; [None] when the recursion goes deeper (on a cyclic graph it always
    does).  An address outside the heap, which [step] never produces, is
    read as [undefined]. *)
Fixpoint mapMembers (depth : nat) (h : list object) (obj : value) : option pvalue :=
  match depth with
  | O => None
  | S depth' =>
      match obj with
      | Vobj a =>
          match h !! a with
          | Some o =>
              match rank o with
              | Some r =>
                  if negb (r =? 0) then
                    option_map Parray (map_option (mapMembers depth' h) (memberValues o))
                  else
                    mapMembers_loop (mapMembers depth' h)
                      (match memberNames o with Some l => l | None => [] end)
                      (memberValues o) 0 None []
              | None =>
                  mapMembers_loop (mapMembers depth' h)
                    (match memberNames o with Some l => l | None => [] end)
                    (memberValues o) 0 None []
              end
          | None => Some (Psimple Vundefined)
          end
      | _ => Some (Psimple obj)
      end
  end.

(** ** [deserialize(str)]

    [None] when [fuel] iterations of the loop or [depth] nested calls of
    [mapMembers] do not suffice. *)
Definition deserialize (fuel depth : nat) (str : jsstring) : option (res pvalue) :=
  match bitReader str with
  | Err e => Some (Err e)
  | Ok bytes =>
      match loop bytes fuel initial_state with
      | Some (Ok (h, c)) => option_map Ok (mapMembers depth h c)
      | Some (Err e) => Some (Err e)
      | None => None
      end
  end.

(** * Notions used in the statements *)

(** ** Bytes and numbers *)

(** A byte value. *)
Definition is_byte (b : Z) : Prop := 0 <= b < 256.

(** The byte at index [q], or 0 past the end. *)
Definition byte_at (bytes : list Z) (q : nat) : Z := nth q bytes 0.

(** The little-endian unsigned value of four bytes. *)
Definition le_unsigned32 (b0 b1 b2 b3 : Z) : Z :=
  b0 + 2 ^ 8 * b1 + 2 ^ 16 * b2 + 2 ^ 24 * b3.




(** The 7-bit encoding of a length that [readLengthPrefixedString] reads:
    groups of seven bits, low group first, every byte but the last with
    its high bit set; at most [n] bytes. *)
Fixpoint encode_length (n : nat) (len : Z) : list Z :=
  match n with
  | O => []
  | S n' =>
      if len <? 128 then [len]
      else (len mod 128 + 128) :: encode_length n' (len / 128)
  end.

(** ** Runs *)

(** A run that cannot throw. *)
Definition no_throw {A} (m : M A) : Prop :=
  forall bit, exists a bit', m bit = Ok (a, bit').

(** Every result of a decoder run satisfies [P]. *)
Definition yields {A} (P : A -> Prop) (m : M A) : Prop :=
  forall b a b', m b = Ok (a, b') -> P a.

(** Every exception of a decoder run satisfies [P]. *)
Definition raises {A} (P : exn -> Prop) (m : M A) : Prop :=
  forall b e, m b = Err e -> P e.

(** The exceptions of the loop: the two unmapped primitive codes, a record
    tag that the [switch] has no case for, and the errors of the engine;
    not the rejection of the first byte. *)
Definition raised_by_loop (e : exn) : Prop :=
  match e with
  | Unable_to_deserialize => False
  | Unmapped_primitive code => code = 0 \/ code = 4
  | Unable_record record =>
      ~ In record [0; 1; 4; 5; 6; 7; 9; 10; 11; 12; 13; 15]
  | TypeError _ | RangeError _ => True
  end.

(** [n] iterations that all go on. *)
Fixpoint steps (bytes : list Z) (n : nat) (st : state) : option state :=
  match n with
  | O => Some st
  | S n' =>
      match steps bytes n' st with
      | Some st' =>
          match step bytes st' with
          | Continue st'' => Some st''
          | _ => None
          end
      | None => None
      end
  end.

(** The loop iteration reads a record tag: the stack is empty, or the
    next member of the composite on top is not a primitive.  The index is
    the [currentObject] of the iteration. *)
Inductive expects_record (st : state) : option addr -> Prop :=
| expects_at_top_level :
    objectStack st = [] -> expects_record st None
| expects_for_member a below o types :
    objectStack st = a :: below ->
    heap st !! a = Some o ->
    memberTypes o = Some types ->
    (length (memberValues o) < length types)%nat ->
    nth (length (memberValues o)) types 0 <> 0 ->
    expects_record st (Some a).

(** The cursor is at or past the end of the input. *)
Definition past_end (bytes : list Z) (b : Z) : Prop :=
  8 * Z.of_nat (length bytes) <= b.

(** A decoder run started past the end leaves the cursor past the end. *)
Definition stays_past_end {A} (bytes : list Z) (m : M A) : Prop :=
  forall b, past_end bytes b ->
            match m b with
            | Ok (_, b') => past_end bytes b'
            | Err _ => True
            end.

(** ** Effects and invariants of an iteration *)

(** What an iteration that goes on does to the object table: nothing, or
    one assignment. *)
Definition objects_effect (st st' : state) : Prop :=
  objects st' = objects st \/
  exists k v, objects st' = Table.set k v (objects st).

(** What an iteration that goes on does to the heap and the stack: nothing;
    it pops a composite with no member left to fill; it appends to the
    members of the composite on top (one value, or the nulls of an
    ObjectNull256 record); or it allocates a composite without members and
    pushes it, appending it to the composite on top or not. *)
Inductive step_effect (bytes : list Z) (st st' : state) : Prop :=
| effect_none :
    heap st' = heap st -> objectStack st' = objectStack st ->
    step_effect bytes st st'
| effect_pop a below o types :
    objectStack st = a :: below -> heap st !! a = Some o ->
    memberTypes o = Some types ->
    (length types <= length (memberValues o))%nat ->
    heap st' = heap st -> objectStack st' = below ->
    step_effect bytes st st'
| effect_append a below o types vs :
    objectStack st = a :: below -> heap st !! a = Some o ->
    memberTypes o = Some types ->
    (length (memberValues o) < length types)%nat ->
    heap st' = <[a := set_memberValues o (memberValues o ++ vs)]> (heap st) ->
    objectStack st' = objectStack st ->
    (length vs = 1%nat \/
     expects_record st (Some a) /\ fst (Reader.read8 bytes (bit st)) = 13 /\
     vs = repeat Vnull (Z.to_nat (fst (Reader.read8 bytes (bit st + 8))))) ->
    step_effect bytes st st'
| effect_push cur new :
    expects_record st cur -> memberValues new = [] ->
    (heap st' = push_if_current cur (Vobj (length (heap st))) (heap st ++ [new]) \/
     heap st' = heap st ++ [new]) ->
    objectStack st' = length (heap st) :: objectStack st ->
    step_effect bytes st st'.

(** The stack holds addresses of the heap, and the keys of the object
    table are pairwise distinct. *)
Record wf (st : state) : Prop := {
  wf_stack : Forall (fun a => (a < length (heap st))%nat) (objectStack st);
  wf_objects : List.NoDup (map fst (objects st))
}.

(** No composite on the stack has more members than member types. *)
Definition stack_bounded (st : state) : Prop :=
  forall a o types,
    In a (objectStack st) -> heap st !! a = Some o ->
    memberTypes o = Some types ->
    (length (memberValues o) <= length types)%nat.

(** The next record is an ObjectNull256 whose count exceeds the number of
    members that the composite on top still lacks. *)
Definition null256_overflow (bytes : list Z) (st : state) : Prop :=
  exists a o types,
    expects_record st (Some a) /\
    fst (Reader.read8 bytes (bit st)) = 13 /\
    heap st !! a = Some o /\ memberTypes o = Some types /\
    (length types <
     length (memberValues o) + Z.to_nat (fst (Reader.read8 bytes (bit st + 8))))%nat.

(** ** Placeholders and fix-ups *)

(** The value is a placeholder [{ref: id}]. *)
Definition is_ref (v : value) : bool :=
  match v with
  | Vref _ => true
  | _ => false
  end.

(** The value is neither a composite, nor an array, nor a placeholder. *)
Definition is_primitive (v : value) : bool :=
  match v with
  | Vobj _ | Vref _ | Varray _ => false
  | _ => true
  end.

(** A member value with its placeholder replaced by the entry of the
    object table. *)
Definition resolve (objs : list (Z * value)) (v : value) : value :=
  match v with
  | Vref id => Table.get id objs
  | _ => v
  end.

Definition resolve_object (objs : list (Z * value)) (o : object) : object :=
  set_memberValues o (map (resolve objs) (memberValues o)).

(** The slot [i] of the composite at [a] is the target of a fix-up. *)
Definition touched (rs : list fixup) (a : addr) (i : nat) : bool :=
  existsb (fun r => Nat.eqb (fx_object r) a && Nat.eqb (fx_idx r) i) rs.

(** A composite with the slots targeted by [rs] resolved. *)
Definition resolve_touched (objs : list (Z * value)) (rs : list fixup)
    (a : addr) (o : object) : object :=
  set_memberValues o
    (imap (fun i v => if touched rs a i then resolve objs v else v) (memberValues o)).

(** Placeholders and queued fix-ups correspond: every fix-up targets a
    slot that holds the placeholder of its id, every placeholder is the
    target of a fix-up, and the object table holds no placeholder. *)
Record refs_inv (h : list object) (refs : list fixup) (objs : list (Z * value))
    : Prop := {
  inv_fixup_slot :
    forall r, In r refs ->
      exists o, h !! fx_object r = Some o /\
                memberValues o !! fx_idx r = Some (Vref (fx_reference r));
  inv_slot_fixup :
    forall a o idx id,
      h !! a = Some o -> memberValues o !! idx = Some (Vref id) ->
      exists r, In r refs /\ fx_object r = a /\ fx_idx r = idx;
  inv_table :
    forall k v, In (k, v) objs -> is_ref v = false
}.

(** No placeholder occurs in the value, at any depth of arrays. *)
Fixpoint placeholder_free_value (v : value) : bool :=
  match v with
  | Vref _ => false
  | Varray elems => forallb placeholder_free_value elems
  | _ => true
  end.

(** No placeholder occurs in the projected tree: not as a leaf, not in an
    array, not under a property and not in a prototype. *)
Inductive placeholder_free : pvalue -> Prop :=
| free_simple v :
    placeholder_free_value v = true -> placeholder_free (Psimple v)
| free_array elems :
    Forall placeholder_free elems -> placeholder_free (Parray elems)
| free_object proto props :
    (forall p, proto = Some p -> placeholder_free p) ->
    Forall (fun kv => placeholder_free (snd kv)) props ->
    placeholder_free (Pobject proto props).

(** While parsing, a member value is a placeholder or holds none, and the
    entries of the object table hold none. *)
Record values_inv (h : list object) (objs : list (Z * value)) : Prop := {
  inv_members :
    Forall (fun o => Forall (fun v => is_ref v || placeholder_free_value v = true)
                       (memberValues o)) h;
  inv_entries :
    forall k v, In (k, v) objs -> placeholder_free_value v = true
}.

(** The composites of the heap form no cycle: the level decreases from a
    composite to each composite among its member values. *)
Definition acyclic (h : list object) (lvl : addr -> nat) : Prop :=
  forall a o b,
    h !! a = Some o -> In (Vobj b) (memberValues o) -> (lvl b < lvl a)%nat.

(** A depth of recursion that suffices for the projection of a value. *)
Definition depth_for (lvl : addr -> nat) (v : value) : nat :=
  match v with
  | Vobj a => lvl a + 2
  | _ => 1
  end.

(** ** Example streams *)

(** The header record of the examples: tag 0, then rootId 1, headerId -1,
    majorVersion 1 and minorVersion 0. *)
Definition header_bytes : list Z :=
  [0; 1; 0; 0; 0; 255; 255; 255; 255; 1; 0; 0; 0; 0; 0; 0; 0].

(** A system class with id 1, named "A", whose one member "x" is a
    primitive of the given type code, followed by [payload]. *)
Definition one_primitive_member (code : Z) (payload : list Z) : list Z :=
  header_bytes ++ [4; 1; 0; 0; 0; 1; 65; 1; 0; 0; 0; 1; 120; 0; code] ++ payload.

(** A BinaryArray record with id 1, type 0, rank 0 and item type Object. *)
Definition rank0_stream : list Z :=
  header_bytes ++ [7; 1; 0; 0; 0; 0; 0; 0; 0; 0; 2; 11].

(** A class with id 1, named "A", whose one member "x" is of type String,
    given as a reference to the object id 99, which no record defines. *)
Definition dangling_stream : list Z :=
  header_bytes ++ [4; 1; 0; 0; 0; 1; 65; 1; 0; 0; 0; 1; 120; 1;
                   9; 99; 0; 0; 0; 11].

(** A class with id 1, named "A", with the two int32 members "__proto__"
    (42) and "a" (7). *)
Definition proto_member_stream : list Z :=
  header_bytes ++
  [4; 1; 0; 0; 0; 1; 65; 2; 0; 0; 0;
   9; 95; 95; 112; 114; 111; 116; 111; 95; 95; 1; 97;
   0; 0; 8; 8; 42; 0; 0; 0; 7; 0; 0; 0; 11].

(** A system class with id 1, named "A", whose one member "x" is of type
    String, followed by an ObjectNull256 record with count 2. *)
Definition null256_stream : list Z :=
  header_bytes ++ [4; 1; 0; 0; 0; 1; 65; 1; 0; 0; 0; 1; 120; 1; 13; 2].

(** A system class with id 1, named "Foo", with the members "a" (int32,
    42) and "b" (boolean, true). *)
Definition two_primitives_stream : list Z :=
  header_bytes ++
  [4; 1; 0; 0; 0; 3; 70; 111; 111; 2; 0; 0; 0; 1; 97; 1; 98; 0; 0; 8; 1;
   42; 0; 0; 0; 1; 11].

(** Two system classes without library: "A" with id 2 and no member, then
    "B" with id 1 and the int32 member "x" (42). *)
Definition two_classes_stream : list Z :=
  header_bytes ++
  [4; 2; 0; 0; 0; 1; 65; 0; 0; 0; 0;
   4; 1; 0; 0; 0; 1; 66; 1; 0; 0; 0; 1; 120; 0; 8; 42; 0; 0; 0; 11].

(** A class "A" with id 1 whose one member "x" is of type Object, given by
    a ClassWithId record with objectId 2 and metadataId 1: the instance
    under construction is its own member's class. *)
Definition nested_same_class_stream : list Z :=
  header_bytes ++ [4; 1; 0; 0; 0; 1; 65; 1; 0; 0; 0; 1; 120; 2;
                   1; 2; 0; 0; 0; 1; 0; 0; 0].

(** A class "A" with id 1 and no member, then a ClassWithId record with
    objectId 1 and metadataId 1. *)
Definition same_id_stream : list Z :=
  header_bytes ++ [4; 1; 0; 0; 0; 1; 65; 0; 0; 0; 0;
                   1; 1; 0; 0; 0; 1; 0; 0; 0].

(** The class record of [one_primitive_member] cut short before the
    primitive type code of its member. *)
Definition truncated_class_stream : list Z :=
  header_bytes ++ [4; 1; 0; 0; 0; 1; 65; 1; 0; 0; 0; 1; 120; 0].

(** The header record cut short in its last field. *)
Definition truncated_header_stream : list Z :=
  [0; 1; 0; 0; 0; 255; 255; 255; 255; 1; 0; 0; 0; 0; 0].

(** A BinaryObjectString record (id 2, "hello") right after the header. *)
Definition string_root_stream : list Z :=
  header_bytes ++ [6; 2; 0; 0; 0; 5; 104; 101; 108; 108; 111; 11].

(** A ClassWithMembers record (tag 0x02) right after the header. *)
Definition class_without_types_stream : list Z :=
  header_bytes ++ [2; 1; 0; 0; 0; 1; 65; 0; 0; 0; 0; 11].

(** A class "A" with id 1 and no member, then a class "B" with id 2 whose
    members "x" and "y" are of type Object, given as references to the ids 1
    and 7; no record defines the id 7. *)
Definition reference_stream : list Z :=
  header_bytes ++
  [4; 1; 0; 0; 0; 1; 65; 0; 0; 0; 0;
   4; 2; 0; 0; 0; 1; 66; 2; 0; 0; 0; 1; 120; 1; 121; 2; 2;
   9; 1; 0; 0; 0; 9; 7; 0; 0; 0; 11].

(** A BinaryArray record with id 1, type 2 (rectangular), rank 2, the
    lengths 2 and 3, and int32 items. *)
Definition rectangular_array_stream : list Z :=
  header_bytes ++
  [7; 1; 0; 0; 0; 2; 2; 0; 0; 0; 2; 0; 0; 0; 3; 0; 0; 0; 0; 8].

(** A composite of rank 1 with the three member values 10, 20 and 30, as
    a BinaryArray record of int32 items leaves it, and the heap that holds
    only it. *)
Definition array_object : object :=
  {| objectId := 1; name := None; memberNames := None;
     memberTypes := Some [0; 0; 0]; additionalInfos := Some (repeat (AInum 8) 3);
     libraryId := None; memberValues := [Vnum 10; Vnum 20; Vnum 30];
     rank := Some 1; lengths := Some [3]; lowerBounds := Some [];
     itemType := Some 0 |}.

Definition array_heap : list object := [array_object].

(** A class with id 1, named "A", whose one member "x" is of type Object
    and is given as a reference to the id 1, the class itself. *)
Definition self_reference_stream : list Z :=
  header_bytes ++ [4; 1; 0; 0; 0; 1; 65; 1; 0; 0; 0; 1; 120; 2;
                   9; 1; 0; 0; 0; 11].

(** An ArraySinglePrimitive record with id 5 and the two int32 elements 1
    and 2, then MessageEnd. *)
Definition primitive_array_stream : list Z :=
  header_bytes ++ [15; 5; 0; 0; 0; 2; 0; 0; 0; 8; 1; 0; 0; 0; 2; 0; 0; 0; 11].

(** A class "A" with id 1 whose one member "x" is of type Object, given by
    the record of a class "B" with id 2 and no member, then MessageEnd. *)
Definition nested_class_stream : list Z :=
  header_bytes ++ [4; 1; 0; 0; 0; 1; 65; 1; 0; 0; 0; 1; 120; 2;
                   4; 2; 0; 0; 0; 1; 66; 0; 0; 0; 0; 11].

(** A class "R" with id 1 whose members "x", "y" and "z" are of type
    Object: "x" is a reference to the id 2, which a later record defines,
    "y" is a reference to the id 5, which no record defines, and "z" is the
    record of a class "B" with id 2 and no member; then MessageEnd. *)
Definition forward_reference_stream : list Z :=
  header_bytes ++
  [4; 1; 0; 0; 0; 1; 82; 3; 0; 0; 0; 1; 120; 1; 121; 1; 122; 2; 2; 2;
   9; 2; 0; 0; 0;
   9; 5; 0; 0; 0;
   4; 2; 0; 0; 0; 1; 66; 0; 0; 0; 0;
   11].

(** The heap of a list wrapper: a class with the members "_items" (an
    array of three numbers) and "_size" (3). *)
Definition list_wrapper : object :=
  {| objectId := 1; name := Some (lit "List"); memberNames := Some [lit "_items"; lit "_size"];
     memberTypes := Some [7; 0]; additionalInfos := Some [AInum 8; AInum 8];
     libraryId := None;
     memberValues := [Varray [Vnum 1; Vnum 2; Vnum 3]; Vnum 3];
     rank := None; lengths := None; lowerBounds := None; itemType := None |}.

(** * Properties *)

(** ** 32-bit conversions *)

Lemma ToInt32_small z : - 2 ^ 31 <= z < 2 ^ 31 -> JS.ToInt32 z = z.
Proof.
  intros Hz. unfold JS.ToInt32.
  rewrite Z.mod_small by lia. lia.
Qed.

Lemma ToInt32_range z : - 2 ^ 31 <= JS.ToInt32 z < 2 ^ 31.
Proof.
  unfold JS.ToInt32.
  pose proof (Z.mod_pos_bound (z + 2 ^ 31) (2 ^ 32) ltac:(lia)). lia.
Qed.

Lemma ToInt32_wrap z :
  2 ^ 31 <= z < 2 ^ 32 -> JS.ToInt32 z = z - 2 ^ 32.
Proof.
  intros Hz. unfold JS.ToInt32.
  replace (z + 2 ^ 31) with ((z - 2 ^ 31) + 1 * 2 ^ 32) by lia.
  rewrite Z.mod_add by lia. rewrite Z.mod_small by lia. lia.
Qed.

(** [b << k] for a small operand and a constant count below 32. *)
Lemma shl_small b k :
  0 <= k < 32 -> 0 <= b -> b * 2 ^ k < 2 ^ 31 -> JS.shl b k = b * 2 ^ k.
Proof.
  intros Hk Hb Hlt. unfold JS.shl, JS.ToUint32.
  assert (b < 2 ^ 31).
  { assert (1 <= 2 ^ k) by (apply (Z.pow_le_mono_r 2 0 k); lia). nia. }
  rewrite (ToInt32_small b) by lia.
  rewrite (Z.mod_small k) by lia. rewrite (Z.mod_small k) by lia.
  rewrite Z.shiftl_mul_pow2 by lia.
  apply ToInt32_small. lia.
Qed.

Lemma shl_wrap b k :
  0 <= k < 32 -> 0 <= b < 2 ^ 31 -> JS.shl b k = JS.ToInt32 (b * 2 ^ k).
Proof.
  intros Hk Hb. unfold JS.shl, JS.ToUint32.
  rewrite (ToInt32_small b) by lia.
  rewrite (Z.mod_small k) by lia. rewrite (Z.mod_small k) by lia.
  now rewrite Z.shiftl_mul_pow2 by lia.
Qed.

(** ** Slices *)

Lemma slice_past_end {A} (l : list A) s e :
  Z.of_nat (length l) <= s -> JS.slice l s e = [].
Proof.
  intros Hs. unfold JS.slice.
  destruct (Z.ltb_spec s 0); [lia|].
  rewrite (Z.min_r s) by lia.
  replace (Z.to_nat (_ - _)) with O; [reflexivity|].
  destruct (Z.ltb_spec e 0); lia.
Qed.

Lemma slice_app_middle {A} (pre mid post : list A) :
  JS.slice (pre ++ mid ++ post) (Z.of_nat (length pre))
    (Z.of_nat (length pre) + Z.of_nat (length mid)) = mid.
Proof.
  unfold JS.slice. rewrite !length_app.
  destruct (Z.ltb_spec (Z.of_nat (length pre)) 0); [lia|].
  destruct (Z.ltb_spec (Z.of_nat (length pre) + Z.of_nat (length mid)) 0); [lia|].
  rewrite !Z.min_l by lia.
  rewrite Nat2Z.id.
  replace (Z.to_nat _) with (length mid) by lia.
  rewrite drop_app_length. apply take_app_length.
Qed.

(** The one-element slice at a non-negative index: the element there, or
    nothing past the end. *)
Lemma slice_one (l : list Z) (q : nat) :
  JS.slice l (Z.of_nat q) (Z.of_nat q + 1) =
  match nth_error l q with
  | Some b => [b]
  | None => []
  end.
Proof.
  destruct (nth_error l q) as [b|] eqn:Hq.
  - apply nth_error_split in Hq as (pre & post & -> & <-).
    apply (slice_app_middle pre [b] post).
  - apply nth_error_None in Hq. apply slice_past_end. lia.
Qed.

(** ** Reads *)

(** Past the end of the input every read yields 0 and advances the
    cursor. *)
Lemma read_past_end bytes bits bit :
  8 * Z.of_nat (length bytes) <= bit ->
  Reader.read bytes bits bit = (0, bit + bits).
Proof.
  intros Hb. unfold Reader.read.
  rewrite slice_past_end.
  - unfold JS.band, JS.sar. change (JS.ToInt32 (Reader.reduce [])) with 0.
    rewrite Z.shiftr_0_l. change (JS.ToInt32 0) with 0.
    now rewrite Z.land_0_l.
  - apply Z.div_le_lower_bound; lia.
Qed.

(** Discharges [Forall is_byte] over a literal list. *)
Ltac all_bytes :=
  repeat (apply List.Forall_cons; [unfold is_byte; lia|]); apply List.Forall_nil.

Lemma byte_at_is_byte bytes q : Forall is_byte bytes -> is_byte (byte_at bytes q).
Proof.
  intros HF. unfold byte_at.
  destruct (nth_in_or_default q bytes 0) as [Hin| ->].
  - rewrite List.Forall_forall in HF. now apply HF.
  - unfold is_byte. lia.
Qed.

Lemma reduce_slice_one bytes q :
  Forall is_byte bytes ->
  Reader.reduce (JS.slice bytes (Z.of_nat q) (Z.of_nat q + 1)) = byte_at bytes q.
Proof.
  intros HF. rewrite slice_one. unfold byte_at.
  pose proof (byte_at_is_byte bytes q HF) as Hb. unfold byte_at, is_byte in Hb.
  destruct (nth_error bytes q) as [b|] eqn:Hq.
  - rewrite (nth_error_nth _ _ _ Hq) in *.
    unfold Reader.reduce. simpl.
    rewrite shl_small; simpl; lia.
  - rewrite (nth_overflow bytes 0); [reflexivity|].
    now apply nth_error_None.
Qed.

(** Facts about one byte, checked on all 256 of them. *)
Lemma for_all_bytes (P : Z -> bool) :
  forallb P (map Z.of_nat (seq 0 256)) = true ->
  forall b, is_byte b -> P b = true.
Proof.
  intros Hall b Hb. rewrite forallb_forall in Hall. apply Hall.
  apply in_map_iff. exists (Z.to_nat b). split; [unfold is_byte in Hb; lia|].
  apply in_seq. unfold is_byte in Hb. lia.
Qed.

Lemma low7_of_byte b :
  is_byte b -> JS.band (JS.sar b 0) (JS.pow2_minus1 7) = b mod 128.
Proof.
  intros Hb.
  apply (for_all_bytes
           (fun b => JS.band (JS.sar b 0) (JS.pow2_minus1 7) =? b mod 128)) in Hb.
  - now apply Z.eqb_eq.
  - vm_compute. reflexivity.
Qed.

Lemma high1_of_byte b :
  is_byte b -> JS.band (JS.sar b 7) (JS.pow2_minus1 1) = b / 128.
Proof.
  intros Hb.
  apply (for_all_bytes
           (fun b => JS.band (JS.sar b 7) (JS.pow2_minus1 1) =? b / 128)) in Hb.
  - now apply Z.eqb_eq.
  - vm_compute. reflexivity.
Qed.

Lemma all8_of_byte b :
  is_byte b -> JS.band (JS.sar b 0) (JS.pow2_minus1 8) = b.
Proof.
  intros Hb.
  apply (for_all_bytes
           (fun b => JS.band (JS.sar b 0) (JS.pow2_minus1 8) =? b)) in Hb.
  - now apply Z.eqb_eq.
  - vm_compute. reflexivity.
Qed.

(** [read(7)] at the start of byte [q] yields its low seven bits. *)
Lemma read7_aligned bytes q :
  Forall is_byte bytes ->
  Reader.read bytes 7 (8 * Z.of_nat q) = (byte_at bytes q mod 128, 8 * Z.of_nat q + 7).
Proof.
  intros HF. unfold Reader.read.
  replace (8 * Z.of_nat q / 8) with (Z.of_nat q)
    by (rewrite Z.mul_comm, Z.div_mul; lia).
  replace ((8 * Z.of_nat q + 7 + 7) / 8) with (Z.of_nat q + 1)
    by (apply Z.div_unique with (r := 6); lia).
  rewrite reduce_slice_one by assumption.
  replace (Z.rem (8 * Z.of_nat q) 8) with 0
    by (rewrite Z.mul_comm, Z.rem_mul; lia).
  now rewrite low7_of_byte by (now apply byte_at_is_byte).
Qed.

(** [read(1)] at bit 7 of byte [q] yields its high bit. *)
Lemma read1_high bytes q :
  Forall is_byte bytes ->
  Reader.read bytes 1 (8 * Z.of_nat q + 7) = (byte_at bytes q / 128, 8 * Z.of_nat (S q)).
Proof.
  intros HF. unfold Reader.read.
  replace ((8 * Z.of_nat q + 7) / 8) with (Z.of_nat q)
    by (apply Z.div_unique with (r := 7); lia).
  replace ((8 * Z.of_nat q + 7 + 1 + 7) / 8) with (Z.of_nat q + 1)
    by (apply Z.div_unique with (r := 7); lia).
  rewrite reduce_slice_one by assumption.
  replace (Z.rem (8 * Z.of_nat q + 7) 8) with 7.
  - rewrite high1_of_byte by (now apply byte_at_is_byte). f_equal. lia.
  - apply Z.rem_unique with (q := Z.of_nat q); lia.
Qed.

(** [read8] at the start of byte [q] yields the byte. *)
Lemma read8_aligned bytes q :
  Forall is_byte bytes ->
  Reader.read8 bytes (8 * Z.of_nat q) = (byte_at bytes q, 8 * Z.of_nat q + 8).
Proof.
  intros HF. unfold Reader.read8, Reader.read.
  replace (8 * Z.of_nat q / 8) with (Z.of_nat q)
    by (rewrite Z.mul_comm, Z.div_mul; lia).
  replace ((8 * Z.of_nat q + 8 + 7) / 8) with (Z.of_nat q + 1)
    by (apply Z.div_unique with (r := 7); lia).
  rewrite reduce_slice_one by assumption.
  replace (Z.rem (8 * Z.of_nat q) 8) with 0
    by (rewrite Z.mul_comm, Z.rem_mul; lia).
  now rewrite all8_of_byte by (now apply byte_at_is_byte).
Qed.

(** ** [read32] *)

Lemma reduce_four b0 b1 b2 b3 :
  is_byte b0 -> is_byte b1 -> is_byte b2 -> is_byte b3 ->
  Reader.reduce [b0; b1; b2; b3] =
  b0 + 2 ^ 8 * b1 + 2 ^ 16 * b2 + JS.ToInt32 (b3 * 2 ^ 24).
Proof.
  unfold is_byte. intros H0 H1 H2 H3.
  unfold Reader.reduce. cbn [Reader.reduce_from].
  change (0 * 8) with 0. change ((0 + 1) * 8) with 8.
  change ((0 + 1 + 1) * 8) with 16. change ((0 + 1 + 1 + 1) * 8) with 24.
  rewrite (shl_small b0 0), (shl_small b1 8), (shl_small b2 16), (shl_wrap b3 24) by lia.
  lia.
Qed.

Lemma read32_aligned pre b0 b1 b2 b3 post :
  is_byte b0 -> is_byte b1 -> is_byte b2 -> is_byte b3 ->
  Reader.read32 (pre ++ [b0; b1; b2; b3] ++ post) (8 * Z.of_nat (length pre)) =
  (JS.ToInt32 (le_unsigned32 b0 b1 b2 b3), 8 * Z.of_nat (length pre) + 32).
Proof.
  intros H0 H1 H2 H3. unfold Reader.read32, Reader.read.
  replace (8 * Z.of_nat (length pre) / 8) with (Z.of_nat (length pre))
    by (rewrite Z.mul_comm, Z.div_mul; lia).
  replace ((8 * Z.of_nat (length pre) + 32 + 7) / 8)
    with (Z.of_nat (length pre) + Z.of_nat (length [b0; b1; b2; b3]))
    by (apply Z.div_unique with (r := 7); simpl length; lia).
  rewrite slice_app_middle, reduce_four by assumption.
  replace (Z.rem (8 * Z.of_nat (length pre)) 8) with 0
    by (rewrite Z.mul_comm, Z.rem_mul; lia).
  unfold JS.band. change (JS.ToInt32 (JS.pow2_minus1 32)) with (-1).
  rewrite Z.land_m1_r.
  unfold JS.sar. change (JS.ToUint32 0 mod 32) with 0. rewrite Z.shiftr_0_r.
  rewrite (ToInt32_small (JS.ToInt32 _)) by apply ToInt32_range.
  f_equal. unfold le_unsigned32, is_byte in *.
  destruct (Z.lt_ge_cases b3 128).
  - rewrite (ToInt32_small (b3 * 2 ^ 24)) by lia.
    rewrite !ToInt32_small by lia. lia.
  - rewrite (ToInt32_wrap (b3 * 2 ^ 24)) by lia.
    rewrite ToInt32_small by lia.
    rewrite ToInt32_wrap by lia. lia.
Qed.

(** C7, as stated, fails: the four bytes 00 00 00 80 at offset 0 denote the
    unsigned value 2147483648, and [read32] returns -2147483648. *)
Lemma read32_unsigned_counterexample :
  fst (Reader.read32 [0; 0; 0; 128] 0) = -2147483648 /\
  le_unsigned32 0 0 0 128 = 2147483648.
Proof. split; reflexivity. Qed.

(** C7 (amended): at a byte-aligned position with four bytes left, [read32]
    returns the little-endian value of the next four bytes as a signed
    (two's complement) 32-bit integer, a value in [-2^31, 2^31); it is the
    unsigned value exactly when the fourth byte is below 0x80; the bytes
    00 00 00 01 at offset 0 yield 16777216. *)
Theorem read32_signed_little_endian pre b0 b1 b2 b3 post :
  is_byte b0 -> is_byte b1 -> is_byte b2 -> is_byte b3 ->
  let bytes := pre ++ [b0; b1; b2; b3] ++ post in
  let r := fst (Reader.read32 bytes (8 * Z.of_nat (length pre))) in
  r = JS.ToInt32 (le_unsigned32 b0 b1 b2 b3) /\
  - 2 ^ 31 <= r < 2 ^ 31 /\
  (b3 < 128 -> r = le_unsigned32 b0 b1 b2 b3) /\
  (128 <= b3 -> r = le_unsigned32 b0 b1 b2 b3 - 2 ^ 32) /\
  snd (Reader.read32 bytes (8 * Z.of_nat (length pre))) = 8 * Z.of_nat (length pre) + 32 /\
  fst (Reader.read32 [0; 0; 0; 1] 0) = 16777216.
Proof.
  intros H0 H1 H2 H3 bytes r. subst bytes r.
  rewrite read32_aligned by assumption. cbn [fst snd].
  unfold le_unsigned32, is_byte in *.
  repeat split.
  - apply ToInt32_range.
  - apply ToInt32_range.
  - intros. apply ToInt32_small. lia.
  - intros. apply ToInt32_wrap. lia.
Qed.

Lemma read32_signed_little_endian_witness :
  (is_byte 254 /\ is_byte 255) /\
  fst (Reader.read32 ([0] ++ [254; 255; 255; 255] ++ [11]) 8) = -2 /\
  fst (Reader.read32 [0; 0; 0; 1] 0) = 16777216.
Proof.
  split; [unfold is_byte; lia|].
  destruct (read32_signed_little_endian [0] 254 255 255 255 [11])
    as (_ & _ & _ & H & _ & H'); [unfold is_byte; lia ..|].
  split; [exact (H ltac:(lia)) | exact H'].
Defined.

(** ** The length prefix of [readLengthPrefixedString] *)

Lemma shl_zero k : JS.shl 0 k = 0.
Proof.
  unfold JS.shl. change (JS.ToInt32 0) with 0. now rewrite Z.shiftl_0_l.
Qed.

Lemma drop_byte_at bytes q :
  drop q bytes = [] /\ byte_at bytes q = 0 \/
  drop q bytes = byte_at bytes q :: drop (S q) bytes.
Proof.
  unfold byte_at. destruct (bytes !! q) as [b|] eqn:Hq.
  - right. rewrite (drop_S _ _ _ Hq). f_equal.
    symmetry. apply nth_lookup_Some with (d := 0) in Hq. exact Hq.
  - left. split.
    + apply drop_ge. now apply lookup_ge_None.
    + apply nth_overflow. now apply lookup_ge_None.
Qed.









(** ** Decoder runs *)

Lemma read8_snd bytes b : snd (Reader.read8 bytes b) = b + 8.
Proof. reflexivity. Qed.

Lemma read32_snd bytes b : snd (Reader.read32 bytes b) = b + 32.
Proof. reflexivity. Qed.

Lemma bind_rd {A B} (f : Z -> A * Z) (k : A -> M B) bit :
  bind (rd f) k bit = k (fst (f bit)) (snd (f bit)).
Proof. unfold bind, rd. now destruct (f bit). Qed.

Lemma bind_ret {A B} (a : A) (k : A -> M B) bit : bind (ret a) k bit = k a bit.
Proof. reflexivity. Qed.

Lemma no_throw_ret {A} (a : A) : no_throw (ret a).
Proof. intros bit. now exists a, bit. Qed.

Lemma no_throw_rd {A} (f : Z -> A * Z) : no_throw (rd f).
Proof. intros bit. exists (fst (f bit)), (snd (f bit)). unfold rd. now destruct (f bit). Qed.

Lemma no_throw_bind {A B} (m : M A) (k : A -> M B) :
  no_throw m -> (forall a, no_throw (k a)) -> no_throw (bind m k).
Proof.
  intros Hm Hk bit. destruct (Hm bit) as (a & bit' & E).
  destruct (Hk a bit') as (b & bit'' & E').
  exists b, bit''. unfold bind. now rewrite E.
Qed.

Lemma no_throw_times {A} (m : M A) n : no_throw m -> no_throw (times n m).
Proof.
  intros Hm. induction n as [|n IH]; cbn [times].
  - apply no_throw_ret.
  - apply no_throw_bind; [exact Hm|]. intros x.
    apply no_throw_bind; [exact IH|]. intros xs. apply no_throw_ret.
Qed.

Lemma no_throw_each {A B} (f : A -> M B) l :
  (forall a, no_throw (f a)) -> no_throw (each f l).
Proof.
  intros Hf. induction l as [|a l IH]; cbn [each].
  - apply no_throw_ret.
  - apply no_throw_bind; [apply Hf|]. intros x.
    apply no_throw_bind; [exact IH|]. intros xs. apply no_throw_ret.
Qed.

Ltac no_throw_step :=
  first [ apply no_throw_ret | apply no_throw_rd
        | apply no_throw_times | apply no_throw_each; intros ?
        | apply no_throw_bind; [|intros ?] ].

(** Case analysis on a number matched against small literals: [tac] must
    close every case. *)
Ltac case_positive p tac :=
  first [ solve [tac]
        | destruct p as [p|p|];
          [ case_positive p tac | case_positive p tac | solve [tac] ] ].
Ltac case_number n tac :=
  destruct n as [|n|n]; [ solve [tac] | case_positive n tac | solve [tac] ].

Lemma deserializeAdditionalTypeInfo_no_throw bytes type :
  no_throw (deserializeAdditionalTypeInfo bytes type).
Proof.
  case_number type
    ltac:(unfold deserializeAdditionalTypeInfo, read8, read32,
            readLengthPrefixedString; repeat no_throw_step).
Qed.

(** However short the input, the decoder of a class record does not throw. *)
Lemma deserializeClassWithMembersAndTypes_no_throw bytes isSystem :
  no_throw (deserializeClassWithMembersAndTypes bytes isSystem).
Proof.
  unfold deserializeClassWithMembersAndTypes, read8, read32,
    readLengthPrefixedString.
  repeat first [ apply deserializeAdditionalTypeInfo_no_throw
               | destruct isSystem
               | no_throw_step ].
Qed.

(** ** Sbyte decoding *)

(** C2 (the code departs from the specification): decoding a primitive
    of type code 10 throws a TypeError before any bit is read, whatever the
    input; a stream whose sbyte member is the byte 0x80 is rejected instead
    of yielding -128. *)
Theorem sbyte_decode_throws :
  (forall bytes bit,
      deserializePrimitiveType bytes (AInum 10) bit =
      Err (TypeError "reader.read7 is not a function")) /\
  deserialize 50 10 (one_primitive_member 10 [128; 11]) =
  Some (Err (TypeError "reader.read7 is not a function")).
Proof. split; [intros; reflexivity | vm_compute; reflexivity]. Qed.

(** ** Runs of the loop *)

Lemma steps_head bytes n st :
  steps bytes (S n) st =
  match step bytes st with
  | Continue st' => steps bytes n st'
  | _ => None
  end.
Proof.
  induction n as [|n IH].
  - cbn. now destruct (step bytes st).
  - change (steps bytes (S (S n)) st) with
      (match steps bytes (S n) st with
       | Some st' => match step bytes st' with
                     | Continue st'' => Some st''
                     | _ => None
                     end
       | None => None
       end).
    rewrite IH. destruct (step bytes st); reflexivity.
Qed.

Lemma loop_steps bytes n m st st' :
  steps bytes n st = Some st' -> loop bytes (n + m) st = loop bytes m st'.
Proof.
  revert st. induction n as [|n IH]; intros st.
  - now intros [= <-].
  - rewrite steps_head. cbn [Nat.add loop].
    destruct (step bytes st); try discriminate. apply IH.
Qed.

Lemma loop_steps_short bytes n st st' :
  steps bytes n st = Some st' ->
  forall fuel, (fuel <= n)%nat -> loop bytes fuel st = None.
Proof.
  revert st. induction n as [|n IH]; intros st Hsteps fuel Hle.
  - now replace fuel with O by lia.
  - destruct fuel as [|fuel]; [reflexivity|].
    rewrite steps_head in Hsteps. cbn [loop].
    destruct (step bytes st); try discriminate.
    apply IH; [exact Hsteps | lia].
Qed.

(** When the state reached after [n] iterations makes the next one throw,
    so does [deserialize]. *)
Lemma deserialize_throws str bytes n st e depth :
  bitReader str = Ok bytes ->
  steps bytes n initial_state = Some st ->
  step bytes st = Throw e ->
  deserialize (S n) depth str = Some (Err e).
Proof.
  intros Hrd Hsteps Hstep. unfold deserialize. rewrite Hrd.
  replace (S n) with (n + 1)%nat by lia.
  rewrite (loop_steps _ _ _ _ _ Hsteps). cbn [loop]. now rewrite Hstep.
Qed.

(** ** BinaryArray of rank 0 *)

Lemma step_expects_record bytes st cur :
  expects_record st cur -> step bytes st = read_record bytes cur st.
Proof.
  intros [Hs | a below o types Hs Ha Ht Hlt Hne]; unfold step; rewrite Hs.
  - reflexivity.
  - rewrite Ha, Ht.
    destruct (Nat.ltb_spec (length (memberValues o)) (length types)); [|lia].
    destruct (Z.eqb_spec (nth (length (memberValues o)) types 0) 0); [contradiction|].
    reflexivity.
Qed.

Lemma read_record_dispatch bytes cur st :
  read_record bytes cur st =
  dispatch bytes (fst (Reader.read8 bytes (bit st))) cur (set_bit st (bit st + 8)).
Proof. reflexivity. Qed.

Lemma decodeBinaryArray_rank0 bytes bit :
  fst (Reader.read32 bytes (bit + 40)) = 0 ->
  exists id ty lb it ai bit',
    decodeBinaryArray bytes bit = Ok ((id, ty, 0, [], lb, it, ai), bit').
Proof.
  intros Hrank. unfold decodeBinaryArray, read32, read8.
  rewrite !bind_rd, !read32_snd, !read8_snd.
  replace (bit + 32 + 8) with (bit + 40) by lia.
  rewrite Hrank. change (Z.to_nat 0) with O. cbn [times].
  rewrite bind_ret.
  destruct (2 <? _); rewrite bind_ret, bind_rd, read8_snd;
    match goal with
    | |- context [deserializeAdditionalTypeInfo bytes ?t] =>
        destruct (deserializeAdditionalTypeInfo_no_throw bytes t (bit + 40 + 32 + 8))
          as (ai & bit' & E)
    end;
    unfold bind at 1; rewrite E; repeat eexists.
Qed.

Lemma binary_array_rank0_step bytes st cur :
  expects_record st cur ->
  fst (Reader.read8 bytes (bit st)) = 7 ->
  fst (Reader.read32 bytes (bit st + 48)) = 0 ->
  step bytes st = Throw (TypeError "Reduce of empty array with no initial value").
Proof.
  intros Hexp Htag Hrank.
  rewrite (step_expects_record _ _ _ Hexp), read_record_dispatch, Htag.
  cbn [dispatch]. unfold with_reader. cbn [bit set_bit].
  destruct (decodeBinaryArray_rank0 bytes (bit st + 8)) as (id & ty & lb & it & ai & bit' & E).
  - now replace (bit st + 8 + 40) with (bit st + 48) by lia.
  - rewrite E. reflexivity.
Qed.

(** C10: when the loop, in a state reached from the start of parsing,
    reads the tag of a BinaryArray record (0x07) whose rank field, 40 bits
    after the tag, is 0, the iteration throws the TypeError of [reduce] on
    an empty array and so does [deserialize]; no array object is
    registered. *)
Theorem binary_array_rank0_throws str bytes n st cur depth :
  bitReader str = Ok bytes ->
  steps bytes n initial_state = Some st ->
  expects_record st cur ->
  fst (Reader.read8 bytes (bit st)) = 7 ->
  fst (Reader.read32 bytes (bit st + 48)) = 0 ->
  step bytes st = Throw (TypeError "Reduce of empty array with no initial value") /\
  deserialize (S n) depth str =
    Some (Err (TypeError "Reduce of empty array with no initial value")).
Proof.
  intros Hrd Hsteps Hexp Htag Hrank.
  pose proof (binary_array_rank0_step bytes st cur Hexp Htag Hrank) as Hstep.
  split; [exact Hstep|]. eapply deserialize_throws; eauto.
Qed.

Lemma binary_array_rank0_throws_witness :
  exists st,
    steps rank0_stream 1 initial_state = Some st /\
    expects_record st None /\
    fst (Reader.read8 rank0_stream (bit st)) = 7 /\
    fst (Reader.read32 rank0_stream (bit st + 48)) = 0 /\
    deserialize 2 10 rank0_stream =
      Some (Err (TypeError "Reduce of empty array with no initial value")).
Proof.
  eexists. split; [vm_compute; reflexivity|].
  match goal with
  | |- expects_record ?s None /\ _ =>
      assert (steps rank0_stream 1 initial_state = Some s) as Hsteps
        by (vm_compute; reflexivity);
      assert (expects_record s None) as Hexp by (now constructor);
      assert (fst (Reader.read8 rank0_stream (bit s)) = 7) as Htag
        by (vm_compute; reflexivity);
      assert (fst (Reader.read32 rank0_stream (bit s + 48)) = 0) as Hrank
        by (vm_compute; reflexivity);
      destruct (binary_array_rank0_throws rank0_stream rank0_stream 1 s None 10
                  eq_refl Hsteps Hexp Htag Hrank) as [_ Hd]
  end.
  repeat (split; [assumption|]). exact Hd.
Defined.

(** ** Dangling references *)

Lemma Table_get_absent k t :
  (forall v, ~ In (k, v) t) -> Table.get k t = Vundefined.
Proof.
  induction t as [|[k' v'] t IH]; intros Habs; cbn [Table.get].
  - reflexivity.
  - destruct (Z.eqb_spec k k') as [->|Hne].
    + exfalso. apply (Habs v'). now left.
    + apply IH. intros v Hin. apply (Habs v). now right.
Qed.

(** C6, as stated, fails: [dangling_stream] holds a reference to an id that
    is absent from the object table at MessageEnd, and [deserialize] returns
    a value, the object whose member "x" is [undefined]. *)
Lemma dangling_reference_counterexample :
  deserialize 50 10 dangling_stream =
  Some (Ok (Pobject None [(lit "x", Psimple Vundefined)])).
Proof. vm_compute. reflexivity. Qed.

(** ** The object table *)

Lemma Table_get_set_eq k v t : Table.get k (Table.set k v t) = v.
Proof.
  induction t as [|[k' v'] t IH]; cbn.
  - now rewrite Z.eqb_refl.
  - destruct (Z.eqb_spec k k') as [->|Hne]; cbn.
    + now rewrite Z.eqb_refl.
    + destruct (Z.eqb_spec k k'); [contradiction | exact IH].
Qed.

Lemma Table_get_set_ne k k' v t :
  k <> k' -> Table.get k (Table.set k' v t) = Table.get k t.
Proof.
  intros Hne. induction t as [|[k'' v''] t IH]; cbn.
  - destruct (Z.eqb_spec k k'); [contradiction | reflexivity].
  - destruct (Z.eqb_spec k' k'') as [->|Hne']; cbn.
    + destruct (Z.eqb_spec k k''); [contradiction | reflexivity].
    + destruct (Z.eqb_spec k k''); [reflexivity | exact IH].
Qed.

Lemma Table_set_keys k v t :
  map fst (Table.set k v t) = map fst t /\ In k (map fst t) \/
  map fst (Table.set k v t) = map fst t ++ [k] /\ ~ In k (map fst t).
Proof.
  induction t as [|[k' v'] t IH]; cbn.
  - right. split; [reflexivity | tauto].
  - destruct (Z.eqb_spec k k') as [->|Hne]; cbn.
    + left. split; [reflexivity | now left].
    + destruct IH as [[E Hin] | [E Hnin]]; rewrite E.
      * left. split; [reflexivity | now right].
      * right. split; [reflexivity|]. intros [H | H]; [congruence | contradiction].
Qed.

(** Keys stay pairwise distinct. *)
Lemma Table_set_NoDup k v t :
  List.NoDup (map fst t) -> List.NoDup (map fst (Table.set k v t)).
Proof.
  intros Hnd. destruct (Table_set_keys k v t) as [[-> _] | [-> Hnin]]; [exact Hnd|].
  apply List.NoDup_app; [assumption | |].
  - repeat constructor. intros [].
  - intros x Hx [<- | []]. contradiction.
Qed.

Lemma insert_sorted_In e e' l :
  In e (Table.insert_sorted e' l) <-> e = e' \/ In e l.
Proof.
  induction l as [|e'' l IH]; cbn.
  - intuition congruence.
  - destruct (fst e' <=? fst e''); cbn; [intuition congruence|].
    rewrite IH. intuition congruence.
Qed.

Lemma sort_by_key_In e l : In e (Table.sort_by_key l) <-> In e l.
Proof.
  induction l as [|e' l IH]; cbn; [reflexivity|].
  rewrite insert_sorted_In, IH. intuition congruence.
Qed.

(** The sorted list starts with the entry of least key. *)
Lemma sort_by_key_head e l :
  In e l -> (forall e', In e' l -> fst e <= fst e') ->
  List.NoDup (map fst l) ->
  exists rest, Table.sort_by_key l = e :: rest.
Proof.
  induction l as [|e1 l IH]; intros Hin Hmin Hnd; [destruct Hin|].
  cbn [Table.sort_by_key fold_right]. fold (Table.sort_by_key l).
  cbn in Hnd. apply List.NoDup_cons_iff in Hnd as [Hfresh Hnd].
  destruct Hin as [-> | Hin].
  - destruct (Table.sort_by_key l) as [|e2 s] eqn:Hs; cbn.
    + now exists [].
    + assert (In e2 l) as Hin2 by (apply sort_by_key_In; rewrite Hs; now left).
      destruct (Z.leb_spec (fst e) (fst e2)) as [_ | Hlt].
      * eauto.
      * specialize (Hmin e2 (or_intror Hin2)). lia.
  - destruct (IH Hin) as (s & Hs); [intros; apply Hmin; now right | exact Hnd |].
    rewrite Hs. cbn.
    assert (fst e <> fst e1).
    { intros E. apply Hfresh. rewrite <- E. now apply in_map. }
    specialize (Hmin e1 (or_introl eq_refl)).
    destruct (Z.leb_spec (fst e1) (fst e)); [lia | eauto].
Qed.

Lemma NoDup_map_filter {A B} (f : A -> B) (P : A -> bool) l :
  List.NoDup (map f l) -> List.NoDup (map f (List.filter P l)).
Proof.
  induction l as [|a l IH]; cbn; intros Hnd; [constructor|].
  apply List.NoDup_cons_iff in Hnd as [Hfresh Hnd].
  destruct (P a); cbn; [|now apply IH].
  constructor; [|now apply IH].
  intros Hin. apply Hfresh. apply in_map_iff in Hin as (x & <- & Hx).
  apply List.filter_In in Hx as [Hx _]. now apply in_map.
Qed.

(** [Object.values(objects)[0]]: the value under the smallest non-negative
    id when there is one. *)
Lemma Table_values_smallest t k v :
  List.NoDup (map fst t) -> In (k, v) t -> 0 <= k ->
  (forall k' v', In (k', v') t -> 0 <= k' -> k <= k') ->
  hd Vundefined (Table.values t) = v.
Proof.
  intros Hnd Hin Hk Hmin. unfold Table.values, Table.own_entries.
  destruct (sort_by_key_head (k, v) (List.filter (fun e => 0 <=? fst e) t)) as (s & ->).
  - apply List.filter_In. split; [exact Hin|]. cbn. now apply Z.leb_le.
  - intros [k' v'] Hin'. apply List.filter_In in Hin' as [Hin' Hk'].
    cbn in *. apply Z.leb_le in Hk'. eauto.
  - now apply NoDup_map_filter.
  - reflexivity.
Qed.

(** With negative ids only, it is the value created first. *)
Lemma Table_values_all_negative t :
  (forall k v, In (k, v) t -> k < 0) ->
  hd Vundefined (Table.values t) = hd Vundefined (map snd t).
Proof.
  intros Hneg. unfold Table.values, Table.own_entries.
  replace (List.filter (fun e => 0 <=? fst e) t) with (@nil (Z * value)).
  - cbn. f_equal. f_equal. induction t as [|[k v] t IH]; [reflexivity|].
    cbn. destruct (Z.ltb_spec k 0).
    + f_equal. apply IH. intros. eapply Hneg. right. eassumption.
    + specialize (Hneg k v (or_introl eq_refl)). lia.
  - symmetry. induction t as [|[k v] t IH]; [reflexivity|].
    cbn. destruct (Z.leb_spec 0 k).
    + specialize (Hneg k v (or_introl eq_refl)). lia.
    + apply IH. intros. eapply Hneg. right. eassumption.
Qed.

(** ** The effect of one iteration on the heap and the stack *)

Ltac simpl_state :=
  cbn [bit heap header libraries objects references objectStack
       set_bit set_heap set_header set_libraries set_objects set_references
       set_objectStack] in *.

Lemma push_members_Some h a o vs :
  h !! a = Some o ->
  push_members h a vs = <[a := set_memberValues o (memberValues o ++ vs)]> h.
Proof. intros E. unfold push_members. now rewrite E. Qed.

Lemma dispatch_cases bytes record cur st :
  (record = 0 \/ record = 1 \/ record = 4 \/ record = 5 \/ record = 6 \/
   record = 7 \/ record = 9 \/ record = 10 \/ record = 11 \/ record = 12 \/
   record = 13 \/ record = 15) \/
  dispatch bytes record cur st = Throw (Unable_record record).
Proof.
  case_number record ltac:(first [ right; reflexivity | left; tauto ]).
Qed.

Lemma expects_record_Some st a :
  expects_record st (Some a) ->
  exists below o types,
    objectStack st = a :: below /\ heap st !! a = Some o /\
    memberTypes o = Some types /\
    (length (memberValues o) < length types)%nat.
Proof. inversion 1; eauto 8. Qed.

(** Appending one value to the composite on top. *)
Lemma effect_append_one bytes st0 st' a v :
  expects_record st0 (Some a) ->
  heap st' = push_members (heap st0) a [v] ->
  objectStack st' = objectStack st0 ->
  step_effect bytes st0 st'.
Proof.
  intros Hexp Hh Hs.
  destruct (expects_record_Some _ _ Hexp) as (below & o & types & E1 & E2 & E3 & E4).
  rewrite (push_members_Some _ _ _ _ E2) in Hh.
  eapply effect_append; eauto.
Qed.

Lemma dispatch_effect bytes cur st0 st' :
  expects_record st0 cur ->
  dispatch bytes (fst (Reader.read8 bytes (bit st0))) cur (set_bit st0 (bit st0 + 8))
    = Continue st' ->
  step_effect bytes st0 st' /\ objects_effect st0 st'.
Proof.
  intros Hexp.
  destruct (dispatch_cases bytes (fst (Reader.read8 bytes (bit st0))) cur
              (set_bit st0 (bit st0 + 8))) as [Hrec | ->]; [|discriminate].
  unfold objects_effect.
  repeat destruct Hrec as [Hrec | Hrec]; rewrite Hrec;
    cbn [dispatch]; unfold with_reader; simpl_state.
  - (* SerializationHeaderRecord *)
    destruct (deserializeHeader _ _) as [[r b]|]; [|discriminate].
    intros [= <-]. simpl_state. split; [now apply effect_none | now left].
  - (* ClassWithId *)
    destruct (bind _ _ _) as [[[objectId metadataId] b]|]; [|discriminate].
    intros [= <-]. simpl_state. split; [|right; eauto].
    eapply effect_push; simpl_state; eauto. reflexivity.
  - (* SystemClassWithMembersAndTypes *)
    destruct (deserializeClassWithMembersAndTypes _ _ _) as [[cls b]|] eqn:E;
      [|discriminate].
    intros [= <-]. simpl_state. split; [|right; eauto].
    eapply effect_push; simpl_state; eauto.
    unfold deserializeClassWithMembersAndTypes in E.
    repeat (rewrite ?bind_rd in E; unfold bind at 1 in E;
            match type of E with
            | match ?m with _ => _ end = _ => destruct m as [[? ?]|]; [|discriminate]
            end).
    now injection E as <- _.
  - (* ClassWithMembersAndTypes *)
    destruct (deserializeClassWithMembersAndTypes _ _ _) as [[cls b]|] eqn:E;
      [|discriminate].
    intros [= <-]. simpl_state. split; [|right; eauto].
    eapply effect_push; simpl_state; eauto.
    unfold deserializeClassWithMembersAndTypes in E.
    repeat (rewrite ?bind_rd in E; unfold bind at 1 in E;
            match type of E with
            | match ?m with _ => _ end = _ => destruct m as [[? ?]|]; [|discriminate]
            end).
    now injection E as <- _.
  - (* BinaryObjectString *)
    destruct (deserializeBinaryObjectString _ _) as [[bos b]|]; [|discriminate].
    destruct cur as [a|]; [|discriminate].
    intros [= <-]. simpl_state. split; [|right; eauto].
    eapply effect_append_one; simpl_state; eauto.
  - (* BinaryArray *)
    destruct (decodeBinaryArray _ _) as [[[[[[[[id ty] rk] ls] lb] it] ai] b]|];
      [|discriminate].
    destruct (reduce_sum ls) as [totalLength|]; [|discriminate].
    destruct (_ || _); [discriminate|].
    intros [= <-]. simpl_state. split; [|right; eauto].
    eapply effect_push; simpl_state; eauto. reflexivity.
  - (* MemberReference *)
    destruct (deserializeMemberReference _ _) as [[reference b]|]; [|discriminate].
    destruct cur as [a|]; [|discriminate].
    intros [= <-]. simpl_state. split; [|now left].
    eapply effect_append_one; simpl_state; eauto.
  - (* ObjectNull *)
    destruct cur as [a|]; [|discriminate].
    intros [= <-]. simpl_state. split; [|now left].
    eapply effect_append_one; simpl_state; eauto.
  - (* MessageEnd *)
    discriminate.
  - (* BinaryLibraryRecord *)
    destruct (deserializeBinaryLibrary _ _) as [[lib b]|]; [|discriminate].
    intros [= <-]. simpl_state. split; [now apply effect_none | now left].
  - (* ObjectNull256 *)
    unfold read8, rd.
    destruct cur as [a|]; [|discriminate].
    intros [= <-]. simpl_state. split; [|now left].
    destruct (expects_record_Some _ _ Hexp) as (below & o & types & E1 & E2 & E3 & E4).
    rewrite (push_members_Some _ _ _ _ E2).
    eapply effect_append; simpl_state; eauto.
  - (* ArraySinglePrimitive *)
    destruct (bind _ _ _) as [[r b]|]; [|discriminate].
    intros [= <-]. simpl_state. split; [now apply effect_none | right; eauto].
Qed.

Lemma step_effects bytes st st' :
  step bytes st = Continue st' ->
  step_effect bytes st st' /\ objects_effect st st'.
Proof.
  unfold step.
  destruct (objectStack st) as [|a below] eqn:Hs.
  - rewrite read_record_dispatch. apply dispatch_effect. now constructor.
  - destruct (heap st !! a) as [o|] eqn:Ha; [|discriminate].
    destruct (memberTypes o) as [types|] eqn:Ht; [|discriminate].
    destruct (Nat.ltb_spec (length (memberValues o)) (length types)) as [Hlt | Hge].
    + destruct (Z.eqb_spec (nth (length (memberValues o)) types 0) 0) as [Hprim | Hrec].
      * destruct (additionalInfos o) as [infos|]; [|discriminate].
        unfold with_reader.
        destruct (deserializePrimitiveType _ _ _) as [[v b]|]; [|discriminate].
        intros [= <-]. simpl_state. split; [|now left].
        rewrite (push_members_Some _ _ _ _ Ha).
        eapply effect_append; simpl_state; eauto.
      * rewrite read_record_dispatch. apply dispatch_effect.
        econstructor; eauto.
    + intros [= <-]. simpl_state. split; [|now left].
      eapply effect_pop; simpl_state; eauto.
Qed.

(** *** Invariants of the state *)

Lemma wf_initial : wf initial_state.
Proof. split; cbn; constructor. Qed.

Lemma push_if_current_length cur v h :
  length (push_if_current cur v h) = length h.
Proof.
  destruct cur as [a|]; [|reflexivity]. unfold push_if_current, push_members.
  destruct (h !! a); [apply length_insert | reflexivity].
Qed.

Lemma wf_step bytes st st' : wf st -> step bytes st = Continue st' -> wf st'.
Proof.
  intros [Hstack Hobj] Hstep.
  destruct (step_effects _ _ _ Hstep) as [Heff Hobjs]. split.
  - destruct Heff as [Hh Hs | a below o types Hs Ha Ht Hlen Hh Hs'
                      | a below o types vs Hs Ha Ht Hlen Hh Hs' _
                      | cur new Hexp Hnew Hh Hs'].
    + now rewrite Hh, Hs.
    + rewrite Hh, Hs'. rewrite Hs in Hstack. now apply Forall_cons in Hstack as [_ ?].
    + rewrite Hh, Hs', length_insert. exact Hstack.
    + rewrite Hs'.
      assert (length (heap st') = S (length (heap st))) as ->.
      { destruct Hh as [-> | ->]; rewrite ?push_if_current_length, length_app;
          cbn; lia. }
      constructor; [lia|].
      eapply Forall_impl; [exact Hstack|]. cbn. intros; lia.
  - destruct Hobjs as [-> | (k & v & ->)]; [exact Hobj|].
    now apply Table_set_NoDup.
Qed.

Lemma steps_wf bytes n st : steps bytes n initial_state = Some st -> wf st.
Proof.
  revert st. induction n as [|n IH]; cbn [steps]; intros st.
  - intros [= <-]. apply wf_initial.
  - destruct (steps bytes n initial_state) as [st1|]; [|discriminate].
    destruct (step bytes st1) as [st2| |] eqn:Hstep; try discriminate.
    intros [= <-]. eapply wf_step; eauto.
Qed.

(** ** Member counts of the composites on the stack *)

Lemma stack_bounded_append (st st' : state) a below o types vs :
  stack_bounded st ->
  objectStack st = a :: below -> heap st !! a = Some o ->
  memberTypes o = Some types ->
  heap st' = <[a := set_memberValues o (memberValues o ++ vs)]> (heap st) ->
  objectStack st' = objectStack st ->
  (length (memberValues o) + length vs <= length types)%nat ->
  stack_bounded st'.
Proof.
  intros Hb Hs Ha Ht Hh Hs' Hlen a' o' types' Hin Ha' Ht'.
  rewrite Hh in Ha'. rewrite Hs' in Hin.
  destruct (Nat.eq_dec a' a) as [-> | Hne].
  - rewrite list_lookup_insert_eq in Ha' by (now apply lookup_lt_Some in Ha).
    injection Ha' as <-. cbn in *. rewrite length_app.
    replace types' with types by congruence. lia.
  - rewrite list_lookup_insert_ne in Ha' by congruence. eauto.
Qed.

Lemma stack_bounded_step bytes st st' :
  wf st -> stack_bounded st ->
  ~ null256_overflow bytes st ->
  step bytes st = Continue st' ->
  stack_bounded st'.
Proof.
  intros [Hstack _] Hb Hno Hstep.
  destruct (step_effects _ _ _ Hstep) as [Heff _].
  destruct Heff as [Hh Hs | a below o types Hs Ha Ht Hlen Hh Hs'
                    | a below o types vs Hs Ha Ht Hlen Hh Hs' Hvs
                    | cur new Hexp Hnew Hh Hs'].
  - intros a o types. rewrite Hh, Hs. apply Hb.
  - intros a' o' types'. rewrite Hh, Hs'. intros Hin. apply Hb.
    rewrite Hs. now right.
  - eapply stack_bounded_append; eauto.
    destruct Hvs as [-> | (Hexp & Htag & ->)]; [lia|].
    rewrite repeat_length.
    destruct (Nat.le_gt_cases
                (length (memberValues o) +
                 Z.to_nat (fst (Reader.read8 bytes (bit st + 8)))) (length types))
      as [Hle | Hgt]; [exact Hle|].
    exfalso. apply Hno. exists a, o, types. auto.
  - assert (forall a, In a (objectStack st) ->
                      (heap st ++ [new]) !! a = heap st !! a) as Hold.
    { intros a Hin. apply lookup_app_l.
      rewrite List.Forall_forall in Hstack. now apply Hstack. }
    assert (stack_bounded
              {| bit := bit st; heap := heap st ++ [new]; header := header st;
                 libraries := libraries st; objects := objects st;
                 references := references st;
                 objectStack := length (heap st) :: objectStack st |}) as Hb1.
    { intros a o types [<- | Hin] Ha Ht; cbn in Ha.
      - rewrite lookup_app_r, Nat.sub_diag in Ha by lia.
        injection Ha as <-. rewrite Hnew. cbn. lia.
      - rewrite Hold in Ha by assumption. eauto. }
    destruct Hh as [Hh | Hh].
    + destruct cur as [a|]; cbn [push_if_current] in Hh.
      * destruct (expects_record_Some _ _ Hexp) as (below & o & types & E1 & E2 & E3 & E4).
        assert ((heap st ++ [new]) !! a = Some o) as E2'.
        { rewrite Hold; [exact E2 | rewrite E1; now left]. }
        rewrite (push_members_Some _ _ _ _ E2') in Hh.
        intros a' o' types'. rewrite Hs', Hh. intros Hin Ha' Ht'.
        destruct (Nat.eq_dec a' a) as [-> | Hne].
        -- rewrite list_lookup_insert_eq in Ha' by (now apply lookup_lt_Some in E2').
           injection Ha' as <-. cbn in *. rewrite length_app. cbn.
           replace types' with types by congruence. lia.
        -- rewrite list_lookup_insert_ne in Ha' by congruence.
           eapply (Hb1 a'); eauto.
      * intros a o types. rewrite Hs', Hh. apply Hb1.
    + intros a o types. rewrite Hs', Hh. apply Hb1.
Qed.

(** C3, as stated, fails: after the ObjectNull256 record of
    [null256_stream] is processed, the composite on the stack has two member
    values for one member type. *)
Lemma null256_overflow_counterexample :
  exists st o,
    steps null256_stream 3 initial_state = Some st /\
    objectStack st = [O] /\ heap st !! O = Some o /\
    memberTypes o = Some [1] /\ memberValues o = [Vnull; Vnull].
Proof.
  eexists. eexists. split; [vm_compute; reflexivity|].
  repeat split.
Qed.

(** C3 (amended): in a state reached from the start of parsing, provided
    no ObjectNull256 record processed so far carried a count larger than the
    number of members that its parent still lacked, every composite on the
    stack has at most as many member values as member types; and when the
    composite on top has as many member values as member types (or more),
    the next iteration pops it and does nothing else. *)
Theorem stack_members_bounded bytes n st :
  steps bytes n initial_state = Some st ->
  (forall k st_k, (k < n)%nat -> steps bytes k initial_state = Some st_k ->
                  ~ null256_overflow bytes st_k) ->
  stack_bounded st /\
  (forall a below o types,
      objectStack st = a :: below -> heap st !! a = Some o ->
      memberTypes o = Some types ->
      (length types <= length (memberValues o))%nat ->
      step bytes st = Continue (set_objectStack st below)).
Proof.
  intros Hsteps Hno. split.
  - revert st Hsteps Hno. induction n as [|n IH]; cbn [steps]; intros st.
    + intros [= <-] _ a o types [].
    + destruct (steps bytes n initial_state) as [st1|] eqn:Hn; [|discriminate].
      destruct (step bytes st1) as [st2| |] eqn:Hstep; try discriminate.
      intros [= <-] Hno.
      apply (stack_bounded_step bytes st1 st2); auto.
      * eapply steps_wf; eauto.
      * apply IH; [reflexivity|]. intros k st_k Hk. apply Hno. lia.
      * apply (Hno n); [lia | exact Hn].
  - intros a below o types Hs Ha Ht Hlen. unfold step. rewrite Hs, Ha, Ht.
    now destruct (Nat.ltb_spec (length (memberValues o)) (length types)); [lia|].
Qed.

Lemma stack_members_bounded_witness :
  exists st,
    steps two_primitives_stream 4 initial_state = Some st /\
    stack_bounded st /\
    step two_primitives_stream st = Continue (set_objectStack st []).
Proof.
  eexists. split; [vm_compute; reflexivity|].
  match goal with
  | |- stack_bounded ?s /\ _ =>
      assert (steps two_primitives_stream 4 initial_state = Some s) as Hsteps
        by (vm_compute; reflexivity);
      assert (forall k st_k, (k < 4)%nat ->
                steps two_primitives_stream k initial_state = Some st_k ->
                ~ null256_overflow two_primitives_stream st_k) as Hno
  end.
  { intros k st_k Hk Hk_steps (a & o & types & _ & Htag & _).
    do 4 (destruct k as [|k];
          [vm_compute in Hk_steps; injection Hk_steps as <-;
           vm_compute in Htag; discriminate Htag|]).
    lia. }
  destruct (stack_members_bounded two_primitives_stream 4 _ Hsteps Hno) as [Hb Hpop].
  split; [exact Hb|].
  eapply Hpop; reflexivity || (cbn; lia).
Defined.

(** ** MessageEnd *)

Lemma run_fixups_snoc objs rs r h :
  run_fixups objs (rs ++ [r]) h = run_fixup objs (run_fixups objs rs h) r.
Proof. unfold run_fixups. now rewrite fold_left_app. Qed.

(** C1, as stated, fails: in [two_classes_stream] the entry inserted first into
    the object table is the class with id 2, whose projection is the empty
    object; [deserialize] returns the projection of the class with id 1. *)
Lemma message_end_root_counterexample :
  exists st h c,
    steps two_classes_stream 6 initial_state = Some st /\
    step two_classes_stream st = Finish h c /\
    map fst (objects st) = [2; 1] /\
    hd Vundefined (map snd (objects st)) = Vobj O /\
    mapMembers 10 h (Vobj O) = Some (Pobject None []) /\
    deserialize 50 10 two_classes_stream =
      Some (Ok (Pobject None [(lit "x", Psimple (Vnum 42))])).
Proof.
  eexists. eexists. eexists.
  split; [vm_compute; reflexivity|].
  split; [vm_compute; reflexivity|].
  repeat split.
Qed.

(** ** ClassWithId *)

Lemma classWithId_ids bytes b :
  (let* objectId := read32 bytes in
   let* metadataId := read32 bytes in
   ret (objectId, metadataId)) b =
  Ok ((fst (Reader.read32 bytes b), fst (Reader.read32 bytes (b + 32))), b + 32 + 32).
Proof.
  unfold read32. now rewrite !bind_rd, !read32_snd.
Qed.

(** C9, as stated, fails.  In [nested_same_class_stream] the entry under
    metadataId is the parent of the new instance: processing the record
    appends the clone to that entry's memberValues.  In [same_id_stream]
    objectId equals metadataId: the record replaces the entry under
    metadataId by the clone. *)
Lemma classWithId_counterexample :
  (exists st st',
      steps nested_same_class_stream 2 initial_state = Some st /\
      fst (Reader.read8 nested_same_class_stream (bit st)) = 1 /\
      step nested_same_class_stream st = Continue st' /\
      Table.get 1 (objects st) = Vobj O /\
      option_map memberValues (heap st !! O) = Some [] /\
      Table.get 1 (objects st') = Vobj O /\
      option_map memberValues (heap st' !! O) = Some [Vobj 1%nat]) /\
  (exists st st',
      steps same_id_stream 3 initial_state = Some st /\
      fst (Reader.read8 same_id_stream (bit st)) = 1 /\
      step same_id_stream st = Continue st' /\
      Table.get 1 (objects st) = Vobj O /\
      Table.get 1 (objects st') = Vobj 1%nat).
Proof.
  split.
  - eexists. eexists. split; [vm_compute; reflexivity|].
    split; [vm_compute; reflexivity|].
    split; [vm_compute; reflexivity|].
    repeat split.
  - eexists. eexists. split; [vm_compute; reflexivity|].
    split; [vm_compute; reflexivity|].
    split; [vm_compute; reflexivity|].
    repeat split.
Qed.

(** C9 (amended): processing a ClassWithId record whose metadataId names a
    composite allocates a clone of it with the new objectId and no member
    value, pushes the clone and registers it under objectId.  The composite
    under metadataId keeps its memberValues, except that the clone is
    appended to them when that composite is the parent (the top of the
    stack); the table entry under metadataId is unchanged when objectId
    differs from metadataId. *)
Theorem classWithId_frame bytes st cur m o :
  expects_record st cur ->
  fst (Reader.read8 bytes (bit st)) = 1 ->
  Table.get (fst (Reader.read32 bytes (bit st + 40))) (objects st) = Vobj m ->
  heap st !! m = Some o ->
  let objectId := fst (Reader.read32 bytes (bit st + 8)) in
  let metadataId := fst (Reader.read32 bytes (bit st + 40)) in
  let clone := length (heap st) in
  exists st',
    step bytes st = Continue st' /\
    heap st' !! clone = Some (set_objectId (set_memberValues o []) objectId) /\
    objectStack st' = clone :: objectStack st /\
    Table.get objectId (objects st') = Vobj clone /\
    (cur <> Some m -> heap st' !! m = Some o) /\
    (cur = Some m ->
     heap st' !! m = Some (set_memberValues o (memberValues o ++ [Vobj clone]))) /\
    (objectId <> metadataId -> Table.get metadataId (objects st') = Vobj m).
Proof.
  intros Hexp Htag Hmeta Hm objectId metadataId clone. subst metadataId.
  rewrite (step_expects_record _ _ _ Hexp), read_record_dispatch, Htag.
  cbn [dispatch]. unfold with_reader. simpl_state.
  rewrite classWithId_ids.
  replace (bit st + 8 + 32) with (bit st + 40) by lia.
  fold objectId. rewrite Hmeta. cbn [spread]. rewrite Hm.
  eexists. split; [reflexivity|]. simpl_state. fold clone.
  set (cls1 := set_objectId (set_memberValues o []) objectId).
  assert ((heap st ++ [cls1]) !! clone = Some cls1) as Hclone.
  { subst clone. rewrite lookup_app_r, Nat.sub_diag by lia. reflexivity. }
  assert ((heap st ++ [cls1]) !! m = Some o) as Hm'.
  { now apply lookup_app_l_Some. }
  assert (m < clone)%nat as Hlt by (now apply lookup_lt_Some in Hm).
  split; [|split; [reflexivity|split; [apply Table_get_set_eq|]]].
  - destruct cur as [a|]; cbn [push_if_current]; [|exact Hclone].
    destruct (expects_record_Some _ _ Hexp) as (below & oa & types & E1 & E2 & _).
    assert (a < clone)%nat by (now apply lookup_lt_Some in E2).
    rewrite (push_members_Some _ _ oa) by (now apply lookup_app_l_Some).
    rewrite list_lookup_insert_ne by lia. exact Hclone.
  - split; [|split].
    + intros Hne. destruct cur as [a|]; cbn [push_if_current]; [|exact Hm'].
      destruct (expects_record_Some _ _ Hexp) as (below & oa & types & E1 & E2 & _).
      rewrite (push_members_Some _ _ oa) by (now apply lookup_app_l_Some).
      rewrite list_lookup_insert_ne by congruence. exact Hm'.
    + intros ->. cbn [push_if_current].
      rewrite (push_members_Some _ _ o) by exact Hm'.
      rewrite list_lookup_insert_eq; [reflexivity|].
      rewrite length_app. cbn. fold clone. lia.
    + intros Hne. rewrite Table_get_set_ne by congruence. exact Hmeta.
Qed.

Lemma classWithId_frame_witness :
  exists st st',
    steps nested_same_class_stream 2 initial_state = Some st /\
    expects_record st (Some O) /\
    step nested_same_class_stream st = Continue st' /\
    option_map memberValues (heap st' !! 1%nat) = Some [] /\
    option_map memberValues (heap st' !! O) = Some [Vobj 1%nat] /\
    Table.get 1 (objects st') = Vobj O.
Proof.
  eexists.
  match goal with
  | |- exists st', steps _ _ _ = Some ?s /\ _ =>
      assert (steps nested_same_class_stream 2 initial_state = Some s) as Hsteps
        by (vm_compute; reflexivity);
      assert (expects_record s (Some O)) as Hexp
        by (econstructor; try reflexivity; cbn; lia || discriminate);
      assert (fst (Reader.read8 nested_same_class_stream (bit s)) = 1) as Htag
        by (vm_compute; reflexivity);
      assert (Table.get (fst (Reader.read32 nested_same_class_stream (bit s + 40)))
                (objects s) = Vobj O) as Hmeta
        by (vm_compute; reflexivity);
      destruct (classWithId_frame nested_same_class_stream s (Some O) O _
                  Hexp Htag Hmeta eq_refl)
        as (st' & Hstep & Hclone & _ & _ & _ & Hparent & Htable)
  end.
  exists st'. split; [exact Hsteps|]. split; [exact Hexp|]. split; [exact Hstep|].
  split; [exact (f_equal (option_map memberValues) Hclone)|].
  split; [exact (f_equal (option_map memberValues) (Hparent eq_refl))|].
  apply Htable. vm_compute. discriminate.
Defined.

(** ** Reading past the end of the input *)

Lemma stays_ret {A} bytes (a : A) : stays_past_end bytes (ret a).
Proof. intros b Hb. exact Hb. Qed.

Lemma stays_throw {A} bytes e : stays_past_end bytes (@throw A e).
Proof. intros b Hb. exact I. Qed.

Lemma stays_bind {A B} bytes (m : M A) (k : A -> M B) :
  stays_past_end bytes m -> (forall a, stays_past_end bytes (k a)) ->
  stays_past_end bytes (bind m k).
Proof.
  intros Hm Hk b Hb. unfold bind. specialize (Hm b Hb).
  destruct (m b) as [[a b']|]; [|exact I]. now apply Hk.
Qed.

Lemma stays_read bytes bits :
  0 <= bits -> stays_past_end bytes (rd (Reader.read bytes bits)).
Proof. intros Hbits b Hb. unfold rd, past_end in *. cbn. lia. Qed.

Lemma readLengthPrefixedString_past_end bytes b :
  past_end bytes b -> snd (Reader.readLengthPrefixedString bytes b) = b + 8.
Proof.
  unfold past_end. intros Hb. unfold Reader.readLengthPrefixedString.
  cbn [Reader.readLength].
  rewrite read_past_end by lia. rewrite read_past_end by lia.
  rewrite shl_zero. cbn. lia.
Qed.

Lemma stays_string bytes :
  stays_past_end bytes (rd (Reader.readLengthPrefixedString bytes)).
Proof.
  intros b Hb. unfold rd.
  pose proof (readLengthPrefixedString_past_end bytes b Hb) as E.
  destruct (Reader.readLengthPrefixedString bytes b) as [s b']. cbn in E.
  subst b'. unfold past_end in *. lia.
Qed.

Ltac stays :=
  repeat first [ apply stays_ret | apply stays_throw | apply stays_string
               | apply stays_read; lia
               | apply stays_bind; [|intros ?] ].

Lemma stays_deserializeHeader bytes : stays_past_end bytes (deserializeHeader bytes).
Proof. unfold deserializeHeader, read32, Reader.read32. stays. Qed.

Lemma stays_deserializePrimitiveType bytes type :
  stays_past_end bytes (deserializePrimitiveType bytes type).
Proof.
  destruct type as [| |n| |]; try apply stays_ret.
  case_number n
    ltac:(unfold deserializePrimitiveType, readDouble, readSingle, read8, read16,
            read32, read64, readLengthPrefixedString, Reader.read8,
            Reader.read16, Reader.read32, Reader.read64; stays).
Qed.

Lemma deserializeHeader_no_throw bytes : no_throw (deserializeHeader bytes).
Proof. unfold deserializeHeader, read32. repeat no_throw_step. Qed.

(** Past the end an iteration never leaves the loop with a result, and
    the cursor stays past the end. *)
Lemma step_past_end bytes st :
  past_end bytes (bit st) ->
  match step bytes st with
  | Continue st' => past_end bytes (bit st')
  | Finish _ _ => False
  | Throw _ => True
  end.
Proof.
  intros Hb.
  assert (forall cur,
             match read_record bytes cur st with
             | Continue st' => past_end bytes (bit st')
             | Finish _ _ => False
             | Throw _ => True
             end) as Hrec.
  { intros cur. rewrite read_record_dispatch.
    unfold Reader.read8. rewrite read_past_end by exact Hb.
    cbn [fst dispatch]. unfold with_reader. simpl_state.
    pose proof (stays_deserializeHeader bytes (bit st + 8)) as Hh.
    destruct (deserializeHeader bytes (bit st + 8)) as [[hd b]|]; [|exact I].
    simpl_state. apply Hh. unfold past_end in *. lia. }
  unfold step.
  destruct (objectStack st) as [|a below]; [apply Hrec|].
  destruct (heap st !! a) as [o|]; [|exact I].
  destruct (memberTypes o) as [types|]; [|exact I].
  destruct (_ <? _)%nat; [|exact Hb].
  destruct (_ =? 0); [|apply Hrec].
  destruct (additionalInfos o) as [infos|]; [|exact I].
  unfold with_reader.
  pose proof (stays_deserializePrimitiveType bytes
                (nth (length (memberValues o)) infos AIundefined) (bit st) Hb) as Hp.
  destruct (deserializePrimitiveType _ _ _) as [[v b]|]; [|exact I].
  exact Hp.
Qed.

Lemma loop_past_end bytes fuel :
  forall st, past_end bytes (bit st) ->
             forall h c, loop bytes fuel st <> Some (Ok (h, c)).
Proof.
  induction fuel as [|fuel IH]; intros st Hb h c; cbn [loop]; [discriminate|].
  pose proof (step_past_end bytes st Hb) as Hstep.
  destruct (step bytes st) as [st'| |]; [now apply IH | destruct Hstep | discriminate].
Qed.

(** At top level, past the end, the loop reads header records for ever. *)
Lemma loop_past_end_top_level bytes fuel :
  forall st, past_end bytes (bit st) -> objectStack st = [] ->
             loop bytes fuel st = None.
Proof.
  induction fuel as [|fuel IH]; intros st Hb Hs; cbn [loop]; [reflexivity|].
  pose proof (step_past_end bytes st Hb) as Hstep.
  unfold step in *. rewrite Hs in *. rewrite read_record_dispatch in *.
  unfold Reader.read8 in *. rewrite read_past_end in * by exact Hb.
  cbn [fst dispatch] in *. unfold with_reader in *. simpl_state.
  destruct (deserializeHeader_no_throw bytes (bit st + 8)) as (hd & b & E).
  rewrite E in *. simpl_state. apply IH; [exact Hstep | exact Hs].
Qed.

(** C8, as stated, fails: on the input that ends after its first byte, in
    the middle of the header record, [deserialize] neither fails nor
    returns, however many iterations it is given; on a class record cut
    short before the type code of its member it fails with the message for
    an unmapped primitive, the missing byte having been read as 0. *)
Lemma truncated_input_counterexample :
  (forall fuel depth, deserialize fuel depth [0] = None) /\
  deserialize 50 10 truncated_class_stream = Some (Err (Unmapped_primitive 0)).
Proof.
  split; [|vm_compute; reflexivity].
  intros [|fuel] depth; [reflexivity|].
  unfold deserialize. cbn [bitReader loop].
  change (step [0] initial_state) with
    (Continue (set_header (set_bit initial_state 136) (0, 0, 0, 0))).
  cbv iota.
  now rewrite loop_past_end_top_level by (reflexivity || (cbv; discriminate)).
Qed.

(** C8 (amended): once the cursor is at or past the end of the input, no
    error is raised for the missing bytes: every read yields 0.  From then
    on the loop never returns a result: it throws one of its other
    exceptions or goes on for ever, and at top level (empty stack) it goes
    on for ever.  So when parsing reaches such a state, [deserialize]
    returns no value, whatever the number of iterations allowed. *)
Theorem exhausted_input_never_returns str bytes n st :
  bitReader str = Ok bytes ->
  steps bytes n initial_state = Some st ->
  8 * Z.of_nat (length bytes) <= bit st ->
  (forall bits, Reader.read bytes bits (bit st) = (0, bit st + bits)) /\
  (forall fuel h c, loop bytes fuel st <> Some (Ok (h, c))) /\
  (objectStack st = [] -> forall fuel, loop bytes fuel st = None) /\
  (forall fuel depth v, deserialize fuel depth str <> Some (Ok v)).
Proof.
  intros Hrd Hsteps Hb. split; [|split; [|split]].
  - intros bits. now apply read_past_end.
  - intros fuel. now apply loop_past_end.
  - intros Hs fuel. now apply loop_past_end_top_level.
  - intros fuel depth v. unfold deserialize. rewrite Hrd.
    destruct (Nat.le_gt_cases fuel n) as [Hle | Hgt].
    + now rewrite (loop_steps_short _ _ _ _ Hsteps fuel Hle).
    + replace fuel with (n + (fuel - n))%nat by lia.
      rewrite (loop_steps _ _ _ _ _ Hsteps).
      pose proof (loop_past_end bytes (fuel - n) st Hb) as Hloop.
      destruct (loop bytes (fuel - n) st) as [[[h c]|e]|]; try discriminate.
      exfalso. now apply (Hloop h c).
Qed.

Lemma exhausted_input_never_returns_witness :
  exists st,
    steps truncated_header_stream 1 initial_state = Some st /\
    8 * Z.of_nat (length truncated_header_stream) <= bit st /\
    (forall fuel, loop truncated_header_stream fuel st = None) /\
    (forall fuel depth v,
        deserialize fuel depth truncated_header_stream <> Some (Ok v)).
Proof.
  eexists. split; [vm_compute; reflexivity|].
  match goal with
  | |- _ <= bit ?s /\ _ =>
      assert (steps truncated_header_stream 1 initial_state = Some s) as Hsteps
        by (vm_compute; reflexivity);
      assert (8 * Z.of_nat (length truncated_header_stream) <= bit s) as Hb
        by (vm_compute; discriminate);
      destruct (exhausted_input_never_returns
                  truncated_header_stream truncated_header_stream 1 s
                  eq_refl Hsteps Hb) as (_ & _ & Hloop & Hd)
  end.
  split; [exact Hb|]. split; [exact (Hloop eq_refl) | exact Hd].
Defined.

(** ** The member mapper on class instances *)

Lemma Props_get_set_eq k v ps : Props.get k (Props.set k v ps) = Some v.
Proof.
  induction ps as [|[k' v'] ps IH]; cbn.
  - now rewrite bool_decide_eq_true_2.
  - destruct (bool_decide_reflect (k = k')) as [->|Hne]; cbn.
    + now rewrite bool_decide_eq_true_2.
    + now rewrite bool_decide_eq_false_2.
Qed.

Lemma Props_get_set_ne k k' v ps :
  k <> k' -> Props.get k (Props.set k' v ps) = Props.get k ps.
Proof.
  intros Hne. induction ps as [|[k'' v''] ps IH]; cbn.
  - now rewrite bool_decide_eq_false_2.
  - destruct (bool_decide_reflect (k' = k'')) as [->|Hne']; cbn.
    + now rewrite !bool_decide_eq_false_2.
    + destruct (bool_decide (k = k'')); [reflexivity | exact IH].
Qed.

Lemma Props_keys_set k v ps x :
  In x (Props.keys (Props.set k v ps)) <-> x = k \/ In x (Props.keys ps).
Proof.
  unfold Props.keys. induction ps as [|[k' v'] ps IH]; cbn.
  - intuition.
  - destruct (bool_decide_reflect (k = k')) as [->|Hne]; cbn.
    + intuition.
    + rewrite IH. intuition.
Qed.

Lemma assign_plain proto props k v :
  k <> proto_name -> assign proto props k v = (proto, Props.set k v props).
Proof.
  intros Hne. unfold assign. now rewrite bool_decide_eq_false_2.
Qed.

(** The loop over names none of which collapses or is [__proto__]: it
    ends with an object whose keys are those it started with and the
    names, each name holding the projection of the member at the last
    index that bears it. *)
Lemma mapMembers_loop_object project mv names :
  forall idx props r,
    Forall (fun n => collapses n = false) names ->
    ~ In proto_name names ->
    mapMembers_loop project names mv idx None props = Some r ->
    exists props',
      r = Pobject None props' /\
      (forall k, In k (Props.keys props') <-> In k (Props.keys props) \/ In k names) /\
      (forall k, ~ In k names -> Props.get k props' = Props.get k props) /\
      (forall pre nm post,
          names = pre ++ nm :: post -> ~ In nm post ->
          Props.get nm props' = project (nth (idx + length pre) mv Vundefined)).
Proof.
  induction names as [|n names IH]; intros idx props r Hnc Hnp Hloop.
  - cbn in Hloop. injection Hloop as <-. exists props.
    split; [reflexivity|]. split; [tauto|]. split; [reflexivity|].
    intros [|? ?] ? ? E; discriminate E.
  - apply Forall_cons in Hnc as [Hn Hnc]. cbn [mapMembers_loop] in Hloop.
    rewrite Hn in Hloop.
    destruct (project (nth idx mv Vundefined)) as [v|] eqn:Hv; [|discriminate].
    rewrite assign_plain in Hloop by (intros ->; apply Hnp; now left).
    destruct (IH (S idx) (Props.set n v props) r Hnc
                (fun H => Hnp (or_intror H)) Hloop)
      as (props' & -> & Hkeys & Hother & Hlast).
    exists props'. split; [reflexivity|]. split; [|split].
    + intros k. rewrite Hkeys, Props_keys_set. cbn. intuition.
    + intros k Hk. rewrite Hother by (intros H; apply Hk; now right).
      apply Props_get_set_ne. intros ->. apply Hk. now left.
    + intros [|p pre] nm post E Hlast'; injection E as <- ->.
      * rewrite Hother by exact Hlast'. rewrite Props_get_set_eq, Nat.add_0_r.
        now rewrite Hv.
      * rewrite (Hlast pre nm post eq_refl Hlast'). cbn [length].
        now replace (S idx + length pre)%nat with (idx + S (length pre))%nat by lia.
Qed.

(** The loop up to the first name that collapses. *)
Lemma mapMembers_loop_collapse project mv pre :
  forall nm post idx proto props r,
    Forall (fun n => collapses n = false) pre ->
    collapses nm = true ->
    mapMembers_loop project (pre ++ nm :: post) mv idx proto props = Some r ->
    project (nth (idx + length pre) mv Vundefined) = Some r.
Proof.
  induction pre as [|n pre IH]; intros nm post idx proto props r Hnc Hc Hloop.
  - cbn in Hloop. rewrite Hc in Hloop. cbn. now rewrite Nat.add_0_r.
  - apply Forall_cons in Hnc as [Hn Hnc].
    cbn [app mapMembers_loop] in Hloop. rewrite Hn in Hloop.
    destruct (project (nth idx mv Vundefined)) as [v|]; [|discriminate].
    destruct (assign proto props n v) as [proto' props'].
    apply IH in Hloop; try assumption. cbn [length].
    now replace (idx + S (length pre))%nat with (S idx + length pre)%nat by lia.
Qed.

(** X1: projection of a class instance (a composite with member names
    and no rank) none of whose member names is [__proto__].  If a member is named
    "_items" or "value__", the result is the projection of the first such
    member's value.  Otherwise the result is an object whose keys are
    exactly the member names, each holding the projection of the member
    value at the last index that bears the name. *)
Theorem mapMembers_class_instance depth h a o names r :
  h !! a = Some o ->
  rank o = None ->
  memberNames o = Some names ->
  ~ In proto_name names ->
  mapMembers (S depth) h (Vobj a) = Some r ->
  (forall pre nm post,
      names = pre ++ nm :: post ->
      Forall (fun n => collapses n = false) pre -> collapses nm = true ->
      mapMembers depth h (nth (length pre) (memberValues o) Vundefined) = Some r) /\
  (Forall (fun n => collapses n = false) names ->
   exists props,
     r = Pobject None props /\
     (forall k, In k (Props.keys props) <-> In k names) /\
     (forall pre nm post,
         names = pre ++ nm :: post -> ~ In nm post ->
         Props.get nm props =
         mapMembers depth h (nth (length pre) (memberValues o) Vundefined))).
Proof.
  intros Ha Hrank Hnames Hnp Hmap.
  cbn [mapMembers] in Hmap. rewrite Ha, Hrank, Hnames in Hmap. split.
  - intros pre nm post -> Hnc Hc.
    now apply (mapMembers_loop_collapse _ _ _ _ _ _ _ _ _ Hnc Hc) in Hmap.
  - intros Hnc.
    destruct (mapMembers_loop_object _ _ _ _ _ _ Hnc Hnp Hmap)
      as (props & -> & Hkeys & _ & Hlast).
    exists props. split; [reflexivity|]. split.
    + intros k. rewrite Hkeys. cbn. tauto.
    + intros pre nm post E Hl. apply (Hlast pre nm post E Hl).
Qed.

Lemma mapMembers_class_instance_witness :
  ~ In proto_name [lit "_items"; lit "_size"] /\
  mapMembers 2 [list_wrapper] (Vobj O) =
    Some (Psimple (Varray [Vnum 1; Vnum 2; Vnum 3])) /\
  mapMembers 1 [list_wrapper] (nth O (memberValues list_wrapper) Vundefined) =
    Some (Psimple (Varray [Vnum 1; Vnum 2; Vnum 3])).
Proof.
  assert (~ In proto_name [lit "_items"; lit "_size"]) as Hnp.
  { intros [H | [H | []]]; discriminate H. }
  split; [exact Hnp|]. split; [reflexivity|].
  destruct (mapMembers_class_instance 1 [list_wrapper] O list_wrapper
              [lit "_items"; lit "_size"]
              (Psimple (Varray [Vnum 1; Vnum 2; Vnum 3]))
              eq_refl eq_refl eq_refl Hnp eq_refl) as [Hcollapse _].
  apply (Hcollapse [] (lit "_items") [lit "_size"] eq_refl).
  - constructor.
  - reflexivity.
Defined.

(** ** The member mapper and the name [__proto__] *)

(** C5 (the code departs from the specification): for the composite of
    [proto_member_stream], whose memberNames are "__proto__" and "a", the
    projection has the single key "a"; the member named "__proto__" is
    lost. *)
Theorem mapMembers_drops_proto_member :
  deserialize 50 10 proto_member_stream =
    Some (Ok (Pobject None [(lit "a", Psimple (Vnum 7))])) /\
  Props.keys [(lit "a", Psimple (Vnum 7))] <> [lit "__proto__"; lit "a"].
Proof. split; [vm_compute; reflexivity | discriminate]. Qed.

(** * Further properties of the reader *)

(** ** [read64] *)

(** X2: [read64] yields 0 whatever the input and the position (the mask
    [Math.pow(2, 64) - 1] is 0 once converted to 32 bits), and advances the
    cursor by 64 bits; so the primitives read with it (int64, timespan,
    datetime, uint64) all decode to 0. *)
Theorem read64_is_zero bytes bit :
  Reader.read64 bytes bit = (0, bit + 64) /\
  deserializePrimitiveType bytes (AInum 9) bit = Ok (Vnum 0, bit + 64) /\
  deserializePrimitiveType bytes (AInum 12) bit = Ok (Vnum 0, bit + 64) /\
  deserializePrimitiveType bytes (AInum 13) bit = Ok (Vnum 0, bit + 64) /\
  deserializePrimitiveType bytes (AInum 16) bit = Ok (Vnum 0, bit + 64).
Proof.
  assert (Reader.read64 bytes bit = (0, bit + 64)) as E.
  { unfold Reader.read64, Reader.read. f_equal.
    unfold JS.band. change (JS.ToInt32 (JS.pow2_minus1 64)) with 0.
    apply Z.land_0_r. }
  split; [exact E|].
  cbn [deserializePrimitiveType]. unfold read64.
  rewrite bind_rd, E. repeat split.
Qed.

(** ** [read8] and [read16] *)

(** The slice of [len] elements from a non-negative index. *)
Lemma slice_take_drop {A} (l : list A) (q : nat) (len : Z) :
  0 <= len ->
  JS.slice l (Z.of_nat q) (Z.of_nat q + len) = take (Z.to_nat len) (drop q l).
Proof.
  intros Hlen. unfold JS.slice.
  destruct (Z.ltb_spec (Z.of_nat q) 0); [lia|].
  destruct (Z.ltb_spec (Z.of_nat q + len) 0); [lia|].
  destruct (Nat.le_gt_cases (length l) q) as [Hge | Hlt].
  - rewrite !Z.min_r by lia. rewrite Z.sub_diag.
    rewrite (drop_ge l q) by lia. now rewrite take_nil.
  - rewrite (Z.min_l (Z.of_nat q)) by lia. rewrite Nat2Z.id.
    destruct (Z.le_gt_cases (Z.of_nat q + len) (Z.of_nat (length l))).
    + rewrite Z.min_l by lia. f_equal. lia.
    + rewrite Z.min_r by lia.
      rewrite (take_ge (drop q l) (Z.to_nat len)) by (rewrite length_drop; lia).
      apply take_ge. rewrite length_drop. lia.
Qed.

Lemma reduce_slice_two bytes q :
  Forall is_byte bytes ->
  Reader.reduce (JS.slice bytes (Z.of_nat q) (Z.of_nat q + 2)) =
  byte_at bytes q + 256 * byte_at bytes (S q).
Proof.
  intros HF. rewrite slice_take_drop by lia. change (Z.to_nat 2) with 2%nat.
  pose proof (byte_at_is_byte bytes q HF) as H0.
  pose proof (byte_at_is_byte bytes (S q) HF) as H1. unfold is_byte in *.
  destruct (drop_byte_at bytes q) as [[Hnil E0] | ->].
  - rewrite Hnil.
    assert (byte_at bytes (S q) = 0) as E1.
    { pose proof (length_drop bytes q) as Hd. rewrite Hnil in Hd. cbn in Hd.
      unfold byte_at. apply nth_overflow. lia. }
    rewrite E0, E1. reflexivity.
  - destruct (drop_byte_at bytes (S q)) as [[-> E1] | ->];
      cbn [firstn]; rewrite ?take_0.
    + rewrite E1. unfold Reader.reduce. cbn [Reader.reduce_from].
      change (0 * 8) with 0. rewrite (shl_small _ 0) by lia. lia.
    + unfold Reader.reduce. cbn [Reader.reduce_from].
      change (0 * 8) with 0. change ((0 + 1) * 8) with 8.
      rewrite (shl_small _ 0), (shl_small _ 8) by lia. lia.
Qed.

(** X3: at a byte-aligned position [read8] returns the next byte and
    [read16] the little-endian unsigned value of the next two bytes, a
    value in [0, 65536); a byte past the end of the input counts as 0. *)
Theorem read8_read16_unsigned bytes q :
  Forall is_byte bytes ->
  Reader.read8 bytes (8 * Z.of_nat q) = (byte_at bytes q, 8 * Z.of_nat q + 8) /\
  Reader.read16 bytes (8 * Z.of_nat q) =
    (byte_at bytes q + 256 * byte_at bytes (S q), 8 * Z.of_nat q + 16) /\
  0 <= fst (Reader.read16 bytes (8 * Z.of_nat q)) < 65536.
Proof.
  intros HF. split; [now apply read8_aligned|].
  assert (Reader.read16 bytes (8 * Z.of_nat q) =
          (byte_at bytes q + 256 * byte_at bytes (S q), 8 * Z.of_nat q + 16)) as E.
  { unfold Reader.read16, Reader.read.
    replace (8 * Z.of_nat q / 8) with (Z.of_nat q)
      by (rewrite Z.mul_comm, Z.div_mul; lia).
    replace ((8 * Z.of_nat q + 16 + 7) / 8) with (Z.of_nat q + 2)
      by (apply Z.div_unique with (r := 7); lia).
    rewrite reduce_slice_two by assumption.
    replace (Z.rem (8 * Z.of_nat q) 8) with 0
      by (rewrite Z.mul_comm, Z.rem_mul; lia).
    pose proof (byte_at_is_byte bytes q HF) as H0.
    pose proof (byte_at_is_byte bytes (S q) HF) as H1. unfold is_byte in *.
    f_equal. unfold JS.band, JS.sar.
    change (JS.ToUint32 0 mod 32) with 0. rewrite Z.shiftr_0_r.
    change (JS.ToInt32 (JS.pow2_minus1 16)) with (Z.ones 16).
    rewrite (ToInt32_small (byte_at bytes q + _)) by lia.
    rewrite (ToInt32_small (byte_at bytes q + _)) by lia.
    rewrite Z.land_ones by lia. apply Z.mod_small. lia. }
  split; [exact E|]. rewrite E. cbn [fst].
  pose proof (byte_at_is_byte bytes q HF) as H0.
  pose proof (byte_at_is_byte bytes (S q) HF) as H1. unfold is_byte in *. lia.
Qed.

Lemma read8_read16_unsigned_witness :
  Forall is_byte [0; 255; 255; 7] /\
  Reader.read16 [0; 255; 255; 7] 8 = (65535, 24) /\
  Reader.read16 [0; 255; 255; 7] 24 = (7, 40).
Proof.
  assert (Forall is_byte [0; 255; 255; 7]) as HF by all_bytes.
  split; [exact HF|]. split.
  - exact (proj1 (proj2 (read8_read16_unsigned [0; 255; 255; 7] 1 HF))).
  - exact (proj1 (proj2 (read8_read16_unsigned [0; 255; 255; 7] 3 HF))).
Defined.

(** ** Length-prefixed strings *)

Lemma drop_cons_byte_at bytes q b rest :
  drop q bytes = b :: rest -> byte_at bytes q = b /\ drop (S q) bytes = rest.
Proof.
  intros E. destruct (drop_byte_at bytes q) as [[Hnil _] | Hcons].
  - rewrite Hnil in E. discriminate E.
  - rewrite Hcons in E. now injection E as -> ->.
Qed.

Lemma readLength_encode bytes :
  Forall is_byte bytes ->
  forall n multiplier acc q len rest,
    drop q bytes = encode_length n len ++ rest ->
    0 <= len -> 0 <= multiplier ->
    len * 2 ^ (multiplier * 7) < 2 ^ 31 ->
    multiplier + Z.of_nat n = 5 -> (1 <= n)%nat ->
    Reader.readLength bytes n multiplier acc (8 * Z.of_nat q) =
    (acc + len * 2 ^ (multiplier * 7),
     8 * Z.of_nat (q + length (encode_length n len))).
Proof.
  intros HF. induction n as [|n IH];
    intros multiplier acc q len rest Hdrop Hlen Hm Hsmall Hsum Hn; [lia|].
  assert (0 < 2 ^ (multiplier * 7)) as Hpow by (apply Z.pow_pos_nonneg; lia).
  cbn [Reader.readLength encode_length] in *.
  rewrite read7_aligned, read1_high by assumption.
  destruct (Z.ltb_spec len 128) as [Hlt | Hge].
  - apply drop_cons_byte_at in Hdrop as [-> _].
    rewrite Z.mod_small, Z.div_small by lia. cbn [Z.eqb length].
    rewrite shl_small by nia.
    f_equal. lia.
  - cbn [app] in Hdrop. apply drop_cons_byte_at in Hdrop as [-> Hdrop].
    assert (len = 128 * (len / 128) + len mod 128) as Hdm
        by (apply Z.div_mod; lia).
    pose proof (Z.mod_pos_bound len 128 ltac:(lia)) as Hmod.
    assert (1 <= len / 128) as Hdiv by (apply Z.div_le_lower_bound; lia).
    replace ((len mod 128 + 128) mod 128) with (len mod 128)
      by (apply Z.mod_unique with (q := 1); lia).
    replace ((len mod 128 + 128) / 128) with 1
      by (apply Z.div_unique with (r := len mod 128); lia).
    cbn [Z.eqb].
    assert (2 ^ ((multiplier + 1) * 7) = 128 * 2 ^ (multiplier * 7)) as Hnext.
    { replace ((multiplier + 1) * 7) with (7 + multiplier * 7) by lia.
      rewrite Z.pow_add_r by lia. reflexivity. }
    assert (1 <= n)%nat.
    { destruct n; [|lia]. exfalso.
      assert (multiplier = 4) as -> by lia.
      change (2 ^ (4 * 7)) with 268435456 in *. lia. }
    rewrite (IH (multiplier + 1) _ (S q) (len / 128) rest); try lia;
      try assumption; try (rewrite Hnext; nia).
    rewrite shl_small by nia. rewrite Hnext. cbn [length]. f_equal; [nia | lia].
Qed.

(** X4: over the 7-bit encoding of a length [len] below 2^31 followed by
    bytes, [readLengthPrefixedString] at the start of the encoding returns
    the [len] bytes that follow it (all the remaining ones when fewer than
    [len] remain) and moves the cursor past the prefix and [len] bytes. *)
Theorem readLengthPrefixedString_encoded bytes pre len rest :
  Forall is_byte bytes ->
  0 <= len < 2 ^ 31 ->
  bytes = pre ++ encode_length 5 len ++ rest ->
  Reader.readLengthPrefixedString bytes (8 * Z.of_nat (length pre)) =
  (take (Z.to_nat len) rest,
   8 * (Z.of_nat (length pre) + Z.of_nat (length (encode_length 5 len)) + len)).
Proof.
  intros HF Hlen Hbytes. unfold Reader.readLengthPrefixedString.
  rewrite (readLength_encode bytes HF 5 0 0 (length pre) len rest);
    try lia; [|rewrite Hbytes; apply drop_app_length].
  change (2 ^ (0 * 7)) with 1. rewrite Z.mul_1_r, Z.add_0_l.
  set (q' := (length pre + length (encode_length 5 len))%nat).
  unfold Reader.readByteArray.
  replace (Z.quot (8 * Z.of_nat q') 8) with (Z.of_nat q')
    by (rewrite Z.mul_comm, Z.quot_mul; lia).
  replace (Z.quot (8 * Z.of_nat q' + 8 * len) 8) with (Z.of_nat q' + len)
    by (replace (8 * Z.of_nat q' + 8 * len) with ((Z.of_nat q' + len) * 8) by lia;
        rewrite Z.quot_mul; lia).
  rewrite slice_take_drop by lia.
  assert (drop q' bytes = rest) as ->.
  { subst q'. rewrite Hbytes, app_assoc.
    rewrite <- length_app. apply drop_app_length. }
  f_equal; [|subst q'; lia].
  assert (Forall is_byte rest) as HFr.
  { rewrite Hbytes in HF. apply Forall_app in HF as [_ HF].
    now apply Forall_app in HF as [_ HF]. }
  apply Forall_take with (n := Z.to_nat len) in HFr.
  induction HFr as [|b l Hb _ IHl]; [reflexivity|].
  cbn [map]. f_equal; [|exact IHl].
  unfold JS.fromCharCode, is_byte in *. apply Z.mod_small. lia.
Qed.

Lemma readLengthPrefixedString_encoded_witness :
  encode_length 5 300 = [172; 2] /\
  Reader.readLengthPrefixedString [0; 3; 70; 111; 111; 11] 8 =
    ([70; 111; 111], 40) /\
  Reader.readLengthPrefixedString [0; 172; 2; 70; 111] 8 = ([70; 111], 2424).
Proof.
  split; [reflexivity|]. split.
  - exact (readLengthPrefixedString_encoded
             [0; 3; 70; 111; 111; 11] [0] 3 [70; 111; 111; 11]
             ltac:(all_bytes) ltac:(lia) eq_refl).
  - exact (readLengthPrefixedString_encoded
             [0; 172; 2; 70; 111] [0] 300 [70; 111]
             ltac:(all_bytes) ltac:(lia) eq_refl).
Defined.

(** * Further properties of the parser *)

(** ** Records that need a parent *)

Lemma deserializeBinaryObjectString_no_throw bytes :
  no_throw (deserializeBinaryObjectString bytes).
Proof.
  unfold deserializeBinaryObjectString, read32, readLengthPrefixedString.
  repeat no_throw_step.
Qed.

Lemma member_record_at_top_level_step bytes st :
  objectStack st = [] ->
  In (fst (Reader.read8 bytes (bit st))) [6; 9; 10; 13] ->
  step bytes st = Throw (TypeError "currentObject is undefined").
Proof.
  intros Hs Htag.
  rewrite (step_expects_record bytes st None) by (now constructor).
  rewrite read_record_dispatch.
  destruct Htag as [<- | [<- | [<- | [<- | []]]]];
    cbn [dispatch]; unfold with_reader; simpl_state.
  - destruct (deserializeBinaryObjectString_no_throw bytes (bit st + 8))
      as (bos & b & ->). reflexivity.
  - reflexivity.
  - reflexivity.
  - reflexivity.
Qed.

(** X5: a BinaryObjectString (0x06), MemberReference (0x09), ObjectNull
    (0x0A) or ObjectNull256 (0x0D) record read while no composite is open
    makes the iteration throw a TypeError (the record is appended to
    [currentObject.memberValues], and [currentObject] is undefined), and
    [deserialize] with it: a stream whose first object is a string is
    rejected. *)
Theorem member_record_at_top_level_throws str bytes n st depth :
  bitReader str = Ok bytes ->
  steps bytes n initial_state = Some st ->
  objectStack st = [] ->
  In (fst (Reader.read8 bytes (bit st))) [6; 9; 10; 13] ->
  step bytes st = Throw (TypeError "currentObject is undefined") /\
  deserialize (S n) depth str = Some (Err (TypeError "currentObject is undefined")).
Proof.
  intros Hrd Hsteps Hs Htag.
  pose proof (member_record_at_top_level_step bytes st Hs Htag) as Hstep.
  split; [exact Hstep|]. eapply deserialize_throws; eauto.
Qed.

Lemma member_record_at_top_level_throws_witness :
  exists st,
    steps string_root_stream 1 initial_state = Some st /\
    objectStack st = [] /\
    fst (Reader.read8 string_root_stream (bit st)) = 6 /\
    deserialize 2 10 string_root_stream =
      Some (Err (TypeError "currentObject is undefined")).
Proof.
  eexists. split; [vm_compute; reflexivity|].
  match goal with
  | |- objectStack ?s = [] /\ _ =>
      assert (steps string_root_stream 1 initial_state = Some s) as Hsteps
        by (vm_compute; reflexivity);
      assert (In (fst (Reader.read8 string_root_stream (bit s))) [6; 9; 10; 13])
        as Htag by (vm_compute; tauto);
      pose proof (member_record_at_top_level_throws
                    string_root_stream string_root_stream 1 s 10
                    eq_refl Hsteps eq_refl Htag) as [_ Hd]
  end.
  split; [reflexivity|]. split; [vm_compute; reflexivity | exact Hd].
Defined.

(** ** Unknown record tags *)

(** X6: when the loop reads a record tag other than 0x00, 0x01, 0x04,
    0x05, 0x06, 0x07, 0x09, 0x0A, 0x0B, 0x0C, 0x0D and 0x0F, the iteration
    throws "unable to deserialize record of type N." for that tag, and so
    does [deserialize]. *)
Theorem unknown_record_throws str bytes n st cur depth :
  bitReader str = Ok bytes ->
  steps bytes n initial_state = Some st ->
  expects_record st cur ->
  ~ In (fst (Reader.read8 bytes (bit st))) [0; 1; 4; 5; 6; 7; 9; 10; 11; 12; 13; 15] ->
  step bytes st = Throw (Unable_record (fst (Reader.read8 bytes (bit st)))) /\
  deserialize (S n) depth str =
    Some (Err (Unable_record (fst (Reader.read8 bytes (bit st))))).
Proof.
  intros Hrd Hsteps Hexp Htag.
  assert (step bytes st = Throw (Unable_record (fst (Reader.read8 bytes (bit st)))))
    as Hstep.
  { rewrite (step_expects_record _ _ _ Hexp), read_record_dispatch.
    destruct (dispatch_cases bytes (fst (Reader.read8 bytes (bit st))) cur
                (set_bit st (bit st + 8))) as [Hrec | E]; [|exact E].
    exfalso. apply Htag. cbn [In]. intuition. }
  split; [exact Hstep|]. eapply deserialize_throws; eauto.
Qed.

Lemma unknown_record_throws_witness :
  exists st,
    steps class_without_types_stream 1 initial_state = Some st /\
    expects_record st None /\
    deserialize 2 10 class_without_types_stream = Some (Err (Unable_record 2)).
Proof.
  eexists. split; [vm_compute; reflexivity|].
  match goal with
  | |- expects_record ?s None /\ _ =>
      assert (steps class_without_types_stream 1 initial_state = Some s) as Hsteps
        by (vm_compute; reflexivity);
      assert (expects_record s None) as Hexp by (now constructor);
      assert (~ In (fst (Reader.read8 class_without_types_stream (bit s)))
                [0; 1; 4; 5; 6; 7; 9; 10; 11; 12; 13; 15]) as Htag
        by (vm_compute; intuition discriminate);
      pose proof (unknown_record_throws
                    class_without_types_stream class_without_types_stream 1 s
                    None 10 eq_refl Hsteps Hexp Htag) as [_ Hd]
  end.
  split; [exact Hexp | exact Hd].
Defined.

(** ** Primitive type codes *)

(** X7: a primitive type code outside 0..18 matches no case of
    [deserializePrimitiveType]: the decode returns [undefined] and reads
    nothing.  The codes 0 and 4 throw "Unmapped primitive". *)
Theorem primitive_code_out_of_range bytes code bit :
  code < 0 \/ 18 < code ->
  deserializePrimitiveType bytes (AInum code) bit = Ok (Vundefined, bit) /\
  deserializePrimitiveType bytes (AInum 0) bit = Err (Unmapped_primitive 0) /\
  deserializePrimitiveType bytes (AInum 4) bit = Err (Unmapped_primitive 4).
Proof.
  intros Hcode. split; [|split; reflexivity].
  case_number code ltac:(first [ reflexivity | exfalso; lia ]).
Qed.

Lemma primitive_code_out_of_range_witness :
  (255 < 0 \/ 18 < 255) /\
  deserializePrimitiveType [0; 1; 2] (AInum 255) 8 = Ok (Vundefined, 8).
Proof.
  assert (255 < 0 \/ 18 < 255) as Hcode by (right; lia).
  split; [exact Hcode|].
  exact (proj1 (primitive_code_out_of_range [0; 1; 2] 255 8 Hcode)).
Defined.

(** ** The fix-up pass *)

Lemma set_memberValues_twice o mv mv' :
  set_memberValues (set_memberValues o mv) mv' = set_memberValues o mv'.
Proof. reflexivity. Qed.

Lemma set_memberValues_same o : set_memberValues o (memberValues o) = o.
Proof. now destruct o. Qed.

Lemma touched_snoc rs r a i :
  touched (rs ++ [r]) a i =
  touched rs a i || (Nat.eqb (fx_object r) a && Nat.eqb (fx_idx r) i).
Proof. unfold touched. rewrite existsb_app. cbn. now rewrite orb_false_r. Qed.

Lemma touched_true rs a i :
  touched rs a i = true <->
  exists r, In r rs /\ fx_object r = a /\ fx_idx r = i.
Proof.
  unfold touched. rewrite existsb_exists. split.
  - intros (r & Hin & Hr). apply andb_true_iff in Hr as [Ha Hi].
    apply Nat.eqb_eq in Ha, Hi. eauto.
  - intros (r & Hin & Ha & Hi). exists r. split; [exact Hin|].
    apply andb_true_iff. split; now apply Nat.eqb_eq.
Qed.

(** Running the fix-ups [rs], each of which targets a slot holding its
    placeholder, resolves exactly the slots they target. *)
Lemma run_fixups_touched objs h rs :
  (forall r, In r rs ->
     exists o, h !! fx_object r = Some o /\
               memberValues o !! fx_idx r = Some (Vref (fx_reference r))) ->
  run_fixups objs rs h = imap (resolve_touched objs rs) h.
Proof.
  induction rs as [|r rs IH] using rev_ind; intros Hslots.
  - cbn. apply list_eq. intros j. rewrite list_lookup_imap.
    destruct (h !! j) as [o|]; [|reflexivity]. cbn. f_equal.
    unfold resolve_touched. cbn.
    rewrite <- (set_memberValues_same o) at 1. f_equal.
    apply list_eq. intros i. rewrite list_lookup_imap.
    now destruct (memberValues o !! i).
  - rewrite run_fixups_snoc, IH by (intros; apply Hslots, in_or_app; now left).
    destruct (Hslots r) as (o & Ho & Hslot); [apply in_or_app; right; now left|].
    unfold run_fixup. unfold addr in *. rewrite list_lookup_imap, Ho. cbn [fmap option_fmap option_map].
    set (f := fun i v => if touched rs (fx_object r) i then resolve objs v else v).
    assert (fx_idx r < length (memberValues o))%nat as Hlt
      by (now apply lookup_lt_Some in Hslot).
    unfold array_set. cbn [memberValues resolve_touched set_memberValues].
    fold f. rewrite length_imap.
    destruct (Nat.ltb_spec (fx_idx r) (length (memberValues o))); [|lia].
    apply list_eq. intros j. rewrite list_lookup_imap.
    destruct (Nat.eq_dec j (fx_object r)) as [-> | Hne].
    + rewrite list_lookup_insert_eq
        by (rewrite length_imap; now apply lookup_lt_Some in Ho).
      rewrite Ho. cbn. f_equal. unfold resolve_touched.
      rewrite set_memberValues_twice. f_equal.
      apply list_eq. intros i. rewrite list_lookup_imap.
      destruct (Nat.eq_dec i (fx_idx r)) as [-> | Hi].
      * rewrite list_lookup_insert_eq by (rewrite length_imap; lia).
        rewrite Hslot. cbn. rewrite touched_snoc, !Nat.eqb_refl.
        now rewrite orb_true_r.
      * rewrite list_lookup_insert_ne by congruence.
        rewrite list_lookup_imap. subst f.
        destruct (memberValues o !! i) as [v|]; [|reflexivity]. cbn.
        rewrite touched_snoc.
        destruct (Nat.eqb_spec (fx_idx r) i); [congruence|].
        now rewrite andb_false_r, orb_false_r.
    + rewrite list_lookup_insert_ne by congruence.
      rewrite list_lookup_imap.
      destruct (h !! j) as [o'|]; [|reflexivity]. cbn. f_equal.
      unfold resolve_touched. f_equal.
      apply list_eq. intros i. rewrite !list_lookup_imap.
      destruct (memberValues o' !! i) as [v|]; [|reflexivity]. cbn.
      rewrite touched_snoc.
      destruct (Nat.eqb_spec (fx_object r) j); [congruence|].
      now rewrite orb_false_r.
Qed.

Lemma resolve_not_ref objs v : is_ref v = false -> resolve objs v = v.
Proof. now destruct v. Qed.

(** Under the correspondence of placeholders and fix-ups, the fix-up pass
    replaces every placeholder by its table entry and nothing else. *)
Lemma run_fixups_resolve h refs objs :
  refs_inv h refs objs ->
  run_fixups objs refs h = map (resolve_object objs) h.
Proof.
  intros [Hfs Hsf _]. rewrite run_fixups_touched by exact Hfs.
  apply list_eq. intros j. rewrite list_lookup_imap, list_lookup_fmap.
  destruct (h !! j) as [o|] eqn:Ho; [|reflexivity]. cbn. f_equal.
  unfold resolve_touched, resolve_object. f_equal.
  apply list_eq. intros i. rewrite list_lookup_imap, list_lookup_fmap.
  destruct (memberValues o !! i) as [v|] eqn:Hv; [|reflexivity]. cbn. f_equal.
  destruct (touched refs j i) eqn:Ht; [reflexivity|].
  symmetry. apply resolve_not_ref.
  destruct v; try reflexivity.
  destruct (Hsf j o i id Ho Hv) as (r & Hin & Ha & Hi).
  assert (touched refs j i = true) by (apply touched_true; eauto).
  congruence.
Qed.

Lemma Table_get_In k t :
  Table.get k t = Vundefined \/ In (k, Table.get k t) t.
Proof.
  induction t as [|[k' v'] t IH]; cbn; [now left|].
  destruct (Z.eqb_spec k k') as [->|Hne]; [right; now left|].
  destruct IH; [now left | right; now right].
Qed.

Lemma Table_set_In k v t e :
  In e (Table.set k v t) -> e = (k, v) \/ In e t.
Proof.
  induction t as [|[k' v'] t IH]; cbn.
  - intuition.
  - destruct (Z.eqb_spec k k'); cbn; intuition.
Qed.

Lemma resolve_is_not_ref h refs objs v :
  refs_inv h refs objs -> is_ref (resolve objs v) = false.
Proof.
  intros [_ _ Ht]. destruct v; try reflexivity. cbn.
  destruct (Table_get_In id objs) as [-> | Hin]; [reflexivity|].
  exact (Ht _ _ Hin).
Qed.

(** *** The correspondence is kept by every iteration *)

Lemma refs_inv_push_members h refs objs a vs :
  refs_inv h refs objs ->
  Forall (fun v => is_ref v = false) vs ->
  refs_inv (push_members h a vs) refs objs.
Proof.
  intros [Hfs Hsf Ht] Hvs. unfold push_members.
  destruct (h !! a) as [o|] eqn:Ho; [|now split].
  assert (a < length h)%nat as Hlt by (now apply lookup_lt_Some in Ho).
  split; [| |exact Ht].
  - intros r Hin. destruct (Hfs r Hin) as (o1 & Ho1 & Hslot).
    destruct (Nat.eq_dec (fx_object r) a) as [E | Hne].
    + rewrite E in *. rewrite list_lookup_insert_eq by exact Hlt.
      eexists. split; [reflexivity|]. cbn.
      replace o1 with o in * by congruence.
      now apply lookup_app_l_Some.
    + rewrite list_lookup_insert_ne by congruence. eauto.
  - intros a' o' idx id Ho' Hslot.
    destruct (Nat.eq_dec a' a) as [-> | Hne].
    + rewrite list_lookup_insert_eq in Ho' by exact Hlt.
      injection Ho' as <-. cbn in Hslot.
      apply lookup_app_Some in Hslot as [Hslot | [_ Hslot]]; [eauto|].
      exfalso. apply list_elem_of_lookup_2 in Hslot.
      rewrite Forall_forall in Hvs. now specialize (Hvs _ Hslot).
    + rewrite list_lookup_insert_ne in Ho' by congruence. eauto.
Qed.

Lemma refs_inv_push_ref h refs objs a o id :
  refs_inv h refs objs -> h !! a = Some o ->
  refs_inv (push_members h a [Vref id])
    (refs ++ [{| fx_object := a; fx_idx := length (memberValues o);
                 fx_reference := id |}]) objs.
Proof.
  intros [Hfs Hsf Ht] Ho. rewrite (push_members_Some _ _ _ _ Ho).
  assert (a < length h)%nat as Hlt by (now apply lookup_lt_Some in Ho).
  split; [| |exact Ht].
  - intros r Hin. apply in_app_or in Hin as [Hin | [<- | []]].
    + destruct (Hfs r Hin) as (o1 & Ho1 & Hslot).
      destruct (Nat.eq_dec (fx_object r) a) as [E | Hne].
      * rewrite E in *. rewrite list_lookup_insert_eq by exact Hlt.
        eexists. split; [reflexivity|]. cbn.
        replace o1 with o in * by congruence.
        now apply lookup_app_l_Some.
      * rewrite list_lookup_insert_ne by congruence. eauto.
    + cbn. rewrite list_lookup_insert_eq by exact Hlt.
      eexists. split; [reflexivity|]. cbn.
      rewrite lookup_app_r, Nat.sub_diag by lia. reflexivity.
  - intros a' o' idx id' Ho' Hslot.
    destruct (Nat.eq_dec a' a) as [-> | Hne].
    + rewrite list_lookup_insert_eq in Ho' by exact Hlt.
      injection Ho' as <-. cbn in Hslot.
      apply lookup_app_Some in Hslot as [Hslot | [Hge Hslot]].
      * destruct (Hsf _ _ _ _ Ho Hslot) as (r & Hin & E1 & E2).
        exists r. split; [apply in_or_app; now left | auto].
      * eexists. split; [apply in_or_app; right; now left|]. cbn.
        split; [reflexivity|].
        apply lookup_lt_Some in Hslot. cbn in Hslot. lia.
    + rewrite list_lookup_insert_ne in Ho' by congruence.
      destruct (Hsf _ _ _ _ Ho' Hslot) as (r & Hin & E1 & E2).
      exists r. split; [apply in_or_app; now left | auto].
Qed.

Lemma refs_inv_alloc h refs objs new :
  refs_inv h refs objs -> memberValues new = [] ->
  refs_inv (h ++ [new]) refs objs.
Proof.
  intros [Hfs Hsf Ht] Hnew. split; [| |exact Ht].
  - intros r Hin. destruct (Hfs r Hin) as (o & Ho & Hslot).
    exists o. split; [now apply lookup_app_l_Some | exact Hslot].
  - intros a o idx id Ho Hslot.
    apply lookup_app_Some in Ho as [Ho | [_ Ho]]; [eauto|].
    apply list_lookup_singleton_Some in Ho as [_ <-].
    rewrite Hnew in Hslot. discriminate Hslot.
Qed.

Lemma refs_inv_table h refs objs k v :
  refs_inv h refs objs -> is_ref v = false ->
  refs_inv h refs (Table.set k v objs).
Proof.
  intros [Hfs Hsf Ht] Hv. split; [exact Hfs | exact Hsf |].
  intros k' v' Hin. apply Table_set_In in Hin as [[= -> ->] | Hin]; eauto.
Qed.

Lemma yields_ret {A} (P : A -> Prop) a : P a -> yields P (ret a).
Proof. intros Ha b a' b' [= <- _]. exact Ha. Qed.

Lemma yields_throw {A} (P : A -> Prop) e : yields P (throw e).
Proof. intros b a b' E. discriminate E. Qed.

Lemma yields_bind {A B} (P : B -> Prop) (m : M A) (k : A -> M B) :
  (forall a, yields P (k a)) -> yields P (bind m k).
Proof.
  intros Hk b r b' E. unfold bind in E.
  destruct (m b) as [[a b1]|]; [|discriminate]. exact (Hk a b1 r b' E).
Qed.

Lemma deserializePrimitiveType_not_ref bytes type :
  yields (fun v => is_ref v = false) (deserializePrimitiveType bytes type).
Proof.
  destruct type as [| |n| |]; try (now apply yields_ret).
  case_number n
    ltac:(unfold deserializePrimitiveType, readDouble, readSingle;
          repeat first [ apply yields_throw
                       | apply yields_ret; reflexivity
                       | apply yields_bind; intros ? ]).
Qed.

Lemma times_length {A} (m : M A) n :
  yields (fun l => length l = n) (times n m).
Proof.
  induction n as [|n IH]; cbn [times].
  - now apply yields_ret.
  - apply yields_bind. intros x. intros b l b' E. unfold bind in E.
    destruct (times n m b) as [[xs b1]|] eqn:Exs; [|discriminate].
    injection E as <- _. cbn. f_equal. exact (IH _ _ _ Exs).
Qed.

Lemma times_Forall {A} (P : A -> Prop) (m : M A) n :
  yields P m -> yields (Forall P) (times n m).
Proof.
  intros Hm. induction n as [|n IH]; cbn [times].
  - now apply yields_ret.
  - intros b l b' E. unfold bind at 1 in E.
    destruct (m b) as [[x b1]|] eqn:Ex; [|discriminate].
    unfold bind in E.
    destruct (times n m b1) as [[xs b2]|] eqn:Exs; [|discriminate].
    injection E as <- _. constructor; [exact (Hm _ _ _ Ex) | exact (IH _ _ _ Exs)].
Qed.

Lemma each_length {A B} (f : A -> M B) l :
  yields (fun l' => length l' = length l) (each f l).
Proof.
  induction l as [|a l IH]; cbn [each].
  - now apply yields_ret.
  - apply yields_bind. intros x. intros b l' b' E. unfold bind in E.
    destruct (each f l b) as [[xs b1]|] eqn:Exs; [|discriminate].
    injection E as <- _. cbn. f_equal. exact (IH _ _ _ Exs).
Qed.

(** The composite that a class record decodes to: it has no member value
    yet and no rank, and its member names, member types and additional
    infos are arrays of one length. *)
Lemma deserializeClassWithMembersAndTypes_shape bytes isSystem :
  yields (fun cls =>
            memberValues cls = [] /\ rank cls = None /\
            exists names types infos,
              memberNames cls = Some names /\ memberTypes cls = Some types /\
              additionalInfos cls = Some infos /\
              length names = length types /\ length infos = length types)
    (deserializeClassWithMembersAndTypes bytes isSystem).
Proof.
  intros b cls b' E. unfold deserializeClassWithMembersAndTypes in E.
  unfold bind at 1 in E. destruct (read32 bytes b) as [[objectId b1]|]; [|discriminate].
  unfold bind at 1 in E.
  destruct (readLengthPrefixedString bytes b1) as [[nm b2]|]; [|discriminate].
  unfold bind at 1 in E. destruct (read32 bytes b2) as [[memberCount b3]|]; [|discriminate].
  unfold bind at 1 in E.
  destruct (times (Z.to_nat memberCount) (readLengthPrefixedString bytes) b3)
    as [[names b4]|] eqn:Enames; [|discriminate].
  unfold bind at 1 in E.
  destruct (times (Z.to_nat memberCount) (read8 bytes) b4)
    as [[types b5]|] eqn:Etypes; [|discriminate].
  unfold bind at 1 in E.
  destruct (each (deserializeAdditionalTypeInfo bytes) types b5)
    as [[infos b6]|] eqn:Einfos; [|discriminate].
  unfold bind at 1 in E.
  match type of E with
  | match ?m with _ => _ end = _ => destruct m as [[lib b7]|]; [|discriminate]
  end.
  injection E as <- _. cbn.
  split; [reflexivity|]. split; [reflexivity|].
  exists names, types, infos. repeat split.
  - rewrite (times_length _ _ _ _ _ Enames). symmetry.
    exact (times_length _ _ _ _ _ Etypes).
  - exact (each_length _ _ _ _ _ Einfos).
Qed.

Lemma Forall_repeat_null n : Forall (fun v => is_ref v = false) (repeat Vnull n).
Proof. induction n; cbn; now constructor. Qed.

Lemma refs_inv_push_if_current h refs objs cur a :
  refs_inv h refs objs ->
  refs_inv (push_if_current cur (Vobj a) h) refs objs.
Proof.
  intros Hinv. destruct cur as [c|]; [|exact Hinv].
  apply refs_inv_push_members; [exact Hinv|]. now repeat constructor.
Qed.

Lemma refs_inv_dispatch bytes cur st0 st' :
  expects_record st0 cur ->
  refs_inv (heap st0) (references st0) (objects st0) ->
  dispatch bytes (fst (Reader.read8 bytes (bit st0))) cur (set_bit st0 (bit st0 + 8))
    = Continue st' ->
  refs_inv (heap st') (references st') (objects st').
Proof.
  intros Hexp Hinv.
  destruct (dispatch_cases bytes (fst (Reader.read8 bytes (bit st0))) cur
              (set_bit st0 (bit st0 + 8))) as [Hrec | ->]; [|discriminate].
  repeat destruct Hrec as [Hrec | Hrec]; rewrite Hrec;
    cbn [dispatch]; unfold with_reader; simpl_state.
  - destruct (deserializeHeader _ _) as [[r b]|]; [|discriminate].
    intros [= <-]. exact Hinv.
  - destruct (bind _ _ _) as [[[objectId metadataId] b]|]; [|discriminate].
    intros [= <-]. simpl_state.
    apply refs_inv_table; [|reflexivity].
    apply refs_inv_push_if_current. now apply refs_inv_alloc.
  - destruct (deserializeClassWithMembersAndTypes _ _ _) as [[cls b]|] eqn:E;
      [|discriminate].
    intros [= <-]. simpl_state.
    apply refs_inv_table; [|reflexivity].
    apply refs_inv_push_if_current. apply refs_inv_alloc; [exact Hinv|].
    exact (proj1 (deserializeClassWithMembersAndTypes_shape _ _ _ _ _ E)).
  - destruct (deserializeClassWithMembersAndTypes _ _ _) as [[cls b]|] eqn:E;
      [|discriminate].
    intros [= <-]. simpl_state.
    apply refs_inv_table; [|reflexivity].
    apply refs_inv_push_if_current. apply refs_inv_alloc; [exact Hinv|].
    exact (proj1 (deserializeClassWithMembersAndTypes_shape _ _ _ _ _ E)).
  - destruct (deserializeBinaryObjectString _ _) as [[bos b]|]; [|discriminate].
    destruct cur as [a|]; [|discriminate].
    intros [= <-]. simpl_state.
    apply refs_inv_push_members; [|now repeat constructor].
    now apply refs_inv_table.
  - destruct (decodeBinaryArray _ _) as [[[[[[[[id ty] rk] ls] lb] it] ai] b]|];
      [|discriminate].
    destruct (reduce_sum ls) as [totalLength|]; [|discriminate].
    destruct (_ || _); [discriminate|].
    intros [= <-]. simpl_state.
    apply refs_inv_table; [|reflexivity]. now apply refs_inv_alloc.
  - destruct (deserializeMemberReference _ _) as [[reference b]|]; [|discriminate].
    destruct cur as [a|]; [|discriminate].
    destruct (expects_record_Some _ _ Hexp) as (below & o & types & _ & Ho & _).
    intros [= <-]. simpl_state. unfold addr in *. rewrite Ho.
    now apply refs_inv_push_ref.
  - destruct cur as [a|]; [|discriminate].
    intros [= <-]. simpl_state.
    apply refs_inv_push_members; [exact Hinv | now repeat constructor].
  - discriminate.
  - destruct (deserializeBinaryLibrary _ _) as [[lib b]|]; [|discriminate].
    intros [= <-]. exact Hinv.
  - unfold read8, rd.
    destruct cur as [a|]; [|discriminate].
    intros [= <-]. simpl_state.
    apply refs_inv_push_members; [exact Hinv | apply Forall_repeat_null].
  - destruct (bind _ _ _) as [[r b]|]; [|discriminate].
    intros [= <-]. simpl_state. now apply refs_inv_table.
Qed.

Lemma refs_inv_step bytes st st' :
  refs_inv (heap st) (references st) (objects st) ->
  step bytes st = Continue st' ->
  refs_inv (heap st') (references st') (objects st').
Proof.
  intros Hinv. unfold step.
  destruct (objectStack st) as [|a below] eqn:Hs.
  - rewrite read_record_dispatch. apply refs_inv_dispatch; [now constructor | exact Hinv].
  - destruct (heap st !! a) as [o|] eqn:Ha; [|discriminate].
    destruct (memberTypes o) as [types|] eqn:Ht; [|discriminate].
    destruct (Nat.ltb_spec (length (memberValues o)) (length types)) as [Hlt | Hge].
    + destruct (Z.eqb_spec (nth (length (memberValues o)) types 0) 0) as [Hprim | Hrec].
      * destruct (additionalInfos o) as [infos|]; [|discriminate].
        unfold with_reader.
        destruct (deserializePrimitiveType _ _ _) as [[v b]|] eqn:Ev; [|discriminate].
        intros [= <-]. simpl_state.
        apply refs_inv_push_members; [exact Hinv|].
        constructor; [|constructor].
        exact (deserializePrimitiveType_not_ref _ _ _ _ _ Ev).
      * rewrite read_record_dispatch. apply refs_inv_dispatch; [|exact Hinv].
        econstructor; eauto.
    + intros [= <-]. exact Hinv.
Qed.

Lemma steps_refs_inv bytes n st :
  steps bytes n initial_state = Some st ->
  refs_inv (heap st) (references st) (objects st).
Proof.
  revert st. induction n as [|n IH]; cbn [steps]; intros st.
  - intros [= <-]. split; cbn; intros; try discriminate; contradiction.
  - destruct (steps bytes n initial_state) as [st1|]; [|discriminate].
    destruct (step bytes st1) as [st2| |] eqn:Hstep; try discriminate.
    intros [= <-]. eapply refs_inv_step; eauto.
Qed.

(** X8: in every state reached from the start of parsing, running the
    queued fix-ups replaces each placeholder [{ref: id}] by [objects[id]]
    ([undefined] when the id is absent) and changes nothing else; after it
    no member value is a placeholder. *)
Theorem fixups_replace_placeholders bytes n st :
  steps bytes n initial_state = Some st ->
  run_fixups (objects st) (references st) (heap st) =
    map (resolve_object (objects st)) (heap st) /\
  Forall (fun o => Forall (fun v => is_ref v = false) (memberValues o))
    (run_fixups (objects st) (references st) (heap st)).
Proof.
  intros Hsteps. pose proof (steps_refs_inv _ _ _ Hsteps) as Hinv.
  rewrite (run_fixups_resolve _ _ _ Hinv). split; [reflexivity|].
  apply List.Forall_forall. intros o' Hin.
  apply in_map_iff in Hin as (o & <- & _). cbn.
  apply List.Forall_forall. intros v Hv.
  apply in_map_iff in Hv as (v0 & <- & _).
  exact (resolve_is_not_ref _ _ _ v0 Hinv).
Qed.

Lemma fixups_replace_placeholders_witness :
  exists st,
    steps reference_stream 6 initial_state = Some st /\
    option_map memberValues (heap st !! 1%nat) = Some [Vref 1; Vref 7] /\
    option_map memberValues
      (run_fixups (objects st) (references st) (heap st) !! 1%nat) =
      Some [Vobj O; Vundefined].
Proof.
  eexists. split; [vm_compute; reflexivity|].
  match goal with
  | |- option_map _ (heap ?s !! _) = _ /\ _ =>
      assert (steps reference_stream 6 initial_state = Some s) as Hsteps
        by (vm_compute; reflexivity);
      destruct (fixups_replace_placeholders reference_stream 6 s Hsteps) as [E _]
  end.
  split; [reflexivity|]. rewrite E. reflexivity.
Defined.

(** ** BinaryArray records *)

(** Above 2^53 an addition rounds to the nearest double, ties to even. *)
Lemma add_rounds :
  JS.add (2 ^ 53) 1 = 2 ^ 53 /\
  JS.add (2 ^ 53 + 2) 1 = 2 ^ 53 + 4 /\
  JS.add (- 2 ^ 53) (-1) = - 2 ^ 53 /\
  JS.add (2 ^ 53) 2 = 2 ^ 53 + 2.
Proof. repeat split; vm_compute; reflexivity. Qed.

Lemma round_double_small z : Z.abs z <= 2 ^ 53 -> JS.round_double z = z.
Proof.
  intros Hz. unfold JS.round_double.
  now destruct (Z.leb_spec (Z.abs z) (2 ^ 53)); [|lia].
Qed.

(** Below 2^53 the sum in doubles is the exact sum. *)
Lemma fold_left_add_exact rest :
  forall x,
    Forall (fun y => - 2 ^ 31 <= y < 2 ^ 31) rest ->
    Z.abs x + Z.of_nat (length rest) * 2 ^ 31 <= 2 ^ 53 ->
    fold_left JS.add rest x = x + fold_right Z.add 0 rest.
Proof.
  induction rest as [|y rest IH]; intros x Hrest Hbound; cbn [fold_left fold_right].
  - lia.
  - apply List.Forall_cons_iff in Hrest as [Hy Hrest].
    cbn [length] in Hbound.
    unfold JS.add at 2. rewrite round_double_small by lia.
    rewrite IH by (try assumption; lia). lia.
Qed.

Lemma reduce_sum_exact ls :
  ls <> [] ->
  Forall (fun y => - 2 ^ 31 <= y < 2 ^ 31) ls ->
  Z.of_nat (length ls) <= 2 ^ 22 ->
  reduce_sum ls = Some (fold_right Z.add 0 ls).
Proof.
  destruct ls as [|x rest]; [congruence|]. intros _ Hls Hlen.
  apply List.Forall_cons_iff in Hls as [Hx Hrest]. cbn [length] in Hlen.
  cbn [reduce_sum fold_right]. f_equal.
  apply fold_left_add_exact; [exact Hrest | lia].
Qed.

Lemma read32_range bytes b :
  - 2 ^ 31 <= fst (Reader.read32 bytes b) < 2 ^ 31.
Proof.
  unfold Reader.read32, Reader.read. cbn [fst]. unfold JS.band.
  change (JS.ToInt32 (JS.pow2_minus1 32)) with (-1).
  rewrite Z.land_m1_r. apply ToInt32_range.
Qed.

Lemma decodeBinaryArray_lengths bytes :
  yields (fun r => let '(_, _, rk, ls, _, _, _) := r in
                   length ls = Z.to_nat rk /\
                   Forall (fun y => - 2 ^ 31 <= y < 2 ^ 31) ls)
    (decodeBinaryArray bytes).
Proof.
  intros b r b' E. unfold decodeBinaryArray in E.
  unfold read32 at 1 2, read8 in E.
  rewrite !bind_rd in E. unfold bind at 1 in E.
  match type of E with
  | match times ?n ?m ?b0 with _ => _ end = _ =>
      destruct (times n m b0) as [[ls b1]|] eqn:Els; [|discriminate]
  end.
  unfold bind at 1 in E.
  match type of E with
  | match ?m with _ => _ end = _ => destruct m as [[lb b2]|]; [|discriminate]
  end.
  rewrite bind_rd in E. unfold bind at 1 in E.
  match type of E with
  | match ?m with _ => _ end = _ => destruct m as [[ai b3]|]; [|discriminate]
  end.
  injection E as <- _. split.
  - exact (times_length _ _ _ _ _ Els).
  - refine (times_Forall _ _ _ _ _ _ _ Els).
    intros b0 y b0' Ey. unfold read32, rd in Ey.
    pose proof (read32_range bytes b0) as Hy.
    destruct (Reader.read32 bytes b0) as [y0 b1']. now injection Ey as <- _.
Qed.

(** X9: a BinaryArray record of a rank up to 2^22 whose dimension lengths
    [ls] are not empty and add up to a total in [0, 2^32) allocates a
    composite with no member value and [total] member slots, all of the
    item type: the sum of the dimension lengths, not their product.  (Up to
    that rank the sum in doubles that the code forms is the exact sum.)
    The record has as many lengths as its rank says.  The composite is
    pushed on the stack and registered under its id; it is not appended to
    the members of the open composite, and no other composite changes. *)
Theorem binary_array_slots bytes st cur id ty rk ls lb it ai b' :
  expects_record st cur ->
  fst (Reader.read8 bytes (bit st)) = 7 ->
  decodeBinaryArray bytes (bit st + 8) = Ok ((id, ty, rk, ls, lb, it, ai), b') ->
  ls <> [] ->
  rk <= 2 ^ 22 ->
  0 <= fold_right Z.add 0 ls < 2 ^ 32 ->
  length ls = Z.to_nat rk /\
  exists st' arr,
    step bytes st = Continue st' /\
    heap st' = heap st ++ [arr] /\
    objectStack st' = length (heap st) :: objectStack st /\
    Table.get id (objects st') = Vobj (length (heap st)) /\
    references st' = references st /\
    memberValues arr = [] /\ rank arr = Some rk /\ lengths arr = Some ls /\
    memberTypes arr = Some (repeat it (Z.to_nat (fold_right Z.add 0 ls))) /\
    additionalInfos arr = Some (repeat ai (Z.to_nat (fold_right Z.add 0 ls))).
Proof.
  intros Hexp Htag Hdec Hne Hrk Htotal.
  destruct (decodeBinaryArray_lengths _ _ _ _ Hdec) as [Hlen Hls].
  split; [exact Hlen|].
  rewrite (step_expects_record _ _ _ Hexp), read_record_dispatch, Htag.
  cbn [dispatch]. unfold with_reader. simpl_state. rewrite Hdec.
  rewrite (reduce_sum_exact _ Hne Hls) by (rewrite Hlen; lia).
  destruct (Z.ltb_spec (fold_right Z.add 0 ls) 0); [lia|].
  destruct (Z.leb_spec (2 ^ 32) (fold_right Z.add 0 ls)); [lia|].
  cbn [orb]. eexists. eexists. split; [reflexivity|]. simpl_state.
  split; [reflexivity|]. split; [reflexivity|].
  split; [apply Table_get_set_eq|]. repeat split.
Qed.

Lemma binary_array_slots_witness :
  exists st st' arr,
    steps rectangular_array_stream 1 initial_state = Some st /\
    step rectangular_array_stream st = Continue st' /\
    heap st' = heap st ++ [arr] /\
    rank arr = Some 2 /\ lengths arr = Some [2; 3] /\
    memberTypes arr = Some [0; 0; 0; 0; 0].
Proof.
  eexists.
  match goal with
  | |- exists st' arr, steps _ _ _ = Some ?s /\ _ =>
      assert (steps rectangular_array_stream 1 initial_state = Some s) as Hsteps
        by (vm_compute; reflexivity);
      assert (expects_record s None) as Hexp by (now constructor);
      assert (fst (Reader.read8 rectangular_array_stream (bit s)) = 7) as Htag
        by (vm_compute; reflexivity);
      assert (decodeBinaryArray rectangular_array_stream (bit s + 8) =
              Ok ((1, 2, 2, [2; 3], [], 0, AInum 8), 296)) as Hdec
        by (vm_compute; reflexivity);
      destruct (binary_array_slots rectangular_array_stream s None
                  1 2 2 [2; 3] [] 0 (AInum 8) 296 Hexp Htag Hdec
                  ltac:(discriminate) ltac:(lia) ltac:(cbn; lia))
        as (_ & st' & arr & Hstep & Hheap & _ & _ & _ & _ & Hrank & Hlengths &
            Htypes & _)
  end.
  exists st', arr. split; [exact Hsteps|]. split; [exact Hstep|].
  split; [exact Hheap|]. split; [exact Hrank|].
  split; [exact Hlengths|exact Htypes].
Defined.

(** * Further properties of the member mapper *)

Lemma map_option_lookup {A B} (f : A -> option B) l l' :
  map_option f l = Some l' ->
  length l' = length l /\
  forall i x, l !! i = Some x -> f x = l' !! i.
Proof.
  revert l'. induction l as [|a l IH]; cbn [map_option]; intros l'.
  - intros [= <-]. split; [reflexivity|]. intros i x E. discriminate E.
  - destruct (f a) as [b|] eqn:Ea; [|discriminate].
    destruct (map_option f l) as [bs|]; [|discriminate].
    intros [= <-]. destruct (IH bs eq_refl) as [Hlen Hnth].
    split; [cbn; now rewrite Hlen|].
    intros [|i] x E; cbn in E |- *.
    + now injection E as <-.
    + now apply Hnth.
Qed.

Lemma map_option_total {A B} (f : A -> option B) l :
  (forall x, In x l -> exists y, f x = Some y) ->
  exists l', map_option f l = Some l'.
Proof.
  induction l as [|a l IH]; intros Hf; cbn [map_option].
  - now exists [].
  - destruct (Hf a (or_introl eq_refl)) as [b ->].
    destruct (IH (fun x Hx => Hf x (or_intror Hx))) as [bs ->].
    now exists (b :: bs).
Qed.

Lemma mapMembers_loop_total project names mv :
  (forall idx, exists r, project (nth idx mv Vundefined) = Some r) ->
  forall idx proto props,
    exists r, mapMembers_loop project names mv idx proto props = Some r.
Proof.
  intros Hproject.
  induction names as [|nm rest IH]; intros idx proto props; cbn [mapMembers_loop].
  - now eexists.
  - destruct (Hproject idx) as [v Hv]. rewrite Hv.
    destruct (collapses nm); [now exists v|].
    destruct (assign proto props nm v) as [proto' props']. apply IH.
Qed.

(** On a heap without cycles the projection returns, at every depth from
    [depth_for] on. *)
Lemma mapMembers_returns h lvl :
  acyclic h lvl ->
  forall depth v,
    (depth_for lvl v <= depth)%nat -> exists r, mapMembers depth h v = Some r.
Proof.
  intros Hacyclic. induction depth as [|depth IH]; intros v Hdepth.
  - destruct v; cbn in Hdepth; lia.
  - cbn [mapMembers]. destruct v; try (now eexists).
    destruct (h !! a) as [o|] eqn:Ho; [|now eexists].
    cbn [depth_for] in Hdepth.
    assert (forall v, In v (memberValues o) \/ v = Vundefined ->
                      exists r, mapMembers depth h v = Some r) as Hmembers.
    { intros v Hv. apply IH.
      destruct v; cbn [depth_for]; try lia.
      destruct Hv as [Hv | Hv]; [|discriminate Hv].
      pose proof (Hacyclic _ _ _ Ho Hv). lia. }
    assert (exists r,
              mapMembers_loop (mapMembers depth h)
                (match memberNames o with Some l => l | None => [] end)
                (memberValues o) 0 None [] = Some r) as Hloop.
    { apply mapMembers_loop_total. intros idx. apply Hmembers.
      destruct (nth_in_or_default idx (memberValues o) Vundefined); auto. }
    destruct (rank o) as [rk|]; [|exact Hloop].
    destruct (negb (rk =? 0)); [|exact Hloop].
    destruct (map_option_total (mapMembers depth h) (memberValues o)) as [elems ->].
    + intros v Hv. apply Hmembers. now left.
    + now eexists.
Qed.

(** X10: on a heap without cycles, a composite with a rank other than 0 (a
    BinaryArray record, or a ClassWithId copy of one) is projected, at
    every depth of recursion above its level, to an array with one element
    per member value, each the projection of that member value; member
    names play no part. *)
Theorem mapMembers_binary_array depth h lvl a o rk :
  h !! a = Some o -> rank o = Some rk -> rk <> 0 ->
  acyclic h lvl -> (lvl a < depth)%nat ->
  exists elems,
    mapMembers (S depth) h (Vobj a) = Some (Parray elems) /\
    length elems = length (memberValues o) /\
    forall i v, memberValues o !! i = Some v -> mapMembers depth h v = elems !! i.
Proof.
  intros Ho Hrank Hrk Hacyclic Hdepth.
  destruct (mapMembers_returns h lvl Hacyclic (S depth) (Vobj a)) as [r Hr];
    [cbn [depth_for]; lia|].
  revert Hr. cbn [mapMembers]. rewrite Ho, Hrank.
  destruct (Z.eqb_spec rk 0) as [|_]; [contradiction|]. cbn [negb].
  destruct (map_option (mapMembers depth h) (memberValues o)) as [elems|] eqn:E;
    [|discriminate].
  intros _. exists elems. split; [reflexivity|].
  exact (map_option_lookup _ _ _ E).
Qed.

Lemma mapMembers_binary_array_witness :
  exists elems,
    mapMembers 2 array_heap (Vobj O) = Some (Parray elems) /\
    elems = [Psimple (Vnum 10); Psimple (Vnum 20); Psimple (Vnum 30)] /\
    length elems = 3%nat.
Proof.
  assert (acyclic array_heap (fun _ => O)) as Hacyclic.
  { intros [|a] o b Ho Hin; [|discriminate Ho].
    injection Ho as <-. cbn in Hin.
    destruct Hin as [H | [H | [H | []]]]; discriminate H. }
  destruct (mapMembers_binary_array 1 array_heap (fun _ => O) O array_object 1
              eq_refl eq_refl ltac:(discriminate) Hacyclic ltac:(cbn; lia))
    as (elems & Hmap & Hlen & _).
  exists elems. split; [exact Hmap|]. split; [|exact Hlen].
  cbn in Hmap. now injection Hmap as <-.
Defined.

Lemma mapMembers_loop_None project names mv i :
  forall idx proto props,
    (i < length names)%nat ->
    Forall (fun nm => collapses nm = false) (take i names) ->
    project (nth (idx + i) mv Vundefined) = None ->
    mapMembers_loop project names mv idx proto props = None.
Proof.
  revert names. induction i as [|i IH]; intros [|nm rest] idx proto props Hlt Hnames Hnone;
    cbn in Hlt; try lia; cbn [mapMembers_loop].
  - rewrite Nat.add_0_r in Hnone. rewrite Hnone. now destruct (collapses nm).
  - cbn [firstn] in Hnames. apply List.Forall_cons_iff in Hnames as [-> Hnames].
    destruct (project (nth idx mv Vundefined)) as [v|]; [|reflexivity].
    destruct (assign proto props nm v) as [proto' props'].
    apply IH; [lia | exact Hnames |].
    now replace (S idx + i)%nat with (idx + S i)%nat by lia.
Qed.

(** X11: when a member of a class instance is that instance itself, and no
    member before it is named "_items" or "value__", [mapMembers] returns
    no value at any depth of recursion: in JavaScript the recursion only
    ends by exhausting the call stack. *)
Theorem mapMembers_self_reference h a o names i :
  h !! a = Some o -> rank o = None -> memberNames o = Some names ->
  (i < length names)%nat ->
  memberValues o !! i = Some (Vobj a) ->
  Forall (fun nm => collapses nm = false) (take i names) ->
  forall depth, mapMembers depth h (Vobj a) = None.
Proof.
  intros Ho Hrank Hnames Hlt Hself Hbefore depth.
  induction depth as [|depth IH]; [reflexivity|].
  cbn [mapMembers]. rewrite Ho, Hrank, Hnames.
  apply (mapMembers_loop_None _ _ _ i); [exact Hlt | exact Hbefore |].
  cbn [Nat.add]. rewrite (nth_lookup_Some _ _ _ _ Hself). exact IH.
Qed.

Lemma mapMembers_self_reference_witness :
  exists h,
    loop self_reference_stream 5 initial_state = Some (Ok (h, Vobj O)) /\
    forall depth, mapMembers depth h (Vobj O) = None.
Proof.
  eexists. split; [vm_compute; reflexivity|].
  match goal with
  | |- forall depth, mapMembers depth ?h _ = None =>
      exact (mapMembers_self_reference h O _ [lit "x"] O
               eq_refl eq_refl eq_refl ltac:(cbn; lia) eq_refl
               ltac:(constructor))
  end.
Defined.

(** * Parsing only appends *)

Lemma push_members_appends h c vs a o :
  h !! a = Some o ->
  exists ws, push_members h c vs !! a = Some (set_memberValues o (memberValues o ++ ws)).
Proof.
  intros Ho. unfold push_members. unfold addr in *.
  destruct (h !! c) as [oc|] eqn:Hc.
  - destruct (Nat.eq_dec a c) as [-> | Hne].
    + exists vs. rewrite list_lookup_insert_eq by (now apply lookup_lt_Some in Hc).
      rewrite Ho in Hc. now injection Hc as <-.
    + exists []. rewrite list_lookup_insert_ne by congruence.
      now rewrite app_nil_r, set_memberValues_same.
  - exists []. now rewrite app_nil_r, set_memberValues_same.
Qed.

Lemma step_appends bytes st st' a o :
  step bytes st = Continue st' -> heap st !! a = Some o ->
  exists vs, heap st' !! a = Some (set_memberValues o (memberValues o ++ vs)).
Proof.
  intros Hstep Ho.
  assert (heap st !! a = Some (set_memberValues o (memberValues o ++ []))) as Hsame
    by (now rewrite app_nil_r, set_memberValues_same).
  destruct (proj1 (step_effects _ _ _ Hstep))
    as [Hh _ | top below o0 types _ _ _ _ Hh _
        | top below o0 types vs _ Htop _ _ Hh _ _
        | cur new _ _ [Hh | Hh] _]; rewrite Hh.
  - now exists [].
  - now exists [].
  - unfold addr in *. destruct (Nat.eq_dec a top) as [-> | Hne].
    + exists vs. rewrite list_lookup_insert_eq by (now apply lookup_lt_Some in Htop).
      rewrite Ho in Htop. now injection Htop as <-.
    + exists []. now rewrite list_lookup_insert_ne by congruence.
  - destruct cur as [c|]; cbn [push_if_current].
    + apply push_members_appends. now apply lookup_app_l_Some.
    + exists []. now apply lookup_app_l_Some.
  - exists []. now apply lookup_app_l_Some.
Qed.

(** X13: parsing only appends.  A composite that is on the heap stays at
    its address whatever records follow; none of its fields changes except
    [memberValues], and that one only grows at its end.  So the slot index
    that a fix-up captured still denotes the same slot at MessageEnd. *)
Theorem parsing_only_appends bytes n st st' a o :
  steps bytes n st = Some st' -> heap st !! a = Some o ->
  exists vs, heap st' !! a = Some (set_memberValues o (memberValues o ++ vs)).
Proof.
  revert st'. induction n as [|n IH]; cbn [steps]; intros st' Hsteps Ho.
  - injection Hsteps as <-. exists [].
    now rewrite app_nil_r, set_memberValues_same.
  - destruct (steps bytes n st) as [st1|]; [|discriminate].
    destruct (step bytes st1) as [st2| |] eqn:Hstep; try discriminate.
    injection Hsteps as <-.
    destruct (IH st1 eq_refl Ho) as [vs1 H1].
    destruct (step_appends _ _ _ _ _ Hstep H1) as [vs2 H2].
    exists (vs1 ++ vs2). rewrite H2. cbn [memberValues set_memberValues].
    now rewrite set_memberValues_twice, app_assoc.
Qed.

Lemma parsing_only_appends_witness :
  exists st st' o,
    steps two_primitives_stream 2 initial_state = Some st /\
    steps two_primitives_stream 2 st = Some st' /\
    heap st !! O = Some o /\ memberValues o = [] /\
    exists vs, heap st' !! O = Some (set_memberValues o (memberValues o ++ vs)).
Proof.
  eexists. eexists. eexists.
  split; [vm_compute; reflexivity|].
  split; [vm_compute; reflexivity|].
  split; [vm_compute; reflexivity|]. split; [reflexivity|].
  match goal with
  | |- exists vs, heap ?s' !! _ = Some (set_memberValues ?o _) =>
      assert (exists s, steps two_primitives_stream 2 initial_state = Some s /\
                        steps two_primitives_stream 2 s = Some s' /\
                        heap s !! O = Some o) as (s & _ & Hsteps & Ho)
        by (eexists; split; [vm_compute; reflexivity|];
            split; vm_compute; reflexivity);
      exact (parsing_only_appends two_primitives_stream 2 s s' O o Hsteps Ho)
  end.
Defined.

(** * ArraySinglePrimitive records *)

Lemma deserializePrimitiveType_primitive bytes type :
  yields (fun v => is_primitive v = true) (deserializePrimitiveType bytes type).
Proof.
  destruct type as [| |n| |]; try (now apply yields_ret).
  case_number n
    ltac:(unfold deserializePrimitiveType, readDouble, readSingle;
          repeat first [ apply yields_throw
                       | apply yields_ret; reflexivity
                       | apply yields_bind; intros ? ]).
Qed.

(** X12: an ArraySinglePrimitive record that is read without an exception
    stores, under its id, an array with as many elements as its length
    field says (none when that is negative), each a primitive value.  The
    array is put neither on the stack nor among the members of the open
    composite: the heap, the stack and the queued fix-ups stay as they
    were, so the array can only be reached through a reference to its id. *)
Theorem array_single_primitive_registers bytes st cur st' :
  expects_record st cur ->
  fst (Reader.read8 bytes (bit st)) = 15 ->
  step bytes st = Continue st' ->
  heap st' = heap st /\ objectStack st' = objectStack st /\
  references st' = references st /\
  exists elems,
    objects st' =
      Table.set (fst (Reader.read32 bytes (bit st + 8))) (Varray elems) (objects st) /\
    length elems = Z.to_nat (fst (Reader.read32 bytes (bit st + 40))) /\
    Forall (fun v => is_primitive v = true) elems.
Proof.
  intros Hexp Htag.
  rewrite (step_expects_record _ _ _ Hexp), read_record_dispatch, Htag.
  cbn [dispatch]. unfold with_reader. simpl_state.
  unfold read32 at 1 2, read8. rewrite !bind_rd.
  rewrite !read32_snd, read8_snd.
  unfold bind.
  match goal with
  | |- match (match times ?n ?m ?b with _ => _ end) with _ => _ end = _ -> _ =>
      destruct (times n m b) as [[elems b1]|] eqn:E; [|discriminate]
  end.
  unfold ret. intros [= <-]. simpl_state.
  split; [reflexivity|]. split; [reflexivity|]. split; [reflexivity|].
  exists elems. split; [reflexivity|].
  replace (bit st + 8 + 32) with (bit st + 40) in E by lia.
  split; [exact (times_length _ _ _ _ _ E)|].
  exact (times_Forall _ _ _ (deserializePrimitiveType_primitive _ _) _ _ _ E).
Qed.

Lemma array_single_primitive_registers_witness :
  exists st st',
    steps primitive_array_stream 1 initial_state = Some st /\
    step primitive_array_stream st = Continue st' /\
    objects st' = [(5, Varray [Vnum 1; Vnum 2])] /\
    heap st' = heap st /\ objectStack st' = objectStack st /\
    references st' = references st /\
    exists elems,
      objects st' =
        Table.set (fst (Reader.read32 primitive_array_stream (bit st + 8)))
          (Varray elems) (objects st) /\
      length elems =
        Z.to_nat (fst (Reader.read32 primitive_array_stream (bit st + 40))) /\
      Forall (fun v => is_primitive v = true) elems.
Proof.
  eexists. eexists.
  split; [vm_compute; reflexivity|].
  split; [vm_compute; reflexivity|].
  split; [reflexivity|].
  match goal with
  | |- heap ?s' = heap ?s /\ _ =>
      exact (array_single_primitive_registers primitive_array_stream s None s'
               ltac:(now constructor) ltac:(vm_compute; reflexivity)
               ltac:(vm_compute; reflexivity))
  end.
Defined.

(** * The exceptions of [deserialize] *)

Lemma raises_ret {A} P (a : A) : raises P (ret a).
Proof. intros b e E. discriminate E. Qed.

Lemma raises_rd {A} P (f : Z -> A * Z) : raises P (rd f).
Proof. intros b e E. unfold rd in E. destruct (f b). discriminate E. Qed.

Lemma raises_throw {A} (P : exn -> Prop) e : P e -> raises P (@throw A e).
Proof. intros He b e' [= <-]. exact He. Qed.

Lemma raises_bind {A B} P (m : M A) (k : A -> M B) :
  raises P m -> (forall a, raises P (k a)) -> raises P (bind m k).
Proof.
  intros Hm Hk b e E. unfold bind in E.
  destruct (m b) as [[a b1]|e1] eqn:Em.
  - exact (Hk a b1 e E).
  - injection E as <-. exact (Hm b e1 Em).
Qed.

Lemma raises_times {A} P (m : M A) n : raises P m -> raises P (times n m).
Proof.
  intros Hm. induction n as [|n IH]; cbn [times].
  - apply raises_ret.
  - apply raises_bind; [exact Hm|]. intros x.
    apply raises_bind; [exact IH|]. intros xs. apply raises_ret.
Qed.

Lemma raises_no_throw {A} P (m : M A) : no_throw m -> raises P m.
Proof.
  intros Hm b e E. destruct (Hm b) as (a & b' & E'). congruence.
Qed.

Lemma deserializePrimitiveType_raises bytes type :
  raises raised_by_loop (deserializePrimitiveType bytes type).
Proof.
  destruct type as [| |n| |]; try apply raises_ret.
  case_number n
    ltac:(unfold deserializePrimitiveType, readDouble, readSingle;
          repeat first [ apply raises_throw; cbn; tauto
                       | apply raises_ret
                       | apply raises_rd
                       | apply raises_no_throw; unfold readLengthPrefixedString,
                           read8, read16, read32, read64; now repeat no_throw_step
                       | apply raises_bind; [|intros ?] ]).
Qed.

Lemma decodeBinaryArray_no_throw bytes : no_throw (decodeBinaryArray bytes).
Proof.
  unfold decodeBinaryArray, read32, read8. repeat no_throw_step.
  - destruct (2 <? _); repeat no_throw_step.
  - apply deserializeAdditionalTypeInfo_no_throw.
Qed.

Lemma deserializeBinaryLibrary_no_throw bytes :
  no_throw (deserializeBinaryLibrary bytes).
Proof.
  unfold deserializeBinaryLibrary, read32, readLengthPrefixedString.
  repeat no_throw_step.
Qed.

Lemma dispatch_known_or_default record :
  In record [0; 1; 4; 5; 6; 7; 9; 10; 11; 12; 13; 15] \/
  ~ In record [0; 1; 4; 5; 6; 7; 9; 10; 11; 12; 13; 15] /\
  forall bytes cur st, dispatch bytes record cur st = Throw (Unable_record record).
Proof.
  case_number record
    ltac:(first [ left; cbn; tauto
                | right; split; [cbn; intuition discriminate | reflexivity] ]).
Qed.

Ltac reader_no_throw H :=
  unfold with_reader;
  match goal with
  | |- match ?m ?b with _ => _ end = _ -> _ =>
      let E := fresh "E" in
      destruct (H b) as (? & ? & E); rewrite E
  end.

Lemma dispatch_raises bytes record cur st e :
  dispatch bytes record cur st = Throw e -> raised_by_loop e.
Proof.
  destruct (dispatch_known_or_default record) as [Hin | [Hnot E]].
  - cbn [In] in Hin.
    repeat destruct Hin as [<- | Hin]; try contradiction; cbn [dispatch].
    + reader_no_throw (deserializeHeader_no_throw bytes). discriminate.
    + unfold with_reader, read32. rewrite !bind_rd. unfold ret. discriminate.
    + reader_no_throw (deserializeClassWithMembersAndTypes_no_throw bytes (4 =? 4)).
      discriminate.
    + reader_no_throw (deserializeClassWithMembersAndTypes_no_throw bytes (5 =? 4)).
      discriminate.
    + reader_no_throw (deserializeBinaryObjectString_no_throw bytes).
      destruct cur; [discriminate|]. now intros [= <-].
    + unfold with_reader.
      destruct (decodeBinaryArray_no_throw bytes (bit st))
        as ([[[[[[id ty] rk] ls] lb] it] ai] & b & E).
      rewrite E.
      destruct (reduce_sum ls); [|now intros [= <-]].
      destruct (_ || _); [now intros [= <-] | discriminate].
    + unfold with_reader, deserializeMemberReference, read32, rd.
      destruct (Reader.read32 _ _). destruct cur; [discriminate|]. now intros [= <-].
    + destruct cur; [discriminate|]. now intros [= <-].
    + discriminate.
    + reader_no_throw (deserializeBinaryLibrary_no_throw bytes). discriminate.
    + unfold with_reader, read8, rd. destruct (Reader.read8 _ _).
      destruct cur; [discriminate|]. now intros [= <-].
    + unfold with_reader.
      match goal with
      | |- match ?m ?b with _ => _ end = _ -> _ =>
          destruct (m b) as [[r b1]|e1] eqn:Em; [discriminate|]
      end.
      intros [= <-]. revert Em. apply raises_bind; [apply raises_rd|]. intros ?.
      apply raises_bind; [apply raises_rd|]. intros ?.
      apply raises_bind; [apply raises_rd|]. intros ?.
      apply raises_bind; [|intros ?; apply raises_ret].
      apply raises_times, deserializePrimitiveType_raises.
  - rewrite E. now intros [= <-].
Qed.

Lemma step_raises bytes st e : step bytes st = Throw e -> raised_by_loop e.
Proof.
  unfold step.
  assert (forall cur, read_record bytes cur st = Throw e -> raised_by_loop e) as Hrec.
  { intros cur. rewrite read_record_dispatch. apply dispatch_raises. }
  destruct (objectStack st) as [|a below]; [apply Hrec|].
  destruct (heap st !! a) as [o|]; [|now intros [= <-]].
  destruct (memberTypes o) as [types|]; [|now intros [= <-]].
  destruct (_ <? _)%nat; [|discriminate].
  destruct (_ =? 0); [|apply Hrec].
  destruct (additionalInfos o) as [infos|]; [|now intros [= <-]].
  unfold with_reader.
  destruct (deserializePrimitiveType _ _ _) as [[v b]|e1] eqn:Ev; [discriminate|].
  intros [= <-]. exact (deserializePrimitiveType_raises _ _ _ _ Ev).
Qed.

Lemma loop_raises bytes fuel st e :
  loop bytes fuel st = Some (Err e) -> raised_by_loop e.
Proof.
  revert st. induction fuel as [|fuel IH]; intros st; cbn [loop]; [discriminate|].
  destruct (step bytes st) as [st'|h c|e1] eqn:Hstep.
  - apply IH.
  - discriminate.
  - intros [= <-]. exact (step_raises _ _ _ Hstep).
Qed.

(** X14: the exceptions of [deserialize].  When the string is empty or its
    first code unit is not 0, the only exception is "Unable to
    deserialize.".  Otherwise that one is never thrown, and an exception is
    "Unmapped primitive 0.", "Unmapped primitive 4.", "unable to deserialize
    record of type N." for a tag N without a case in the [switch], or an
    error of the engine (TypeError, RangeError). *)
Theorem deserialize_exceptions str fuel depth e :
  deserialize fuel depth str = Some (Err e) ->
  match str with
  | 0 :: _ => raised_by_loop e
  | _ => e = Unable_to_deserialize
  end.
Proof.
  unfold deserialize.
  destruct str as [|c rest]; [now intros [= <-]|].
  destruct c as [|p|p]; cbn [bitReader]; try (now intros [= <-]).
  destruct (loop (0 :: rest) fuel initial_state) as [[[h root]|e1]|] eqn:Hloop.
  - destruct (mapMembers depth h root); discriminate.
  - intros [= <-]. exact (loop_raises _ _ _ _ Hloop).
  - discriminate.
Qed.

Lemma deserialize_exceptions_witness :
  deserialize 2 10 class_without_types_stream = Some (Err (Unable_record 2)) /\
  raised_by_loop (Unable_record 2) /\
  (deserialize 2 10 (lit "AAEAAAD") = Some (Err Unable_to_deserialize) /\
   Unable_to_deserialize = Unable_to_deserialize).
Proof.
  split; [vm_compute; reflexivity|]. split.
  - exact (deserialize_exceptions class_without_types_stream 2 10 (Unable_record 2)
             ltac:(vm_compute; reflexivity)).
  - split; [vm_compute; reflexivity|].
    exact (deserialize_exceptions (lit "AAEAAAD") 2 10 Unable_to_deserialize
             ltac:(vm_compute; reflexivity)).
Defined.

(** * Where a result comes from *)

Lemma dispatch_Finish bytes record cur st h c :
  dispatch bytes record cur st = Finish h c ->
  record = 11 /\
  h = run_fixups (objects st) (references st) (heap st) /\
  c = hd Vundefined (Table.values (objects st)).
Proof.
  destruct (dispatch_known_or_default record) as [Hin | [_ E]];
    [|rewrite E; discriminate].
  cbn [In] in Hin.
  repeat destruct Hin as [<- | Hin]; try contradiction; cbn [dispatch];
    try (now intros [= <- <-]);
    unfold with_reader;
    repeat match goal with
           | |- context [match ?x with _ => _ end] => destruct x
           end;
    discriminate.
Qed.

Lemma step_Finish bytes st h c :
  step bytes st = Finish h c ->
  exists cur,
    expects_record st cur /\ fst (Reader.read8 bytes (bit st)) = 11 /\
    h = run_fixups (objects st) (references st) (heap st) /\
    c = hd Vundefined (Table.values (objects st)).
Proof.
  unfold step.
  destruct (objectStack st) as [|a below] eqn:Hs.
  - rewrite read_record_dispatch. intros E.
    exists None. split; [now constructor|].
    exact (dispatch_Finish _ _ _ _ _ _ E).
  - destruct (heap st !! a) as [o|] eqn:Ha; [|discriminate].
    destruct (memberTypes o) as [types|] eqn:Ht; [|discriminate].
    destruct (Nat.ltb_spec (length (memberValues o)) (length types)) as [Hlt | Hge];
      [|discriminate].
    destruct (Z.eqb_spec (nth (length (memberValues o)) types 0) 0) as [Hprim | Hrec].
    + destruct (additionalInfos o) as [infos|]; [|discriminate].
      unfold with_reader. destruct (deserializePrimitiveType _ _ _) as [[v b]|];
        discriminate.
    + rewrite read_record_dispatch. intros E.
      exists (Some a). split; [econstructor; eauto|].
      exact (dispatch_Finish _ _ _ _ _ _ E).
Qed.

Lemma loop_Ok bytes fuel st h c :
  loop bytes fuel st = Some (Ok (h, c)) ->
  exists n st',
    (n < fuel)%nat /\ steps bytes n st = Some st' /\ step bytes st' = Finish h c.
Proof.
  revert st. induction fuel as [|fuel IH]; intros st; cbn [loop]; [discriminate|].
  destruct (step bytes st) as [st1|h1 c1|e1] eqn:Hstep.
  - intros E. destruct (IH _ E) as (n & st' & Hn & Hsteps & Hfin).
    exists (S n), st'. split; [lia|]. split; [|exact Hfin].
    now rewrite steps_head, Hstep.
  - intros [= <- <-]. exists O, st. split; [lia|]. now split.
  - discriminate.
Qed.

(** X16: [deserialize] returns a value only at a MessageEnd record.  When
    it returns, some number of iterations below the fuel led from the start
    to a state whose next byte is read as a record tag and is 0x0B, and the
    value is the projection of the first [Object.values] entry of that
    state's object table, over the heap with that state's fix-ups run. *)
Theorem result_only_at_message_end str fuel depth r :
  deserialize fuel depth str = Some (Ok r) ->
  exists n st cur,
    (n < fuel)%nat /\ steps str n initial_state = Some st /\
    expects_record st cur /\ fst (Reader.read8 str (bit st)) = 11 /\
    mapMembers depth (run_fixups (objects st) (references st) (heap st))
      (hd Vundefined (Table.values (objects st))) = Some r.
Proof.
  unfold deserialize.
  destruct (bitReader str) as [bytes|e] eqn:Hrd; [|discriminate].
  assert (bytes = str) as ->.
  { destruct str as [|[|p|p] rest]; cbn in Hrd; congruence. }
  destruct (loop str fuel initial_state) as [[[h c]|e1]|] eqn:Hloop; try discriminate.
  destruct (loop_Ok _ _ _ _ _ Hloop) as (n & st & Hn & Hsteps & Hfin).
  destruct (step_Finish _ _ _ _ Hfin) as (cur & Hexp & Htag & -> & ->).
  destruct (mapMembers depth _ _) as [r'|] eqn:Hmap; [|discriminate].
  intros [= <-]. exists n, st, cur. auto.
Qed.

Lemma result_only_at_message_end_witness :
  exists r n st cur,
    deserialize 6 10 two_primitives_stream = Some (Ok r) /\
    (n < 6)%nat /\ steps two_primitives_stream n initial_state = Some st /\
    expects_record st cur /\
    fst (Reader.read8 two_primitives_stream (bit st)) = 11 /\
    mapMembers 10 (run_fixups (objects st) (references st) (heap st))
      (hd Vundefined (Table.values (objects st))) = Some r.
Proof.
  eexists.
  match goal with
  | |- exists n st cur, deserialize _ _ _ = Some (Ok ?r) /\ _ =>
      assert (deserialize 6 10 two_primitives_stream = Some (Ok r)) as Hres
        by (vm_compute; reflexivity);
      destruct (result_only_at_message_end two_primitives_stream 6 10 r Hres)
        as (n & st & cur & H)
  end.
  exists n, st, cur. split; [exact Hres | exact H].
Defined.

(** * The returned tree holds no placeholder *)

Lemma primitive_placeholder_free v :
  is_primitive v = true -> placeholder_free_value v = true.
Proof. now destruct v. Qed.

Lemma values_inv_push_members h objs a vs :
  values_inv h objs ->
  Forall (fun v => is_ref v || placeholder_free_value v = true) vs ->
  values_inv (push_members h a vs) objs.
Proof.
  intros [Hm He] Hvs. split; [|exact He]. unfold push_members.
  destruct (h !! a) as [o|] eqn:Ho; [|exact Hm].
  apply Forall_insert; [exact Hm|]. cbn [memberValues set_memberValues].
  apply Forall_app. split; [|exact Hvs].
  exact (Forall_lookup_1 _ _ _ _ Hm Ho).
Qed.

Lemma values_inv_push_if_current h objs cur a :
  values_inv h objs -> values_inv (push_if_current cur (Vobj a) h) objs.
Proof.
  intros Hinv. destruct cur as [c|]; [|exact Hinv].
  apply values_inv_push_members; [exact Hinv | now repeat constructor].
Qed.

Lemma values_inv_alloc h objs new :
  values_inv h objs -> memberValues new = [] -> values_inv (h ++ [new]) objs.
Proof.
  intros [Hm He] Hnew. split; [|exact He].
  apply Forall_app. split; [exact Hm|]. constructor; [|constructor].
  rewrite Hnew. constructor.
Qed.

Lemma values_inv_table h objs k v :
  values_inv h objs -> placeholder_free_value v = true ->
  values_inv h (Table.set k v objs).
Proof.
  intros [Hm He] Hv. split; [exact Hm|].
  intros k' v' Hin. apply Table_set_In in Hin as [[= -> ->] | Hin]; eauto.
Qed.

Lemma values_inv_dispatch bytes record cur st st' :
  values_inv (heap st) (objects st) ->
  dispatch bytes record cur st = Continue st' ->
  values_inv (heap st') (objects st').
Proof.
  intros Hinv.
  destruct (dispatch_known_or_default record) as [Hin | [_ E]];
    [|rewrite E; discriminate].
  cbn [In] in Hin.
  repeat destruct Hin as [<- | Hin]; try contradiction;
    cbn [dispatch]; unfold with_reader.
  - destruct (deserializeHeader _ _) as [[r b]|]; [|discriminate].
    intros [= <-]. exact Hinv.
  - destruct (bind _ _ _) as [[[objectId metadataId] b]|]; [|discriminate].
    intros [= <-]. simpl_state.
    apply values_inv_table; [|reflexivity].
    apply values_inv_push_if_current. now apply values_inv_alloc.
  - destruct (deserializeClassWithMembersAndTypes _ _ _) as [[cls b]|] eqn:E;
      [|discriminate].
    intros [= <-]. simpl_state.
    apply values_inv_table; [|reflexivity].
    apply values_inv_push_if_current. apply values_inv_alloc; [exact Hinv|].
    exact (proj1 (deserializeClassWithMembersAndTypes_shape _ _ _ _ _ E)).
  - destruct (deserializeClassWithMembersAndTypes _ _ _) as [[cls b]|] eqn:E;
      [|discriminate].
    intros [= <-]. simpl_state.
    apply values_inv_table; [|reflexivity].
    apply values_inv_push_if_current. apply values_inv_alloc; [exact Hinv|].
    exact (proj1 (deserializeClassWithMembersAndTypes_shape _ _ _ _ _ E)).
  - destruct (deserializeBinaryObjectString _ _) as [[bos b]|]; [|discriminate].
    destruct cur as [a|]; [|discriminate].
    intros [= <-]. simpl_state.
    apply values_inv_push_members; [|now repeat constructor].
    now apply values_inv_table.
  - destruct (decodeBinaryArray _ _) as [[[[[[[[id ty] rk] ls] lb] it] ai] b]|];
      [|discriminate].
    destruct (reduce_sum ls) as [totalLength|]; [|discriminate].
    destruct (_ || _); [discriminate|].
    intros [= <-]. simpl_state.
    apply values_inv_table; [|reflexivity]. now apply values_inv_alloc.
  - destruct (deserializeMemberReference _ _) as [[reference b]|]; [|discriminate].
    destruct cur as [a|]; [|discriminate].
    intros [= <-]. simpl_state.
    apply values_inv_push_members; [exact Hinv | now repeat constructor].
  - destruct cur as [a|]; [|discriminate].
    intros [= <-]. simpl_state.
    apply values_inv_push_members; [exact Hinv | now repeat constructor].
  - discriminate.
  - destruct (deserializeBinaryLibrary _ _) as [[lib b]|]; [|discriminate].
    intros [= <-]. exact Hinv.
  - unfold read8, rd. destruct (Reader.read8 _ _) as [nullCount b].
    destruct cur as [a|]; [|discriminate].
    intros [= <-]. simpl_state.
    apply values_inv_push_members; [exact Hinv|].
    generalize (Z.to_nat nullCount). intros n.
    induction n; cbn; now constructor.
  - destruct (bind _ _ _) as [[[arrayObjectId array] b]|] eqn:E; [|discriminate].
    intros [= <-]. simpl_state. cbn [fst snd].
    apply values_inv_table; [exact Hinv|]. cbn [placeholder_free_value].
    apply forallb_forall. intros v Hv.
    apply primitive_placeholder_free.
    assert (Forall (fun v => is_primitive v = true) array) as Hall.
    { revert E. unfold read32, read8. rewrite !bind_rd. unfold bind.
      match goal with
      | |- match times ?n ?m ?b0 with _ => _ end = _ -> _ =>
          destruct (times n m b0) as [[elems b1]|] eqn:Et; [|discriminate]
      end.
      intros [= _ <- _].
      exact (times_Forall _ _ _ (deserializePrimitiveType_primitive _ _) _ _ _ Et). }
    rewrite List.Forall_forall in Hall. now apply Hall.
Qed.

Lemma values_inv_step bytes st st' :
  values_inv (heap st) (objects st) ->
  step bytes st = Continue st' ->
  values_inv (heap st') (objects st').
Proof.
  intros Hinv. unfold step.
  assert (forall cur, read_record bytes cur st = Continue st' ->
                      values_inv (heap st') (objects st')) as Hrec.
  { intros cur. rewrite read_record_dispatch. now apply values_inv_dispatch. }
  destruct (objectStack st) as [|a below]; [apply Hrec|].
  destruct (heap st !! a) as [o|]; [|discriminate].
  destruct (memberTypes o) as [types|]; [|discriminate].
  destruct (_ <? _)%nat; [|intros [= <-]; exact Hinv].
  destruct (_ =? 0); [|apply Hrec].
  destruct (additionalInfos o) as [infos|]; [|discriminate].
  unfold with_reader.
  destruct (deserializePrimitiveType _ _ _) as [[v b]|] eqn:Ev; [|discriminate].
  intros [= <-]. simpl_state.
  apply values_inv_push_members; [exact Hinv|].
  constructor; [|constructor].
  rewrite (primitive_placeholder_free _ (deserializePrimitiveType_primitive _ _ _ _ _ Ev)).
  apply orb_true_r.
Qed.

Lemma steps_values_inv bytes n st :
  steps bytes n initial_state = Some st -> values_inv (heap st) (objects st).
Proof.
  revert st. induction n as [|n IH]; cbn [steps]; intros st.
  - intros [= <-]. split; cbn; [constructor | contradiction].
  - destruct (steps bytes n initial_state) as [st1|]; [|discriminate].
    destruct (step bytes st1) as [st2| |] eqn:Hstep; try discriminate.
    intros [= <-]. eapply values_inv_step; eauto.
Qed.

Lemma Table_get_placeholder_free objs id :
  (forall k v, In (k, v) objs -> placeholder_free_value v = true) ->
  placeholder_free_value (Table.get id objs) = true.
Proof.
  intros He. destruct (Table_get_In id objs) as [-> | Hin]; [reflexivity|].
  exact (He _ _ Hin).
Qed.

Lemma run_fixups_placeholder_free h refs objs :
  refs_inv h refs objs -> values_inv h objs ->
  Forall (fun o => Forall (fun v => placeholder_free_value v = true) (memberValues o))
    (run_fixups objs refs h).
Proof.
  intros Hrefs [Hm He]. rewrite (run_fixups_resolve _ _ _ Hrefs).
  apply Forall_map. eapply Forall_impl; [exact Hm|].
  intros o Ho. cbn. apply Forall_map. eapply Forall_impl; [exact Ho|].
  intros v Hv. cbn. destruct v; try exact Hv; try reflexivity.
  now apply Table_get_placeholder_free.
Qed.

Lemma Table_values_In t v :
  In v (Table.values t) -> exists k, In (k, v) t.
Proof.
  unfold Table.values, Table.own_entries. intros Hin.
  apply in_map_iff in Hin as ([k v'] & <- & Hin). exists k. cbn.
  apply in_app_or in Hin as [Hin | Hin].
  - apply (proj1 (sort_by_key_In _ _)) in Hin. now apply filter_In in Hin.
  - now apply filter_In in Hin.
Qed.

Lemma root_placeholder_free objs :
  (forall k v, In (k, v) objs -> placeholder_free_value v = true) ->
  placeholder_free_value (hd Vundefined (Table.values objs)) = true.
Proof.
  intros He. destruct (Table.values objs) as [|v vs] eqn:E; [reflexivity|].
  destruct (Table_values_In objs v) as [k Hin]; [rewrite E; now left|].
  exact (He _ _ Hin).
Qed.

Lemma map_option_Forall {A B} (f : A -> option B) (Q : B -> Prop) l l' :
  (forall x y, In x l -> f x = Some y -> Q y) ->
  map_option f l = Some l' -> Forall Q l'.
Proof.
  revert l'. induction l as [|a l IH]; cbn [map_option]; intros l' Hf.
  - intros [= <-]. constructor.
  - destruct (f a) as [b|] eqn:Ea; [|discriminate].
    destruct (map_option f l) as [bs|]; [|discriminate].
    intros [= <-]. constructor.
    + apply (Hf a b); [now left | exact Ea].
    + apply IH; [|reflexivity]. intros x y Hx. apply Hf. now right.
Qed.

Lemma Props_set_Forall (Q : pvalue -> Prop) k v props :
  Q v -> Forall (fun kv => Q (snd kv)) props ->
  Forall (fun kv => Q (snd kv)) (Props.set k v props).
Proof.
  intros Hv. induction 1 as [|[k' v'] props Hkv Hprops IH]; cbn [Props.set].
  - now repeat constructor.
  - destruct (bool_decide (k = k')); constructor; auto.
Qed.

Lemma mapMembers_loop_placeholder_free project names mv :
  (forall v r, placeholder_free_value v = true -> project v = Some r ->
               placeholder_free r) ->
  Forall (fun v => placeholder_free_value v = true) mv ->
  forall idx proto props r,
    (forall p, proto = Some p -> placeholder_free p) ->
    Forall (fun kv => placeholder_free (snd kv)) props ->
    mapMembers_loop project names mv idx proto props = Some r ->
    placeholder_free r.
Proof.
  intros Hproject Hmv.
  assert (forall idx, placeholder_free_value (nth idx mv Vundefined) = true) as Hnth.
  { intros idx. destruct (nth_in_or_default idx mv Vundefined) as [Hin | ->];
      [|reflexivity].
    rewrite List.Forall_forall in Hmv. now apply Hmv. }
  induction names as [|nm rest IH]; intros idx proto props r Hproto Hprops;
    cbn [mapMembers_loop].
  - intros [= <-]. now constructor.
  - destruct (collapses nm).
    + apply Hproject, Hnth.
    + destruct (project (nth idx mv Vundefined)) as [v|] eqn:Ev; [|discriminate].
      pose proof (Hproject _ _ (Hnth idx) Ev) as Hv.
      unfold assign.
      destruct (_ && _ && _).
      * destruct (object_or_null v); apply IH; auto.
        intros p [= <-]. exact Hv.
      * apply IH; [exact Hproto|]. now apply Props_set_Forall.
Qed.

Lemma mapMembers_placeholder_free h :
  Forall (fun o => Forall (fun v => placeholder_free_value v = true) (memberValues o)) h ->
  forall depth v r,
    placeholder_free_value v = true -> mapMembers depth h v = Some r ->
    placeholder_free r.
Proof.
  intros Hh. induction depth as [|depth IH]; intros v r Hv; cbn [mapMembers];
    [discriminate|].
  destruct v; try (intros [= <-]; now constructor).
  destruct (h !! a) as [o|] eqn:Ho; [|intros [= <-]; now constructor].
  pose proof (Forall_lookup_1 _ _ _ _ Hh Ho) as Hmv.
  assert (mapMembers_loop (mapMembers depth h)
            (match memberNames o with Some l => l | None => [] end)
            (memberValues o) 0 None [] = Some r -> placeholder_free r) as Hloop.
  { apply mapMembers_loop_placeholder_free; auto. intros p E. discriminate E. }
  destruct (rank o) as [rk|]; [|exact Hloop].
  destruct (negb (rk =? 0)); [|exact Hloop].
  destruct (map_option _ _) as [elems|] eqn:E; [|discriminate].
  intros [= <-]. constructor.
  apply (map_option_Forall _ _ _ _ (fun x y Hx => IH x y
           (proj1 (List.Forall_forall _ _) Hmv x Hx)) E).
Qed.

(** X17: the tree that [deserialize] returns holds no placeholder
    [{ref: id}]: not as a leaf, an array element, a property value or a
    prototype.  Every placeholder has been replaced by the entry of the
    object table (by [undefined] when the id is absent) before the
    projection. *)
Theorem result_holds_no_placeholder str fuel depth r :
  deserialize fuel depth str = Some (Ok r) -> placeholder_free r.
Proof.
  unfold deserialize.
  destruct (bitReader str) as [bytes|e]; [|discriminate].
  destruct (loop bytes fuel initial_state) as [[[h c]|e1]|] eqn:Hloop; try discriminate.
  destruct (loop_Ok _ _ _ _ _ Hloop) as (n & st & _ & Hsteps & Hfin).
  destruct (step_Finish _ _ _ _ Hfin) as (cur & _ & _ & -> & ->).
  pose proof (steps_refs_inv _ _ _ Hsteps) as Hrefs.
  pose proof (steps_values_inv _ _ _ Hsteps) as Hvals.
  destruct (mapMembers depth _ _) as [r'|] eqn:Hmap; [|discriminate].
  intros [= <-].
  apply (mapMembers_placeholder_free _
           (run_fixups_placeholder_free _ _ _ Hrefs Hvals) _ _ _
           (root_placeholder_free _ (inv_entries _ _ Hvals)) Hmap).
Qed.

Lemma result_holds_no_placeholder_witness :
  exists r,
    deserialize 10 10 reference_stream = Some (Ok r) /\ placeholder_free r.
Proof.
  eexists.
  match goal with
  | |- deserialize _ _ _ = Some (Ok ?r) /\ _ =>
      assert (deserialize 10 10 reference_stream = Some (Ok r)) as Hres
        by (vm_compute; reflexivity)
  end.
  split; [exact Hres|].
  exact (result_holds_no_placeholder reference_stream 10 10 _ Hres).
Defined.

(** * Class records *)

(** X15: a class record (tag 0x04 or 0x05) read where a record is expected
    never throws.  It allocates a composite without member values and
    without rank, whose member names, member types and additional infos are
    arrays of one length; the composite is pushed on the stack, registered
    under its id and, when a composite is open, appended to that one's
    member values. *)
Theorem class_record_allocates bytes st cur :
  expects_record st cur ->
  In (fst (Reader.read8 bytes (bit st))) [4; 5] ->
  exists st' cls names types infos,
    step bytes st = Continue st' /\
    heap st' = push_if_current cur (Vobj (length (heap st))) (heap st ++ [cls]) /\
    objectStack st' = length (heap st) :: objectStack st /\
    Table.get (objectId cls) (objects st') = Vobj (length (heap st)) /\
    references st' = references st /\
    memberValues cls = [] /\ rank cls = None /\
    memberNames cls = Some names /\ memberTypes cls = Some types /\
    additionalInfos cls = Some infos /\
    length names = length types /\ length infos = length types /\
    forall a o, cur = Some a -> heap st !! a = Some o ->
      heap st' !! a =
        Some (set_memberValues o (memberValues o ++ [Vobj (length (heap st))])).
Proof.
  intros Hexp Htag.
  rewrite (step_expects_record _ _ _ Hexp), read_record_dispatch.
  assert (exists isSystem,
            dispatch bytes (fst (Reader.read8 bytes (bit st))) cur
              (set_bit st (bit st + 8)) =
            with_reader (deserializeClassWithMembersAndTypes bytes isSystem)
              (set_bit st (bit st + 8)) (fun cls st =>
                 let a := length (heap st) in
                 let h := push_if_current cur (Vobj a) (heap st ++ [cls]) in
                 Continue (set_objects (set_objectStack (set_heap st h)
                                          (a :: objectStack st))
                             (Table.set (objectId cls) (Vobj a) (objects st)))))
    as [isSystem ->].
  { cbn [In] in Htag. destruct Htag as [<- | [<- | []]]; eexists; reflexivity. }
  unfold with_reader. simpl_state.
  destruct (deserializeClassWithMembersAndTypes_no_throw bytes isSystem (bit st + 8))
    as (cls & b & E).
  rewrite E.
  destruct (deserializeClassWithMembersAndTypes_shape _ _ _ _ _ E)
    as (Hmv & Hrank & names & types & infos & Hn & Ht & Hi & Hlen1 & Hlen2).
  eexists. exists cls, names, types, infos.
  split; [reflexivity|]. simpl_state.
  split; [reflexivity|]. split; [reflexivity|].
  split; [apply Table_get_set_eq|]. split; [reflexivity|].
  repeat (split; [assumption|]).
  intros a o -> Ho. cbn [push_if_current].
  rewrite (push_members_Some _ _ o).
  - apply list_lookup_insert_eq. rewrite length_app.
    apply lookup_lt_Some in Ho. lia.
  - now apply lookup_app_l_Some.
Qed.

Lemma class_record_allocates_witness :
  exists st st' o,
    steps nested_class_stream 2 initial_state = Some st /\
    heap st !! O = Some o /\ memberValues o = [] /\
    step nested_class_stream st = Continue st' /\
    heap st' !! O = Some (set_memberValues o [Vobj 1%nat]).
Proof.
  eexists.
  match goal with
  | |- exists st' o, steps _ _ _ = Some ?s /\ _ =>
      assert (steps nested_class_stream 2 initial_state = Some s) as Hsteps
        by (vm_compute; reflexivity);
      assert (exists o, heap s !! O = Some o /\ memberValues o = []) as (o & Ho & Hmv)
        by (eexists; split; [vm_compute; reflexivity | reflexivity]);
      assert (expects_record s (Some O)) as Hexp
        by (eapply expects_for_member;
            [reflexivity | reflexivity | reflexivity | cbn; lia | discriminate]);
      assert (In (fst (Reader.read8 nested_class_stream (bit s))) [4; 5]) as Htag
        by (vm_compute; tauto);
      destruct (class_record_allocates nested_class_stream s (Some O) Hexp Htag)
        as (st' & cls & names & types & infos & Hstep & _ & _ & _ & _ & _ & _ &
            _ & _ & _ & _ & _ & Hparent)
  end.
  exists st', o. split; [exact Hsteps|]. split; [exact Ho|].
  split; [exact Hmv|]. split; [exact Hstep|].
  pose proof (Hparent O o eq_refl Ho) as Hnew. rewrite Hmv in Hnew. exact Hnew.
Defined.

(** * The range of a read *)

(** X18: [read(bits)] with a width from 0 to 31 returns a number from 0
    to [2^bits - 1] and advances the cursor by [bits], whatever the cursor
    (aligned or not, inside the input or past its end) and whatever the
    code units of the input.  So a [read16], which decodes an int16 member,
    never returns a negative number. *)
Theorem read_is_unsigned bytes bits bit :
  0 <= bits <= 31 ->
  0 <= fst (Reader.read bytes bits bit) < 2 ^ bits /\
  snd (Reader.read bytes bits bit) = bit + bits.
Proof.
  intros Hbits. unfold Reader.read. cbn [fst snd]. split; [|reflexivity].
  unfold JS.band, JS.pow2_minus1.
  destruct (Z.ltb_spec bits 0); [lia|].
  destruct (Z.leb_spec bits 53); [|lia].
  assert (0 < 2 ^ bits <= 2 ^ 31) as Hpow.
  { split; [apply Z.pow_pos_nonneg; lia|]. apply Z.pow_le_mono_r; lia. }
  rewrite (ToInt32_small (2 ^ bits - 1)) by lia.
  replace (2 ^ bits - 1) with (Z.ones bits) by (rewrite Z.ones_equiv; lia).
  rewrite Z.land_ones by lia.
  apply Z.mod_pos_bound. lia.
Qed.

Lemma read_is_unsigned_witness :
  Reader.read16 [0; 255; 255] 8 = (65535, 24) /\
  (0 <= fst (Reader.read [0; 255; 255] 16 8) < 2 ^ 16 /\
   snd (Reader.read [0; 255; 255] 16 8) = 8 + 16).
Proof.
  split; [vm_compute; reflexivity|].
  exact (read_is_unsigned [0; 255; 255] 16 8 ltac:(lia)).
Defined.

(** * MessageEnd: the fix-ups, the root and dangling references *)

Lemma steps_from bytes m n st0 st_m st :
  (m <= n)%nat ->
  steps bytes m st0 = Some st_m -> steps bytes n st0 = Some st ->
  exists k, steps bytes k st_m = Some st.
Proof.
  intros Hle Hm. revert st. induction n as [|n IH]; intros st Hn.
  - replace m with O in Hm by lia. cbn in Hm, Hn. exists O. cbn. congruence.
  - destruct (Nat.eq_dec m (S n)) as [-> | Hne].
    + exists O. cbn [steps]. congruence.
    + cbn [steps] in Hn.
      destruct (steps bytes n st0) as [st1|]; [|discriminate].
      destruct (IH ltac:(lia) st1 eq_refl) as [k Hk].
      exists (S k). cbn [steps]. now rewrite Hk.
Qed.

(** An iteration leaves the queue of fix-ups as it is or appends one
    fix-up at its end. *)
Lemma dispatch_queue bytes record cur st st' :
  dispatch bytes record cur st = Continue st' ->
  exists later, references st' = references st ++ later.
Proof.
  destruct (dispatch_known_or_default record) as [Hin | [_ E]];
    [|rewrite E; discriminate].
  cbn [In] in Hin.
  repeat destruct Hin as [<- | Hin]; try contradiction; cbn [dispatch];
    unfold with_reader;
    repeat match goal with
           | |- context [match ?x with _ => _ end] => destruct x
           end;
    try discriminate; intros [= <-]; simpl_state;
    first [ exists []; now rewrite app_nil_r | eexists; reflexivity ].
Qed.

Lemma step_queue bytes st st' :
  step bytes st = Continue st' ->
  exists later, references st' = references st ++ later.
Proof.
  unfold step.
  assert (forall cur, read_record bytes cur st = Continue st' ->
                      exists later, references st' = references st ++ later) as Hrec.
  { intros cur. rewrite read_record_dispatch. intros E.
    destruct (dispatch_queue _ _ _ _ _ E) as [later Hl]. now exists later. }
  destruct (objectStack st) as [|a below]; [apply Hrec|].
  destruct (heap st !! a) as [o|]; [|discriminate].
  destruct (memberTypes o) as [types|]; [|discriminate].
  destruct (_ <? _)%nat;
    [|intros [= <-]; exists []; simpl_state; now rewrite app_nil_r].
  destruct (_ =? 0); [|apply Hrec].
  destruct (additionalInfos o) as [infos|]; [|discriminate].
  unfold with_reader.
  destruct (deserializePrimitiveType _ _ _) as [[v b]|]; [|discriminate].
  intros [= <-]. exists []. simpl_state. now rewrite app_nil_r.
Qed.

Lemma step_keys bytes st st' :
  step bytes st = Continue st' ->
  exists later, map fst (objects st') = map fst (objects st) ++ later.
Proof.
  intros Hstep. destruct (proj2 (step_effects _ _ _ Hstep)) as [-> | (k & v & ->)].
  - exists []. now rewrite app_nil_r.
  - destruct (Table_set_keys k v (objects st)) as [[-> _] | [-> _]].
    + exists []. now rewrite app_nil_r.
    + now exists [k].
Qed.

(** What was queued, and which keys were created, up to an earlier
    iteration stands first in the queue and among the keys later on. *)
Lemma steps_queue_keys bytes k st1 st2 :
  steps bytes k st1 = Some st2 ->
  (exists later, references st2 = references st1 ++ later) /\
  (exists later, map fst (objects st2) = map fst (objects st1) ++ later).
Proof.
  revert st2. induction k as [|k IH]; cbn [steps]; intros st2.
  - intros [= <-]. split; exists []; now rewrite app_nil_r.
  - destruct (steps bytes k st1) as [st|]; [|discriminate].
    destruct (step bytes st) as [st'| |] eqn:Hstep; try discriminate.
    intros [= <-]. destruct (IH st eq_refl) as [[l1 H1] [l2 H2]].
    destruct (step_queue _ _ _ Hstep) as [l1' H1'].
    destruct (step_keys _ _ _ Hstep) as [l2' H2'].
    split.
    + exists (l1 ++ l1'). now rewrite H1', H1, app_assoc.
    + exists (l2 ++ l2'). now rewrite H2', H2, app_assoc.
Qed.

Lemma deserialize_at_message_end str bytes n st cur depth :
  bitReader str = Ok bytes ->
  steps bytes n initial_state = Some st ->
  expects_record st cur ->
  fst (Reader.read8 bytes (bit st)) = 11 ->
  step bytes st =
    Finish (run_fixups (objects st) (references st) (heap st))
           (hd Vundefined (Table.values (objects st))) /\
  deserialize (S n) depth str =
    option_map Ok (mapMembers depth
                     (run_fixups (objects st) (references st) (heap st))
                     (hd Vundefined (Table.values (objects st)))).
Proof.
  intros Hrd Hsteps Hexp Htag.
  assert (step bytes st =
          Finish (run_fixups (objects st) (references st) (heap st))
                 (hd Vundefined (Table.values (objects st)))) as Hstep.
  { rewrite (step_expects_record _ _ _ Hexp), read_record_dispatch, Htag.
    reflexivity. }
  split; [exact Hstep|].
  unfold deserialize. rewrite Hrd.
  replace (S n) with (n + 1)%nat by lia.
  rewrite (loop_steps _ _ _ _ _ Hsteps). cbn [loop]. now rewrite Hstep.
Qed.

(** C1 (amended): when the loop reads the MessageEnd record (0x0B),
    [deserialize] applies all queued fix-ups in the order of queueing and
    returns the projection of the first value of the object table in
    property order.  In detail: the result is that projection, and on a
    heap without cycles it exists at every sufficient depth; the fix-ups
    together replace every placeholder by the entry of the object table
    under its id; what an earlier iteration had queued stands first in the
    queue and is run first, before what was queued later; the keys of the
    table keep the order of their creation; the first value in property
    order is the entry with the smallest non-negative id when there is one,
    and the entry inserted first when all ids are negative. *)
Theorem message_end_returns_first_own_entry str bytes n st cur depth :
  bitReader str = Ok bytes ->
  steps bytes n initial_state = Some st ->
  expects_record st cur ->
  fst (Reader.read8 bytes (bit st)) = 11 ->
  let h := run_fixups (objects st) (references st) (heap st) in
  let c := hd Vundefined (Table.values (objects st)) in
  deserialize (S n) depth str = option_map Ok (mapMembers depth h c) /\
  (forall lvl, acyclic h lvl -> (depth_for lvl c <= depth)%nat ->
     exists r, mapMembers depth h c = Some r /\
               deserialize (S n) depth str = Some (Ok r)) /\
  h = map (resolve_object (objects st)) (heap st) /\
  (forall m st_m,
      (m <= n)%nat -> steps bytes m initial_state = Some st_m ->
      exists later,
        references st = references st_m ++ later /\
        h = run_fixups (objects st) later
              (run_fixups (objects st) (references st_m) (heap st))) /\
  (forall m st_m,
      (m <= n)%nat -> steps bytes m initial_state = Some st_m ->
      exists later, map fst (objects st) = map fst (objects st_m) ++ later) /\
  (forall k v,
      In (k, v) (objects st) -> 0 <= k ->
      (forall k' v', In (k', v') (objects st) -> 0 <= k' -> k <= k') ->
      c = v) /\
  ((forall k v, In (k, v) (objects st) -> k < 0) ->
   c = hd Vundefined (map snd (objects st))).
Proof.
  intros Hrd Hsteps Hexp Htag h c. subst h c.
  destruct (deserialize_at_message_end _ _ _ _ _ depth Hrd Hsteps Hexp Htag)
    as [_ Hdes].
  split; [exact Hdes|]. split; [|split; [|split; [|split; [|split]]]].
  - intros lvl Hacyclic Hdepth.
    destruct (mapMembers_returns _ _ Hacyclic _ _ Hdepth) as [r Hr].
    exists r. split; [exact Hr|]. now rewrite Hdes, Hr.
  - apply run_fixups_resolve. exact (steps_refs_inv _ _ _ Hsteps).
  - intros m st_m Hle Hm.
    destruct (steps_from _ _ _ _ _ _ Hle Hm Hsteps) as [k Hk].
    destruct (proj1 (steps_queue_keys _ _ _ _ Hk)) as [later Hl].
    exists later. split; [exact Hl|].
    rewrite Hl. unfold run_fixups. now rewrite fold_left_app.
  - intros m st_m Hle Hm.
    destruct (steps_from _ _ _ _ _ _ Hle Hm Hsteps) as [k Hk].
    exact (proj2 (steps_queue_keys _ _ _ _ Hk)).
  - intros k v Hin Hk Hmin.
    apply Table_values_smallest with (k := k); auto.
    apply (steps_wf _ _ _ Hsteps).
  - apply Table_values_all_negative.
Qed.

Lemma message_end_returns_first_own_entry_witness :
  exists st,
    steps forward_reference_stream 7 initial_state = Some st /\
    expects_record st None /\
    fst (Reader.read8 forward_reference_stream (bit st)) = 11 /\
    map fx_reference (references st) = [2; 5] /\
    map fst (objects st) = [1; 2] /\
    hd Vundefined (Table.values (objects st)) = Vobj O /\
    deserialize 8 10 forward_reference_stream =
      Some (Ok (Pobject None [(lit "x", Pobject None []);
                              (lit "y", Psimple Vundefined);
                              (lit "z", Pobject None [])])).
Proof.
  eexists. split; [vm_compute; reflexivity|].
  match goal with
  | |- expects_record ?s None /\ _ =>
      assert (steps forward_reference_stream 7 initial_state = Some s) as Hsteps
        by (vm_compute; reflexivity);
      assert (expects_record s None) as Hexp by (now constructor);
      assert (fst (Reader.read8 forward_reference_stream (bit s)) = 11) as Htag
        by (vm_compute; reflexivity);
      pose proof (message_end_returns_first_own_entry
                    forward_reference_stream forward_reference_stream 7 s None 10
                    eq_refl Hsteps Hexp Htag) as (Hdes & _ & _ & _ & _ & Hroot & _)
  end.
  split; [exact Hexp|]. split; [exact Htag|].
  split; [reflexivity|]. split; [reflexivity|].
  split.
  - apply (Hroot 1 (Vobj O)).
    + now left.
    + lia.
    + intros k' v' [[= <- <-] | [[= <- <-] | []]]; lia.
  - rewrite Hdes. vm_compute. reflexivity.
Defined.

(** C6 (amended): a MemberReference whose id is absent from the object
    table at MessageEnd is no error.  The fix-up pass writes [undefined]
    into the slot of the reference and leaves the other fields of the
    composite alone; the MessageEnd iteration ends the loop without an
    exception, and the outcome of [deserialize] is that of projecting the
    root over the heap so fixed up; on a heap without cycles that is a
    value, at every sufficient depth.  In the projection of the composite
    that holds the slot (a class instance with no member named "_items",
    "value__" or "__proto__", the member's name not borne by a later
    member) the property of that member is [undefined]; when that composite
    is the root, this projection is what [deserialize] returns. *)
Theorem dangling_reference_resolves_to_undefined str bytes n st cur a o i id :
  bitReader str = Ok bytes ->
  steps bytes n initial_state = Some st ->
  expects_record st cur ->
  fst (Reader.read8 bytes (bit st)) = 11 ->
  heap st !! a = Some o ->
  memberValues o !! i = Some (Vref id) ->
  (forall v, ~ In (id, v) (objects st)) ->
  let h := run_fixups (objects st) (references st) (heap st) in
  let c := hd Vundefined (Table.values (objects st)) in
  (exists mv,
      h !! a = Some (set_memberValues o mv) /\ mv !! i = Some Vundefined /\
      length mv = length (memberValues o)) /\
  step bytes st = Finish h c /\
  (forall depth,
      deserialize (S n) depth str = option_map Ok (mapMembers depth h c)) /\
  (forall lvl depth,
      acyclic h lvl -> (depth_for lvl c <= depth)%nat ->
      exists r, deserialize (S n) depth str = Some (Ok r)) /\
  (forall lvl depth names nm,
      acyclic h lvl -> (depth_for lvl (Vobj a) <= depth)%nat ->
      rank o = None -> memberNames o = Some names -> names !! i = Some nm ->
      Forall (fun k => collapses k = false) names ->
      ~ In proto_name names -> ~ In nm (drop (S i) names) ->
      exists props,
        mapMembers depth h (Vobj a) = Some (Pobject None props) /\
        Props.get nm props = Some (Psimple Vundefined) /\
        (c = Vobj a ->
         deserialize (S n) depth str = Some (Ok (Pobject None props)))).
Proof.
  intros Hrd Hsteps Hexp Htag Ho Hslot Habs h c.
  assert (h = map (resolve_object (objects st)) (heap st)) as Hh
    by (apply run_fixups_resolve; exact (steps_refs_inv _ _ _ Hsteps)).
  assert (h !! a =
          Some (set_memberValues o (map (resolve (objects st)) (memberValues o))))
    as Ha by (rewrite Hh, list_lookup_fmap; unfold addr in *; now rewrite Ho).
  assert (map (resolve (objects st)) (memberValues o) !! i = Some Vundefined)
    as Hi.
  { rewrite list_lookup_fmap, Hslot. cbn.
    now rewrite (Table_get_absent _ _ Habs). }
  destruct (deserialize_at_message_end _ _ _ _ _ 0 Hrd Hsteps Hexp Htag)
    as [Hstep _].
  assert (forall depth,
            deserialize (S n) depth str = option_map Ok (mapMembers depth h c))
    as Hdes.
  { intros depth.
    exact (proj2 (deserialize_at_message_end _ _ _ _ _ depth Hrd Hsteps Hexp Htag)). }
  split; [|split; [exact Hstep|split; [|split]]].
  - eexists. split; [exact Ha|]. split; [exact Hi|]. apply length_map.
  - exact Hdes.
  - intros lvl depth Hacyclic Hdepth.
    destruct (mapMembers_returns _ _ Hacyclic _ _ Hdepth) as [r Hr].
    exists r. now rewrite Hdes, Hr.
  - intros lvl depth names nm Hacyclic Hdepth Hrank Hnames Hnm Hnc Hnp Hlast.
    destruct (mapMembers_returns _ _ Hacyclic _ _ Hdepth) as [r Hr].
    destruct depth as [|[|depth]]; cbn [depth_for] in Hdepth; try lia.
    pose proof Hr as Hloop. cbn [mapMembers] in Hloop.
    unfold addr in *. rewrite Ha in Hloop.
    cbn [rank memberNames memberValues set_memberValues] in Hloop.
    rewrite Hrank, Hnames in Hloop.
    destruct (mapMembers_loop_object _ _ _ _ _ _ Hnc Hnp Hloop)
      as (props & -> & _ & _ & Hget).
    exists props. split; [exact Hr|]. split.
    + rewrite (Hget (take i names) nm (drop (S i) names)); [|
        symmetry; now apply take_drop_middle | exact Hlast].
      rewrite length_take, Nat.min_l
        by (apply lookup_lt_Some in Hnm; lia).
      cbn [Nat.add]. now rewrite (nth_lookup_Some _ _ _ _ Hi).
    + intros Hc. rewrite Hdes, Hc. fold h. now rewrite Hr.
Qed.

Lemma dangling_reference_resolves_to_undefined_witness :
  exists st props,
    steps forward_reference_stream 7 initial_state = Some st /\
    option_map memberValues (heap st !! O) = Some [Vref 2; Vref 5; Vobj 1%nat] /\
    (forall v, ~ In (5, v) (objects st)) /\
    deserialize 8 10 forward_reference_stream = Some (Ok (Pobject None props)) /\
    Props.get (lit "y") props = Some (Psimple Vundefined).
Proof.
  eexists.
  match goal with
  | |- exists props, steps _ _ _ = Some ?s /\ _ =>
      assert (steps forward_reference_stream 7 initial_state = Some s) as Hsteps
        by (vm_compute; reflexivity);
      assert (expects_record s None) as Hexp by (now constructor);
      assert (fst (Reader.read8 forward_reference_stream (bit s)) = 11) as Htag
        by (vm_compute; reflexivity);
      assert (exists o, heap s !! O = Some o /\
                        memberValues o = [Vref 2; Vref 5; Vobj 1%nat] /\
                        rank o = None /\
                        memberNames o = Some [lit "x"; lit "y"; lit "z"])
        as (o & Ho & Hmv & Hrank & Hnames)
        by (eexists; split; [vm_compute; reflexivity | repeat split]);
      assert (forall v, ~ In (5, v) (objects s)) as Habs
        by (intros v [H | [H | []]]; discriminate H);
      assert (memberValues o !! 1%nat = Some (Vref 5)) as Hslot
        by (now rewrite Hmv);
      destruct (dangling_reference_resolves_to_undefined
                  forward_reference_stream forward_reference_stream 7 s None
                  O o 1%nat 5 eq_refl Hsteps Hexp Htag Ho Hslot Habs)
        as (_ & _ & _ & _ & Hproj)
  end.
  destruct (Hproj (fun b => match b with O => 1%nat | _ => O end) 10%nat
              [lit "x"; lit "y"; lit "z"] (lit "y"))
    as (props & _ & Hget & Hroot).
  - intros b ob b' Hb Hin.
    destruct b as [|[|b]]; vm_compute in Hb; [| |discriminate Hb];
      injection Hb as <-; cbn in Hin.
    + destruct Hin as [H | [H | [H | []]]]; try discriminate H;
        injection H as <-; cbn; lia.
    + destruct Hin.
  - cbn. lia.
  - exact Hrank.
  - exact Hnames.
  - reflexivity.
  - repeat constructor.
  - intros [H | [H | [H | []]]]; discriminate H.
  - intros [H | []]. discriminate H.
  - exists props. split; [exact Hsteps|].
    split; [rewrite Ho; cbn [option_map]; now rewrite Hmv|].
    split; [exact Habs|].
    split; [apply Hroot; vm_compute; reflexivity | exact Hget].
Defined.
